(** * go-graceful: the orchestrator, its hook registry and its shutdown run

    A shallow embedding of package [graceful] (shutdown.go, the constants
    file and graceful.go).  The sequential part of the package (constructor,
    setters, registrations) is embedded as pure functions on a [Graceful]
    record.  The concurrent part ([shutdown] and [Wait]) is embedded as an
    executable step function over an explicit scheduler event, so that a
    statement about "every run" quantifies over every interleaving of the
    goroutines the code starts. *)

From Stdlib Require Import List String Ascii ZArith Bool Arith Lia.
From Stdlib Require Import Permutation DecimalString DecimalNat.
From Stdlib.Strings Require Import Byte.
Import ListNotations.
Local Open Scope list_scope.

(** ** Values of the Go runtime the package relies on *)

(** A non-nil Go [error].  [DeadlineExceeded] and [Canceled] are the two
    sentinel errors of package context; [errorString] is what [errors.New]
    builds. *)
Inductive err : Type :=
| DeadlineExceeded
| Canceled
| errorString (msg : string).

(** A Go [error] value: [None] is [nil]. *)
Definition error : Type := option err.

Definition isNil (e : error) : bool :=
  match e with None => true | Some _ => false end.

(** What a goroutine can observe of a [context.Context]: [ctx.Err()] and
    [context.Cause(ctx)].  Both are nil until the context is done and never
    change afterwards. *)
Record Context : Type := mkContext {
  ctxErr : error;
  ctxCause : error
}.

Definition live : Context := mkContext None None.

Definition done (c : Context) : bool := negb (isNil (ctxErr c)).

(** The timer of [context.WithTimeout] fires. *)
Definition expire (c : Context) : Context :=
  if done c then c else mkContext (Some DeadlineExceeded) (Some DeadlineExceeded).

(** The [cancel(cause)] of [context.WithCancelCause]; a nil cause stands for
    [Canceled]. *)
Definition cancel (cause : error) (c : Context) : Context :=
  if done c then c
  else mkContext (Some Canceled)
                 (match cause with None => Some Canceled | Some _ => cause end).

(** [time.Duration] counts nanoseconds. *)
Definition Duration : Type := Z.
Definition Second : Duration := 1000000000%Z.

(** [os.Signal], by signal number; [os.Interrupt] is [syscall.SIGINT]. *)
Definition Signal : Type := Z.
Module syscall.
Definition SIGHUP : Signal := 1%Z.
Definition SIGINT : Signal := 2%Z.
Definition SIGTERM : Signal := 15%Z.
End syscall.
Module os.
Definition Interrupt : Signal := syscall.SIGINT.
End os.

(** ** Identifiers (github.com/google/uuid) *)

Module uuid.

(** A [uuid.UUID] is an array of 16 bytes. *)
Definition UUID : Type := list byte.

Definition hexdigit (n : N) : ascii :=
  nth (N.to_nat n) (list_ascii_of_string "0123456789abcdef"%string) "0"%char.

Fixpoint encodeHex (bs : list byte) : string :=
  match bs with
  | [] => EmptyString
  | b :: rest =>
      let n := Byte.to_N b in
      String (hexdigit (N.shiftr n 4))
             (String (hexdigit (N.land n 15)) (encodeHex rest))
  end.

(** [UUID.String]: the 8-4-4-4-12 rendering. *)
Definition String (u : UUID) : string :=
  (encodeHex (firstn 4 u) ++ "-" ++
   encodeHex (firstn 2 (skipn 4 u)) ++ "-" ++
   encodeHex (firstn 2 (skipn 6 u)) ++ "-" ++
   encodeHex (firstn 2 (skipn 8 u)) ++ "-" ++
   encodeHex (skipn 10 u))%string.

(** The random source [uuid.New] draws from: the identifiers it is going
    to hand out, in order. *)
Definition Rand : Type := nat -> UUID.

(** [uuid.New()]: take the next identifier. *)
Definition New (r : Rand) : UUID * Rand := (r 0, fun n => r (S n)).

End uuid.

(** ** shutdown.go *)

(** A hook's function, [func(context.Context) error]: applied to what the
    context shows at the moment the function returns. *)
Definition Process : Type := Context -> error.

Record shutdown : Type := mkShutdown {
  id : uuid.UUID;
  tag : string;
  process : Process
}.

Definition newShutdown (tag0 : string) (process0 : Process) (r : uuid.Rand)
  : (shutdown * uuid.UUID) * uuid.Rand :=
  let '(id0, r') := uuid.New r in
  let tag1 := if String.eqb tag0 ""%string then uuid.String id0 else tag0 in
  ((mkShutdown id0 tag1 process0, id0), r').

(** ** Constants *)

Definition defaultMaxShutdownTime : Duration := (10 * Second)%Z.
Definition defaultMaxShutdownProcess : Z := 5%Z.
Definition shutdownTag : string := "graceful-shutdown-tag"%string.
Definition shutdownSuccessMessage : string := "shutdown success"%string.
Definition defaultSignals : list Signal :=
  [os.Interrupt; syscall.SIGINT; syscall.SIGTERM; syscall.SIGHUP].

(** ** graceful.go: the orchestrator *)

(** The context handed to [NewWithContext]: [context.Background()] is never
    done, any other context may be cancelled by its owner. *)
Inductive Parent : Type := Background | Cancellable.

(** What [signal.NotifyContext(ctx, signals...)] was built from. *)
Record SignalCtx : Type := mkSignalCtx {
  parent : Parent;
  notify : list Signal
}.

(** A function handed to [g.group.Go]: it runs against [g.groupCtx]. *)
Definition Task : Type := Context -> error.

(** The [Graceful] struct.  [group] lists the goroutines started in the
    errgroup so far; the state of [groupCtx] while they run belongs to the
    run ([wstate] below).  The mutex only serialises registrations, which
    are sequential here. *)
Record Graceful : Type := mkGraceful {
  signalCtx : SignalCtx;
  group : list Task;
  shutdowns : list shutdown;
  maxShutdownTime : Duration;
  maxShutdownProcess : Z;
  cancelOnError : bool
}.

Definition NewWithContext (ctx : Parent) (signals : list Signal) : Graceful :=
  let signals' :=
    if Nat.eqb (List.length signals) 0 then defaultSignals else signals in
  {| signalCtx := mkSignalCtx ctx signals';
     group := [];
     shutdowns := [];
     maxShutdownTime := defaultMaxShutdownTime;
     maxShutdownProcess := defaultMaxShutdownProcess;
     cancelOnError := false |}.

Definition New (signals : list Signal) : Graceful :=
  NewWithContext Background signals.

Definition SetCancelOnError (value : bool) (g : Graceful) : Graceful :=
  {| signalCtx := signalCtx g; group := group g; shutdowns := shutdowns g;
     maxShutdownTime := maxShutdownTime g;
     maxShutdownProcess := maxShutdownProcess g;
     cancelOnError := value |}.

Definition SetMaxShutdownTime (duration : Duration) (g : Graceful) : Graceful :=
  let d := if (duration <? 1)%Z then defaultMaxShutdownTime else duration in
  {| signalCtx := signalCtx g; group := group g; shutdowns := shutdowns g;
     maxShutdownTime := d;
     maxShutdownProcess := maxShutdownProcess g;
     cancelOnError := cancelOnError g |}.

Definition SetMaxShutdownProcess (max : Z) (g : Graceful) : Graceful :=
  let m := if (max <? 1)%Z then defaultMaxShutdownProcess else max in
  {| signalCtx := signalCtx g; group := group g; shutdowns := shutdowns g;
     maxShutdownTime := maxShutdownTime g;
     maxShutdownProcess := m;
     cancelOnError := cancelOnError g |}.

(** [g.group.Go(f)]: one more goroutine in the task group. *)
Definition group_Go (f : Task) (g : Graceful) : Graceful :=
  {| signalCtx := signalCtx g; group := group g ++ [f];
     shutdowns := shutdowns g;
     maxShutdownTime := maxShutdownTime g;
     maxShutdownProcess := maxShutdownProcess g;
     cancelOnError := cancelOnError g |}.

(** A [func() error] is a function of nothing; [None] is the nil function. *)
Definition RegisterProcess (process0 : option (unit -> error)) (g : Graceful)
  : Graceful :=
  match process0 with
  | None => g
  | Some p => group_Go (fun _ => p tt) g
  end.

Definition RegisterProcessWithContext (process0 : option Task) (g : Graceful)
  : Graceful :=
  match process0 with
  | None => g
  | Some p => group_Go (fun groupCtx => p groupCtx) g
  end.

Definition RegisterShutdownProcessWithTag
  (process0 : option Process) (tag0 : string) (g : Graceful) (r : uuid.Rand)
  : (string * Graceful) * uuid.Rand :=
  match process0 with
  | None => ((""%string, g), r)
  | Some p =>
      let '((shutdownProcess, id0), r') := newShutdown tag0 p r in
      ((uuid.String id0,
        {| signalCtx := signalCtx g; group := group g;
           shutdowns := shutdowns g ++ [shutdownProcess];
           maxShutdownTime := maxShutdownTime g;
           maxShutdownProcess := maxShutdownProcess g;
           cancelOnError := cancelOnError g |}), r')
  end.

Definition RegisterShutdownProcess
  (process0 : option Process) (g : Graceful) (r : uuid.Rand)
  : (string * Graceful) * uuid.Rand :=
  RegisterShutdownProcessWithTag process0 ""%string g r.

(** One call of the public surface before [Wait]. *)
Inductive call : Type :=
| CallSetCancelOnError (value : bool)
| CallSetMaxShutdownTime (duration : Duration)
| CallSetMaxShutdownProcess (max : Z)
| CallRegisterProcess (p : option (unit -> error))
| CallRegisterProcessWithContext (p : option Task)
| CallRegisterShutdownProcess (p : option Process)
| CallRegisterShutdownProcessWithTag (p : option Process) (tag0 : string).

Definition do_call (c : call) (w : Graceful * uuid.Rand) : Graceful * uuid.Rand :=
  let '(g, r) := w in
  match c with
  | CallSetCancelOnError v => (SetCancelOnError v g, r)
  | CallSetMaxShutdownTime d => (SetMaxShutdownTime d g, r)
  | CallSetMaxShutdownProcess m => (SetMaxShutdownProcess m g, r)
  | CallRegisterProcess p => (RegisterProcess p g, r)
  | CallRegisterProcessWithContext p => (RegisterProcessWithContext p g, r)
  | CallRegisterShutdownProcess p =>
      let '((_, g'), r') := RegisterShutdownProcess p g r in (g', r')
  | CallRegisterShutdownProcessWithTag p t =>
      let '((_, g'), r') := RegisterShutdownProcessWithTag p t g r in (g', r')
  end.

Definition do_calls (cs : list call) (w : Graceful * uuid.Rand)
  : Graceful * uuid.Rand :=
  fold_left (fun w c => do_call c w) cs w.

(** ** golang.org/x/sync/errgroup, as far as the package uses it *)

Module errgroup.

(** A [Group] made by [WithContext]: the first error kept by [errOnce] and
    the derived context that this error cancels. *)
Record Group : Type := mkGroup {
  first : error;
  ctx : Context
}.

Definition WithContext (c : Context) : Group := mkGroup None c.

(** What the goroutine started by [Go] does when its function returned
    [r]: a non-nil [r] is kept if it is the first one, and the context is
    cancelled with it. *)
Definition finish (r : error) (G : Group) : Group :=
  match r, first G with
  | Some _, None => mkGroup r (cancel r (ctx G))
  | _, _ => G
  end.

(** [Go] blocks while the semaphore of [SetLimit(n)] is full; a negative
    [n] means no limit. *)
Definition hasSlot (n : Z) (active : nat) : bool :=
  ((n <? 0) || (Z.of_nat active <? n))%Z.

End errgroup.

Arguments errgroup.finish : simpl never.

(** ** Association lists keyed by hook index *)

Fixpoint lookup {A : Type} (i : nat) (l : list (nat * A)) : option A :=
  match l with
  | [] => None
  | (j, a) :: rest => if Nat.eqb i j then Some a else lookup i rest
  end.

Fixpoint update {A : Type} (i : nat) (v : A) (l : list (nat * A))
  : list (nat * A) :=
  match l with
  | [] => []
  | (j, a) :: rest =>
      if Nat.eqb i j then (j, v) :: rest else (j, a) :: update i v rest
  end.

Fixpoint remove_key {A : Type} (i : nat) (l : list (nat * A))
  : list (nat * A) :=
  match l with
  | [] => []
  | (j, a) :: rest =>
      if Nat.eqb i j then rest else (j, a) :: remove_key i rest
  end.

(** ** graceful.go: [shutdown], one scheduler event at a time *)

(** The goroutines of a call take part in a run through the events of
    [sevent]; between two events any other goroutine may move, so a run is
    one interleaving of them.  An event is enabled exactly when the Go
    statement it stands for can proceed: [Admit] when [shutdownGroup.Go]
    finds a free slot, [SelectDone] and [SelectErr] when that case of the
    unit's [select] is ready (when both are, Go takes either, and so may a
    run), [Deadline] once [maxShutdownTime] has passed.  What a unit does
    from the chosen case to its return, and what the errgroup does with the
    value it returns ([errOnce], [cancel], the release of its slot), is one
    event.  Time passes through [Elapse] only. *)

(** The goroutine that runs a hook's function: still inside the function, or
    blocked on [errChan <- err] with the value the function returned. *)
Inductive pstat : Type :=
| Running
| Sending (e : error).

(** What the hook's goroutine of the errgroup writes to the logger. *)
Inductive LogEntry : Type :=
| LogError (key value : string) (e : err)
| LogInfo (key value : string) (msg : string).

(** The state of one call of [shutdown]:
    - [timerFired]: the timer of [shutdownCtx] has fired;
    - [elapsed]: the time since [shutdownCtx] was made;
    - [sgroup]: [shutdownGroup] with [shutdownGroupCtx];
    - [next]: how far the [for ... range g.shutdowns] loop has come;
    - [units]: the goroutines of [shutdownGroup] that sit in their [select],
      each holding a slot, with the state of the goroutine they started;
    - [leaked]: the hook goroutines whose unit left through [ctx.Done()];
    - [returned]: what each unit returned, in the order of return;
    - [logs]: the lines written so far. *)
Record sstate : Type := mkS {
  timerFired : bool;
  elapsed : Duration;
  sgroup : errgroup.Group;
  next : nat;
  units : list (nat * pstat);
  leaked : list (nat * pstat);
  returned : list (nat * error);
  logs : list LogEntry
}.

(** The scheduler events of a [shutdown] call. *)
Inductive sevent : Type :=
| Admit                  (* shutdownGroup.Go gets a slot for the next hook *)
| ProcReturn (i : nat)   (* the function of hook i returns *)
| Deadline               (* the timer of shutdownCtx fires *)
| SelectDone (i : nat)   (* unit i takes case <-shutdownGroupCtx.Done() *)
| SelectErr (i : nat)    (* unit i takes case err := <-errChan *)
| Elapse (d : Duration). (* time passes *)

(** [context.WithTimeout(context.Background(), g.maxShutdownTime)], then
    [errgroup.WithContext] and [SetLimit]; no hook admitted yet. *)
Definition shutdown_start : sstate :=
  {| timerFired := false;
     elapsed := 0%Z;
     sgroup := errgroup.WithContext live;
     next := 0;
     units := [];
     leaked := [];
     returned := [];
     logs := [] |}.

(** A unit returns [r]: its slot is released and the errgroup takes note. *)
Definition unit_return (i : nat) (r : error) (st : sstate) : sstate :=
  {| timerFired := timerFired st;
     elapsed := elapsed st;
     sgroup := errgroup.finish r (sgroup st);
     next := next st;
     units := remove_key i (units st);
     leaked := leaked st;
     returned := returned st ++ [(i, r)];
     logs := logs st |}.

Definition log_outcome (s : shutdown) (e : error) : LogEntry :=
  match e with
  | Some x => LogError shutdownTag (tag s) x
  | None => LogInfo shutdownTag (tag s) shutdownSuccessMessage
  end.

Definition shutdown_step (g : Graceful) (st : sstate) (ev : sevent)
  : option sstate :=
  match ev with
  | Admit =>
      match nth_error (shutdowns g) (next st) with
      | None => None
      | Some _ =>
          if errgroup.hasSlot (maxShutdownProcess g) (List.length (units st))
          then Some {| timerFired := timerFired st;
                       elapsed := elapsed st;
                       sgroup := sgroup st;
                       next := S (next st);
                       units := units st ++ [(next st, Running)];
                       leaked := leaked st;
                       returned := returned st;
                       logs := logs st |}
          else None
      end
  | ProcReturn i =>
      match nth_error (shutdowns g) i with
      | None => None
      | Some s =>
          let e := process s (errgroup.ctx (sgroup st)) in
          match lookup i (units st), lookup i (leaked st) with
          | Some Running, _ =>
              Some {| timerFired := timerFired st;
                      elapsed := elapsed st;
                      sgroup := sgroup st;
                      next := next st;
                      units := update i (Sending e) (units st);
                      leaked := leaked st;
                      returned := returned st;
                      logs := logs st |}
          | None, Some Running =>
              Some {| timerFired := timerFired st;
                      elapsed := elapsed st;
                      sgroup := sgroup st;
                      next := next st;
                      units := units st;
                      leaked := update i (Sending e) (leaked st);
                      returned := returned st;
                      logs := logs st |}
          | _, _ => None
          end
      end
  | Deadline =>
      if timerFired st || (elapsed st <? maxShutdownTime g)%Z then None
      else Some {| timerFired := true;
                   elapsed := elapsed st;
                   sgroup := errgroup.mkGroup
                               (errgroup.first (sgroup st))
                               (expire (errgroup.ctx (sgroup st)));
                   next := next st;
                   units := units st;
                   leaked := leaked st;
                   returned := returned st;
                   logs := logs st |}
  | SelectDone i =>
      match lookup i (units st), ctxErr (errgroup.ctx (sgroup st)) with
      | Some p, Some ce =>
          let st' := unit_return i (Some ce) st in
          Some {| timerFired := timerFired st';
                  elapsed := elapsed st';
                  sgroup := sgroup st';
                  next := next st';
                  units := units st';
                  leaked := leaked st' ++ [(i, p)];
                  returned := returned st';
                  logs := logs st' |}
      | _, _ => None
      end
  | SelectErr i =>
      match nth_error (shutdowns g) i, lookup i (units st) with
      | Some s, Some (Sending e) =>
          let st' := unit_return i (if cancelOnError g then e else None) st in
          Some {| timerFired := timerFired st';
                  elapsed := elapsed st';
                  sgroup := sgroup st';
                  next := next st';
                  units := units st';
                  leaked := leaked st';
                  returned := returned st';
                  logs := logs st' ++ [log_outcome s e] |}
      | _, _ => None
      end
  | Elapse d =>
      if (d <? 0)%Z then None
      else Some {| timerFired := timerFired st;
                   elapsed := (elapsed st + d)%Z;
                   sgroup := sgroup st;
                   next := next st;
                   units := units st;
                   leaked := leaked st;
                   returned := returned st;
                   logs := logs st |}
  end.

Fixpoint shutdown_run (g : Graceful) (st : sstate) (tr : list sevent)
  : option sstate :=
  match tr with
  | [] => Some st
  | ev :: rest =>
      match shutdown_step g st ev with
      | Some st' => shutdown_run g st' rest
      | None => None
      end
  end.

(** The loop is over and [shutdownGroup.Wait()] has nothing left to wait
    for. *)
Definition shutdown_over (g : Graceful) (st : sstate) : bool :=
  Nat.eqb (next st) (List.length (shutdowns g)) &&
  Nat.eqb (List.length (units st)) 0.

(** What [shutdown] returns, once it returns. *)
Definition shutdown_result (g : Graceful) (st : sstate) : option error :=
  if shutdown_over g st then Some (errgroup.first (sgroup st)) else None.

(** ** graceful.go: [Wait], one scheduler event at a time *)

(** The goroutine [Wait] adds to the task group: blocked on
    [<-g.groupCtx.Done()], inside [g.shutdown()], or returned. *)
Inductive phase : Type :=
| Blocked
| InShutdown (s : sstate)
| Returned (e : error).

(** The state of a run of the orchestrator: [g.group] with [g.groupCtx],
    what each registered task has returned ([None] while it runs), and the
    goroutine of [Wait]. *)
Record wstate : Type := mkW {
  wgroup : errgroup.Group;
  tasks : list (option error);
  waiter : phase
}.

Inductive wevent : Type :=
| SignalArrives (s : Signal)  (* the process receives signal s *)
| ParentDone (e : err)        (* the context given to NewWithContext ends *)
| TaskReturn (k : nat)        (* the k-th registered task returns *)
| Wake                        (* <-g.groupCtx.Done() lets the waiter through *)
| Shut (ev : sevent)          (* an event of the shutdown call *)
| ShutReturn.                 (* g.shutdown() returns to the waiter *)

(** The tasks run from their registration on, and what they do before
    [Wait] is called can as well happen after it: the run starts with all
    of them running and the goroutine of [Wait] blocked.  A signal that the
    orchestrator does not listen to is not an event of the run. *)
Definition Wait_start (g : Graceful) : wstate :=
  {| wgroup := errgroup.WithContext live;
     tasks := map (fun _ => None) (group g);
     waiter := Blocked |}.

Fixpoint set_nth {A : Type} (k : nat) (v : A) (l : list A) : list A :=
  match l, k with
  | [], _ => []
  | _ :: rest, 0 => v :: rest
  | a :: rest, S k' => a :: set_nth k' v rest
  end.

Definition Wait_step (g : Graceful) (w : wstate) (ev : wevent)
  : option wstate :=
  match ev with
  | SignalArrives s =>
      if existsb (Z.eqb s) (notify (signalCtx g))
      then Some {| wgroup := errgroup.mkGroup
                               (errgroup.first (wgroup w))
                               (cancel None (errgroup.ctx (wgroup w)));
                   tasks := tasks w;
                   waiter := waiter w |}
      else None
  | ParentDone e =>
      match parent (signalCtx g) with
      | Background => None
      | Cancellable =>
          Some {| wgroup := errgroup.mkGroup
                              (errgroup.first (wgroup w))
                              (if done (errgroup.ctx (wgroup w))
                               then errgroup.ctx (wgroup w)
                               else mkContext (Some e) (Some e));
                  tasks := tasks w;
                  waiter := waiter w |}
      end
  | TaskReturn k =>
      match nth_error (group g) k, nth_error (tasks w) k with
      | Some f, Some None =>
          let r := f (errgroup.ctx (wgroup w)) in
          Some {| wgroup := errgroup.finish r (wgroup w);
                  tasks := set_nth k (Some r) (tasks w);
                  waiter := waiter w |}
      | _, _ => None
      end
  | Wake =>
      match waiter w with
      | Blocked =>
          if done (errgroup.ctx (wgroup w)) then
            if Nat.ltb 0 (List.length (shutdowns g))
            then Some {| wgroup := wgroup w;
                         tasks := tasks w;
                         waiter := InShutdown shutdown_start |}
            else Some {| wgroup := errgroup.finish None (wgroup w);
                         tasks := tasks w;
                         waiter := Returned None |}
          else None
      | _ => None
      end
  | Shut ev' =>
      match waiter w with
      | InShutdown s =>
          match shutdown_step g s ev' with
          | Some s' => Some {| wgroup := wgroup w;
                               tasks := tasks w;
                               waiter := InShutdown s' |}
          | None => None
          end
      | _ => None
      end
  | ShutReturn =>
      match waiter w with
      | InShutdown s =>
          match shutdown_result g s with
          | Some r => Some {| wgroup := errgroup.finish r (wgroup w);
                              tasks := tasks w;
                              waiter := Returned r |}
          | None => None
          end
      | _ => None
      end
  end.

Fixpoint Wait_run (g : Graceful) (w : wstate) (tr : list wevent)
  : option wstate :=
  match tr with
  | [] => Some w
  | ev :: rest =>
      match Wait_step g w ev with
      | Some w' => Wait_run g w' rest
      | None => None
      end
  end.

Definition hasReturned (t : option error) : bool :=
  match t with Some _ => true | None => false end.

(** [g.group.Wait()] has nothing left to wait for. *)
Definition Wait_over (w : wstate) : bool :=
  forallb hasReturned (tasks w) &&
  match waiter w with Returned _ => true | _ => false end.

(** What [Wait] returns, once it returns. *)
Definition Wait_result (w : wstate) : option error :=
  if Wait_over w then Some (errgroup.first (wgroup w)) else None.

(** ** Predicates used in the statements *)

(** The cap and the time limit of an orchestrator built through the public
    surface are positive. *)
Definition configured (g : Graceful) : Prop :=
  (1 <= maxShutdownProcess g)%Z /\ (1 <= maxShutdownTime g)%Z.

(** No unit of the run leaves through [ctx.Done()]: every unit gets what its
    hook's function returned. *)
Definition no_abandon (tr : list sevent) : Prop :=
  forall i, ~ In (SelectDone i) tr.

(** The same for a run of [Wait]. *)
Definition no_abandon_in_Wait (tr : list wevent) : Prop :=
  forall i, ~ In (Shut (SelectDone i)) tr.

(** The events of a run up to the firing of the timer. *)
Fixpoint before_deadline (tr : list sevent) : list sevent :=
  match tr with
  | [] => []
  | Deadline :: _ => []
  | ev :: rest => ev :: before_deadline rest
  end.

(** The function of every registered hook returns before the timer
    fires. *)
Definition functions_return_in_time (g : Graceful) (tr : list sevent) : Prop :=
  forall i, i < List.length (shutdowns g) ->
            In (ProcReturn i) (before_deadline tr).

(** No registered task has returned a failure. *)
Definition no_task_failed (w : wstate) : Prop :=
  forall e, ~ In (Some (Some e)) (tasks w).

(** Every hook in turn: admitted, its function returns, its unit reads the
    result. *)
Definition one_by_one (from count : nat) : list sevent :=
  flat_map (fun i => [Admit; ProcReturn i; SelectErr i]) (seq from count).

(** Nothing has gone wrong so far in a run of [Wait]: neither the task group
    nor the shutdown call, as far as it has come, holds an error. *)
Definition quiet (w : wstate) : Prop :=
  errgroup.first (wgroup w) = None /\
  match waiter w with
  | Blocked => True
  | InShutdown s => errgroup.first (sgroup s) = None
  | Returned r => r = None
  end.

(** The shutdown call of a run of [Wait] holds an error, or has handed one
    over to the task group. *)
Definition shutdown_failed (w : wstate) : Prop :=
  match waiter w with
  | Blocked => False
  | InShutdown s => errgroup.first (sgroup s) <> None
  | Returned _ => errgroup.first (wgroup w) <> None
  end.

(** The shutdown call has not been entered. *)
Definition not_in_shutdown (w : wstate) : Prop :=
  forall s, waiter w <> InShutdown s.

(** A signal arrives, the goroutine of [Wait] gets through, and the tasks
    return in the order of their registration. *)
Definition signal_then_return (sg : Signal) (g : Graceful) : list wevent :=
  SignalArrives sg :: Wake
  :: map TaskReturn (seq 0 (List.length (group g))).

(** [x] is a failure that the function of a registered hook returns. *)
Definition hook_failure (g : Graceful) (x : err) : Prop :=
  exists j s c, nth_error (shutdowns g) j = Some s /\ process s c = Some x.

(** Where the error of the shutdown group can come from, by the state of
    its context: none while the context is live; after the deadline, the
    deadline error of an abandoned unit or, under the policy, a failure
    that a unit read; after a cancellation, such a failure. *)
Definition error_origin (g : Graceful) (G : errgroup.Group) : Prop :=
  match ctxErr (errgroup.ctx G) with
  | None => errgroup.first G = None
  | Some DeadlineExceeded =>
      errgroup.first G = None \/
      errgroup.first G = Some DeadlineExceeded \/
      (cancelOnError g = true /\
       exists x, errgroup.first G = Some x /\ hook_failure g x)
  | Some Canceled =>
      cancelOnError g = true /\
      exists x, errgroup.first G = Some x /\ hook_failure g x
  | Some (errorString _) => False
  end.

(** What holds in every state of a [shutdown] call. *)
Definition shutdown_inv (g : Graceful) (st : sstate) : Prop :=
  (forall i x, In (i, Sending (Some x)) (units st) -> hook_failure g x) /\
  error_origin g (sgroup st) /\
  (forall i x, In (i, Some x) (returned st) ->
               errgroup.first (sgroup st) <> None) /\
  (timerFired st = true -> done (errgroup.ctx (sgroup st)) = true).

(** A whole run of [Wait] in which nothing goes wrong: a signal arrives, the
    hooks (if any) are gone through one by one, [shutdown] returns, and the
    tasks return. *)
Definition quiet_run (sg : Signal) (g : Graceful) : list wevent :=
  SignalArrives sg :: Wake
  :: (if Nat.ltb 0 (List.length (shutdowns g))
      then map Shut (one_by_one 0 (List.length (shutdowns g))) ++ [ShutReturn]
      else [])
  ++ map TaskReturn (seq 0 (List.length (group g))).

(** ** Sequences of calls, read as a whole *)

Definition is_setter (c : call) : bool :=
  match c with
  | CallSetCancelOnError _ => true
  | CallSetMaxShutdownTime _ => true
  | CallSetMaxShutdownProcess _ => true
  | _ => false
  end.

(** The three settings of an orchestrator. *)
Definition settings (g : Graceful) : Duration * Z * bool :=
  (maxShutdownTime g, maxShutdownProcess g, cancelOnError g).

(** The hook registrations of a sequence of calls that register something:
    tag and function, in the order of the calls. *)
Fixpoint hook_registrations (cs : list call) : list (string * Process) :=
  match cs with
  | [] => []
  | CallRegisterShutdownProcess (Some p) :: rest =>
      (EmptyString, p) :: hook_registrations rest
  | CallRegisterShutdownProcessWithTag (Some p) t :: rest =>
      (t, p) :: hook_registrations rest
  | _ :: rest => hook_registrations rest
  end.

(** The functions the sequence hands to [g.group.Go], in order. *)
Fixpoint task_registrations (cs : list call) : list Task :=
  match cs with
  | [] => []
  | CallRegisterProcess (Some p) :: rest =>
      (fun _ => p tt) :: task_registrations rest
  | CallRegisterProcessWithContext (Some p) :: rest =>
      (fun groupCtx => p groupCtx) :: task_registrations rest
  | _ :: rest => task_registrations rest
  end.

(** The source of identifiers after [k] draws. *)
Definition after_draws (k : nat) (r : uuid.Rand) : uuid.Rand :=
  fun n => r (k + n).

(** The hooks [newShutdown] builds for the registrations, the first one
    with the [k]-th identifier of the source. *)
Fixpoint build_hooks (r : uuid.Rand) (k : nat)
  (regs : list (string * Process)) : list shutdown :=
  match regs with
  | [] => []
  | (t, p) :: rest =>
      fst (fst (newShutdown t p (after_draws k r)))
      :: build_hooks r (S k) rest
  end.

(** [x] is a failure that a registered task returns. *)
Definition task_failure (g : Graceful) (x : err) : Prop :=
  exists k f c, nth_error (group g) k = Some f /\ f c = Some x.


(** Where the error of the task group can come from: a registered task's
    failure, or what [shutdown] can return. *)
Definition Wait_error_origin (g : Graceful) (x : err) : Prop :=
  task_failure g x \/
  x = DeadlineExceeded \/
  (cancelOnError g = true /\ hook_failure g x).

(** What holds in every state of a run of [Wait]: the error of the task
    group has one of the origins above, the shutdown call (if entered) is in
    a state it can reach from its start, and the goroutine of [Wait] has
    got through only when the context of the group was done. *)
Definition Wait_inv (g : Graceful) (w : wstate) : Prop :=
  (forall x, errgroup.first (wgroup w) = Some x -> Wait_error_origin g x) /\
  (forall s, waiter w = InShutdown s ->
             exists tr, shutdown_run g shutdown_start tr = Some s) /\
  (waiter w <> Blocked -> done (errgroup.ctx (wgroup w)) = true).

(** The steps a goroutine of a [shutdown] call still has before it: a
    waiting unit whose function runs has the function's return and its own
    to come, one whose function has returned only its own; a function left
    behind has its return to come. *)
Definition steps_of_unit (p : pstat) : nat :=
  match p with Running => 2 | Sending _ => 1 end.

Definition steps_of_leaked (p : pstat) : nat :=
  match p with Running => 1 | Sending _ => 0 end.

Definition total (f : pstat -> nat) (l : list (nat * pstat)) : nat :=
  list_sum (map (fun x => f (snd x)) l).

(** All that can still happen in the call, the passing of time apart:
    three steps for each hook not yet admitted, the steps of the
    goroutines, and the firing of the timer. *)
Definition work_left (g : Graceful) (st : sstate) : nat :=
  3 * (List.length (shutdowns g) - next st)
  + total steps_of_unit (units st)
  + total steps_of_leaked (leaked st)
  + (if timerFired st then 0 else 1).

Definition is_elapse (ev : sevent) : bool :=
  match ev with Elapse _ => true | _ => false end.

(** The events of a run other than the passing of time. *)
Definition activity (tr : list sevent) : nat :=
  List.length (filter (fun ev => negb (is_elapse ev)) tr).

(** ** The revision of graceful.go with tags and functions in two slices

    In this revision the registry is a pair of slices filled side by side, a
    hook that was registered without a tag is named after its position, and
    the goroutine of a hook calls the hook's function itself instead of
    racing it against the deadline. *)

Module Indexed.

Record Graceful : Type := mkGraceful {
  signalCtx : SignalCtx;
  group : list Task;
  shutdownProcess : list Process;
  shutdownTags : list string;
  maxShutdownTime : Duration;
  maxShutdownProcess : Z;
  cancelOnError : bool
}.

Definition NewContext (ctx : Parent) (signals : list Signal) : Graceful :=
  let signals' :=
    if Nat.eqb (List.length signals) 0 then defaultSignals else signals in
  {| signalCtx := mkSignalCtx ctx signals';
     group := [];
     shutdownProcess := [];
     shutdownTags := [];
     maxShutdownTime := defaultMaxShutdownTime;
     maxShutdownProcess := defaultMaxShutdownProcess;
     cancelOnError := false |}.

Definition New : Graceful := NewContext Background defaultSignals.

Definition SetCancelOnError (value : bool) (g : Graceful) : Graceful :=
  {| signalCtx := signalCtx g; group := group g;
     shutdownProcess := shutdownProcess g; shutdownTags := shutdownTags g;
     maxShutdownTime := maxShutdownTime g;
     maxShutdownProcess := maxShutdownProcess g;
     cancelOnError := value |}.

Definition SetMaxShutdownTime (duration : Duration) (g : Graceful) : Graceful :=
  let d := if (duration <? 1)%Z then defaultMaxShutdownTime else duration in
  {| signalCtx := signalCtx g; group := group g;
     shutdownProcess := shutdownProcess g; shutdownTags := shutdownTags g;
     maxShutdownTime := d;
     maxShutdownProcess := maxShutdownProcess g;
     cancelOnError := cancelOnError g |}.

Definition SetMaxShutdownProcess (max : Z) (g : Graceful) : Graceful :=
  let m := if (max <? 1)%Z then defaultMaxShutdownProcess else max in
  {| signalCtx := signalCtx g; group := group g;
     shutdownProcess := shutdownProcess g; shutdownTags := shutdownTags g;
     maxShutdownTime := maxShutdownTime g;
     maxShutdownProcess := m;
     cancelOnError := cancelOnError g |}.

Definition RegisterProcess (process0 : option (unit -> error)) (g : Graceful)
  : Graceful :=
  match process0 with
  | None => g
  | Some p =>
      {| signalCtx := signalCtx g; group := group g ++ [fun _ => p tt];
         shutdownProcess := shutdownProcess g;
         shutdownTags := shutdownTags g;
         maxShutdownTime := maxShutdownTime g;
         maxShutdownProcess := maxShutdownProcess g;
         cancelOnError := cancelOnError g |}
  end.

Definition RegisterShutdownProcessWithTag
  (process0 : option Process) (tag0 : string) (g : Graceful) : Graceful :=
  match process0 with
  | None => g
  | Some p =>
      {| signalCtx := signalCtx g; group := group g;
         shutdownProcess := shutdownProcess g ++ [p];
         shutdownTags := shutdownTags g ++ [tag0];
         maxShutdownTime := maxShutdownTime g;
         maxShutdownProcess := maxShutdownProcess g;
         cancelOnError := cancelOnError g |}
  end.

Definition RegisterShutdownProcess (process0 : option Process) (g : Graceful)
  : Graceful :=
  RegisterShutdownProcessWithTag process0 EmptyString g.

(** [fmt.Sprintf("process %d", i)] for an index. *)
Definition positional (i : nat) : string :=
  ("process " ++ NilEmpty.string_of_uint (Nat.to_uint i))%string.

(** [createTag]; [None] is the panic of [g.shutdownTags[i]] on an index out
    of range. *)
Definition createTag (g : Graceful) (i : nat) : option string :=
  match nth_error (shutdownTags g) i with
  | None => None
  | Some tag0 =>
      Some (if String.eqb tag0 EmptyString then positional i else tag0)
  end.

Inductive call : Type :=
| CallSetCancelOnError (value : bool)
| CallSetMaxShutdownTime (duration : Duration)
| CallSetMaxShutdownProcess (max : Z)
| CallRegisterProcess (p : option (unit -> error))
| CallRegisterShutdownProcess (p : option Process)
| CallRegisterShutdownProcessWithTag (p : option Process) (tag0 : string).

Definition do_call (g : Graceful) (c : call) : Graceful :=
  match c with
  | CallSetCancelOnError v => SetCancelOnError v g
  | CallSetMaxShutdownTime d => SetMaxShutdownTime d g
  | CallSetMaxShutdownProcess m => SetMaxShutdownProcess m g
  | CallRegisterProcess p => RegisterProcess p g
  | CallRegisterShutdownProcess p => RegisterShutdownProcess p g
  | CallRegisterShutdownProcessWithTag p t =>
      RegisterShutdownProcessWithTag p t g
  end.

Definition do_calls (cs : list call) (g : Graceful) : Graceful :=
  fold_left do_call cs g.

(** The state of one call of [shutdown]: the timer and the time, the group
    with its context, how far the loop has come, the hooks whose goroutine
    is inside the hook's function, what each goroutine returned, and the
    lines logged. *)
Record sstate : Type := mkS {
  timerFired : bool;
  elapsed : Duration;
  sgroup : errgroup.Group;
  next : nat;
  units : list nat;
  returned : list (nat * error);
  logs : list LogEntry
}.

Inductive sevent : Type :=
| Admit                  (* shutdownGroup.Go gets a slot for the next hook *)
| UnitReturn (i : nat)   (* the function of hook i returns to its goroutine *)
| Deadline               (* the timer of shutdownCtx fires *)
| Elapse (d : Duration). (* time passes *)

Definition shutdown_start : sstate :=
  {| timerFired := false;
     elapsed := 0%Z;
     sgroup := errgroup.WithContext live;
     next := 0;
     units := [];
     returned := [];
     logs := [] |}.

Definition log_outcome (tag0 : string) (e : error) : LogEntry :=
  match e with
  | Some x => LogError "tag" tag0 x
  | None => LogInfo "tag" tag0 "shutdown success"
  end.

Fixpoint remove_first (i : nat) (l : list nat) : list nat :=
  match l with
  | [] => []
  | j :: rest => if Nat.eqb i j then rest else j :: remove_first i rest
  end.

Definition shutdown_step (g : Graceful) (st : sstate) (ev : sevent)
  : option sstate :=
  match ev with
  | Admit =>
      match nth_error (shutdownProcess g) (next st) with
      | None => None
      | Some _ =>
          if errgroup.hasSlot (maxShutdownProcess g) (List.length (units st))
          then Some {| timerFired := timerFired st;
                       elapsed := elapsed st;
                       sgroup := sgroup st;
                       next := S (next st);
                       units := units st ++ [next st];
                       returned := returned st;
                       logs := logs st |}
          else None
      end
  | UnitReturn i =>
      if existsb (Nat.eqb i) (units st) then
        match createTag g i, nth_error (shutdownProcess g) i with
        | Some tag0, Some p =>
            let e := p (errgroup.ctx (sgroup st)) in
            let r := if cancelOnError g then e else None in
            Some {| timerFired := timerFired st;
                    elapsed := elapsed st;
                    sgroup := errgroup.finish r (sgroup st);
                    next := next st;
                    units := remove_first i (units st);
                    returned := returned st ++ [(i, r)];
                    logs := logs st ++ [log_outcome tag0 e] |}
        | _, _ => None
        end
      else None
  | Deadline =>
      if timerFired st || (elapsed st <? maxShutdownTime g)%Z then None
      else Some {| timerFired := true;
                   elapsed := elapsed st;
                   sgroup := errgroup.mkGroup
                               (errgroup.first (sgroup st))
                               (expire (errgroup.ctx (sgroup st)));
                   next := next st;
                   units := units st;
                   returned := returned st;
                   logs := logs st |}
  | Elapse d =>
      if (d <? 0)%Z then None
      else Some {| timerFired := timerFired st;
                   elapsed := (elapsed st + d)%Z;
                   sgroup := sgroup st;
                   next := next st;
                   units := units st;
                   returned := returned st;
                   logs := logs st |}
  end.

Fixpoint shutdown_run (g : Graceful) (st : sstate) (tr : list sevent)
  : option sstate :=
  match tr with
  | [] => Some st
  | ev :: rest =>
      match shutdown_step g st ev with
      | Some st' => shutdown_run g st' rest
      | None => None
      end
  end.

Definition shutdown_over (g : Graceful) (st : sstate) : bool :=
  Nat.eqb (next st) (List.length (shutdownProcess g)) &&
  Nat.eqb (List.length (units st)) 0.

Definition shutdown_result (g : Graceful) (st : sstate) : option error :=
  if shutdown_over g st then Some (errgroup.first (sgroup st)) else None.

(** [x] is a failure that a registered hook's function returns. *)
Definition hook_failure (g : Graceful) (x : err) : Prop :=
  exists j p c, nth_error (shutdownProcess g) j = Some p /\ p c = Some x.

(** The hooks a sequence of calls registers, with the tags passed: the
    registrations of a function that is not nil, in order. *)
Definition registrations (cs : list call) : list (string * Process) :=
  flat_map (fun c =>
              match c with
              | CallRegisterShutdownProcess (Some p) => [(EmptyString, p)]
              | CallRegisterShutdownProcessWithTag (Some p) t => [(t, p)]
              | _ => []
              end) cs.

(** [l] is the line that the goroutine of hook [i] logs when the hook's
    function returns, and [r] what the goroutine then returns. *)
Definition logged (g : Graceful) (ir : nat * error) (l : LogEntry) : Prop :=
  exists tag0 p c,
    createTag g (fst ir) = Some tag0 /\
    nth_error (shutdownProcess g) (fst ir) = Some p /\
    l = log_outcome tag0 (p c) /\
    snd ir = (if cancelOnError g then p c else None).

Definition shutdown_inv (g : Graceful) (st : sstate) : Prop :=
  next st <= List.length (shutdownProcess g) /\
  Permutation (units st ++ map fst (returned st)) (seq 0 (next st)) /\
  Forall2 (logged g) (returned st) (logs st) /\
  (errgroup.first (sgroup st) = None \/
   cancelOnError g = true /\
   exists x, errgroup.first (sgroup st) = Some x /\ hook_failure g x) /\
  (ctxErr (errgroup.ctx (sgroup st)) = Some DeadlineExceeded ->
   timerFired st = true).

End Indexed.

(** ** A small orchestrator to run the definitions on *)

Module Demo.

Definition rand : uuid.Rand :=
  fun n => repeat x00 15 ++
           [match Byte.of_nat n with Some b => b | None => xff end].

Definition succeed : Process := fun _ => None.
Definition boom : Process := fun _ => Some (errorString "boom"%string).
Definition task : unit -> error := fun _ => None.

(** [New()], one task, hook "A" that fails and an untagged hook that
    succeeds. *)
Definition calls : list call :=
  [ CallRegisterProcess (Some task);
    CallRegisterShutdownProcessWithTag (Some boom) "A"%string;
    CallRegisterShutdownProcess (Some succeed) ].

Definition lenient : Graceful := fst (do_calls calls (New [], rand)).
Definition strict : Graceful := SetCancelOnError true lenient.
Definition bare : Graceful := RegisterProcess (Some task) (New []).

(** A single task that fails, as a server that cannot listen does. *)
Definition failing : Graceful :=
  RegisterProcess (Some (fun _ => Some (errorString "listen"%string)))
                  (New []).

(** The same two hooks, one slot. *)
Definition narrow_calls : list call :=
  calls ++ [CallSetMaxShutdownProcess 1%Z].
Definition narrow : Graceful := fst (do_calls narrow_calls (New [], rand)).

(** Both functions return in time, and the timer fires before the unit of
    hook 0 has taken what its function sent. *)
Definition raced : list sevent :=
  [ Admit; Admit; ProcReturn 0; ProcReturn 1;
    Elapse (10 * Second)%Z; Deadline; SelectDone 0; SelectErr 1 ].

(** The revision with two slices: the same two hooks, one slot. *)
Definition indexed_calls : list Indexed.call :=
  [ Indexed.CallRegisterShutdownProcessWithTag (Some boom) "A"%string;
    Indexed.CallRegisterShutdownProcess None;
    Indexed.CallRegisterShutdownProcess (Some succeed);
    Indexed.CallSetMaxShutdownProcess 1%Z ].
Definition indexed : Indexed.Graceful :=
  Indexed.do_calls indexed_calls Indexed.New.
Definition indexed_strict : Indexed.Graceful :=
  Indexed.SetCancelOnError true indexed.

End Demo.

(** * Properties *)

(** ** Registrations and configuration *)

Lemma hasSlot_empty (g : Graceful) :
  configured g -> errgroup.hasSlot (maxShutdownProcess g) 0 = true.
Proof.
  intros [Hcap _]. unfold errgroup.hasSlot.
  destruct (Z.ltb_spec (Z.of_nat 0) (maxShutdownProcess g)); [|simpl in *; lia].
  apply orb_true_r.
Qed.

(** A call only ever appends to the registry. *)
Lemma do_call_registry (c : call) (g : Graceful) (r : uuid.Rand) :
  exists added, shutdowns (fst (do_call c (g, r))) = shutdowns g ++ added.
Proof.
  destruct c as [v|d|m|[p|]|[p|]|[p|]|[p|] t]; simpl;
    try (exists []; rewrite app_nil_r; reflexivity);
    eexists; reflexivity.
Qed.

Lemma do_calls_registry (cs : list call) :
  forall g r,
    exists added, shutdowns (fst (do_calls cs (g, r))) = shutdowns g ++ added.
Proof.
  induction cs as [|c cs IH]; intros g r.
  - exists []. simpl. now rewrite app_nil_r.
  - change (do_calls (c :: cs) (g, r)) with (do_calls cs (do_call c (g, r))).
    destruct (do_call_registry c g r) as [a1 H1].
    destruct (do_call c (g, r)) as [g1 r1] eqn:E. simpl in H1.
    destruct (IH g1 r1) as [a2 H2].
    exists (a1 ++ a2). now rewrite H2, H1, app_assoc.
Qed.

Lemma New_configured (ctx : Parent) (signals : list Signal) :
  configured (NewWithContext ctx signals).
Proof. split; vm_compute; discriminate. Qed.

Lemma do_call_configured (c : call) (g : Graceful) (r : uuid.Rand) :
  configured g -> configured (fst (do_call c (g, r))).
Proof.
  intros [Hp Ht].
  destruct c as [v|d|m|[p|]|[p|]|[p|]|[p|] t]; simpl; split; simpl; auto.
  - destruct (Z.ltb_spec d 1); [vm_compute; discriminate | assumption].
  - destruct (Z.ltb_spec m 1); [vm_compute; discriminate | assumption].
Qed.

Lemma do_calls_configured (cs : list call) :
  forall g r, configured g -> configured (fst (do_calls cs (g, r))).
Proof.
  induction cs as [|c cs IH]; intros g r Hg; [exact Hg|].
  change (do_calls (c :: cs) (g, r)) with (do_calls cs (do_call c (g, r))).
  pose proof (do_call_configured c g r Hg) as H1.
  destruct (do_call c (g, r)) as [g1 r1]. now apply IH.
Qed.

(** C4. [SetMaxShutdownTime] stores a positive duration as given and ten
    seconds in place of any other; [SetMaxShutdownProcess] stores a count of
    at least one as given and five in place of any other.  Both are total
    functions that touch no other field. *)
Theorem setters_fall_back_to_defaults (g : Graceful) :
  (forall d : Duration, (d <= 0)%Z ->
     maxShutdownTime (SetMaxShutdownTime d g) = (10 * Second)%Z) /\
  (forall d : Duration, (0 < d)%Z ->
     maxShutdownTime (SetMaxShutdownTime d g) = d) /\
  (forall n : Z, (n <= 0)%Z ->
     maxShutdownProcess (SetMaxShutdownProcess n g) = 5%Z) /\
  (forall n : Z, (1 <= n)%Z ->
     maxShutdownProcess (SetMaxShutdownProcess n g) = n) /\
  (forall d : Duration,
     SetMaxShutdownTime d g =
     mkGraceful (signalCtx g) (group g) (shutdowns g)
                (maxShutdownTime (SetMaxShutdownTime d g))
                (maxShutdownProcess g) (cancelOnError g)) /\
  (forall n : Z,
     SetMaxShutdownProcess n g =
     mkGraceful (signalCtx g) (group g) (shutdowns g)
                (maxShutdownTime g)
                (maxShutdownProcess (SetMaxShutdownProcess n g))
                (cancelOnError g)).
Proof.
  repeat split; intros; simpl.
  - destruct (Z.ltb_spec d 1); [reflexivity | lia].
  - destruct (Z.ltb_spec d 1); [lia | reflexivity].
  - destruct (Z.ltb_spec n 1); [reflexivity | lia].
  - destruct (Z.ltb_spec n 1); [lia | reflexivity].
Qed.

Lemma setters_fall_back_to_defaults_witness :
  maxShutdownTime (SetMaxShutdownTime 0%Z Demo.lenient) = 10000000000%Z /\
  maxShutdownTime (SetMaxShutdownTime Second Demo.lenient) = 1000000000%Z /\
  maxShutdownProcess (SetMaxShutdownProcess (-3)%Z Demo.lenient) = 5%Z /\
  maxShutdownProcess (SetMaxShutdownProcess 1%Z Demo.lenient) = 1%Z.
Proof.
  destruct (setters_fall_back_to_defaults Demo.lenient)
    as (H1 & H2 & H3 & H4 & _).
  split; [apply (H1 0%Z); lia|].
  split; [apply (H2 Second); reflexivity|].
  split; [apply (H3 (-3)%Z); lia|].
  apply (H4 1%Z); lia.
Defined.

(** C5. Registering the nil function changes nothing: the orchestrator is
    the same record (same task group, same registry), no identifier is
    drawn, and the hook variants return the empty string. *)
Theorem nil_registration_is_noop (g : Graceful) (r : uuid.Rand) (t : string) :
  RegisterProcess None g = g /\
  RegisterProcessWithContext None g = g /\
  RegisterShutdownProcess None g r = ((EmptyString, g), r) /\
  RegisterShutdownProcessWithTag None t g r = ((EmptyString, g), r) /\
  Wait_start (RegisterProcess None g) = Wait_start g /\
  Wait_start (RegisterProcessWithContext None g) = Wait_start g /\
  List.length
    (shutdowns (snd (fst (RegisterShutdownProcessWithTag None t g r)))) =
  List.length (shutdowns g).
Proof. repeat split. Qed.

(** C7. A fresh orchestrator has the ten seconds, the cap of five, the
    policy off, an empty registry and no task; it listens to the default
    signals when given none and to the given ones otherwise.  [New] is
    [NewWithContext] on the background context. *)
Theorem fresh_orchestrator_defaults (ctx : Parent) (signals : list Signal) :
  let g := NewWithContext ctx signals in
  maxShutdownTime g = (10 * Second)%Z /\
  maxShutdownProcess g = 5%Z /\
  cancelOnError g = false /\
  shutdowns g = [] /\
  group g = [] /\
  (signals = [] ->
   notify (signalCtx g) =
   [os.Interrupt; syscall.SIGINT; syscall.SIGTERM; syscall.SIGHUP]) /\
  (signals <> [] -> notify (signalCtx g) = signals) /\
  New signals = NewWithContext Background signals.
Proof.
  simpl. repeat split.
  - intros ->. reflexivity.
  - intros Hne. destruct signals as [|s rest]; [congruence | reflexivity].
Qed.

Lemma fresh_orchestrator_defaults_witness :
  notify (signalCtx (NewWithContext Background [])) = [2; 2; 15; 1]%Z /\
  notify (signalCtx (NewWithContext Cancellable [15%Z])) = [15%Z].
Proof.
  split.
  - apply (fresh_orchestrator_defaults Background []). reflexivity.
  - apply (fresh_orchestrator_defaults Cancellable [15%Z]). discriminate.
Defined.

(** C8. The hook built by a registration carries the identifier drawn for
    it and the given function; its tag is the identifier's string form when
    the caller gave the empty tag and the caller's tag otherwise.  The entry
    it occupies in the registry reads the same after any further calls of
    the public surface; a run ([shutdown_step], [Wait_step]) only reads the
    registry. *)
Theorem hook_tag_defaults_to_id
  (tag0 : string) (p : Process) (r : uuid.Rand) (g : Graceful)
  (cs : list call) :
  let s := fst (fst (newShutdown tag0 p r)) in
  let i := snd (fst (newShutdown tag0 p r)) in
  let w := RegisterShutdownProcessWithTag (Some p) tag0 g r in
  i = fst (uuid.New r) /\
  id s = i /\
  process s = p /\
  (tag0 = EmptyString -> tag s = uuid.String i) /\
  (tag0 <> EmptyString -> tag s = tag0) /\
  nth_error (shutdowns (snd (fst w))) (List.length (shutdowns g)) = Some s /\
  nth_error (shutdowns (fst (do_calls cs (snd (fst w), snd w))))
            (List.length (shutdowns g)) = Some s.
Proof.
  simpl. repeat split.
  - intros ->. reflexivity.
  - intros Hne. destruct (String.eqb_spec tag0 EmptyString); congruence.
  - rewrite nth_error_app2, Nat.sub_diag; [reflexivity | lia].
  - match goal with
    | |- context [do_calls cs (?g1, ?r1)] =>
        destruct (do_calls_registry cs g1 r1) as [added Hadd]; rewrite Hadd
    end.
    simpl. rewrite <- app_assoc. rewrite nth_error_app2, Nat.sub_diag;
      [reflexivity | lia].
Qed.

Lemma hook_tag_defaults_to_id_witness :
  tag (fst (fst (newShutdown EmptyString Demo.succeed Demo.rand))) =
  "00000000-0000-0000-0000-000000000000"%string /\
  tag (fst (fst (newShutdown "db"%string Demo.succeed Demo.rand))) =
  "db"%string.
Proof.
  split.
  - apply (hook_tag_defaults_to_id EmptyString Demo.succeed Demo.rand
             Demo.bare []). reflexivity.
  - apply (hook_tag_defaults_to_id "db"%string Demo.succeed Demo.rand
             Demo.bare []). discriminate.
Defined.

(** C10. Registering a non-nil function appends exactly one hook: the
    registry is the old one followed by the new hook, every old entry keeps
    its place, the new hook holds the given function, the string returned is
    the string form of the new hook's identifier, and nothing else in the
    orchestrator changes. *)
Theorem registration_appends_one_hook
  (g : Graceful) (r : uuid.Rand) (p : Process) (tag0 : string) :
  let w := RegisterShutdownProcessWithTag (Some p) tag0 g r in
  let g' := snd (fst w) in
  exists s : shutdown,
    shutdowns g' = shutdowns g ++ [s] /\
    List.length (shutdowns g') = S (List.length (shutdowns g)) /\
    (forall k, k < List.length (shutdowns g) ->
               nth_error (shutdowns g') k = nth_error (shutdowns g) k) /\
    nth_error (shutdowns g') (List.length (shutdowns g)) = Some s /\
    process s = p /\
    fst (fst w) = uuid.String (id s) /\
    group g' = group g /\
    signalCtx g' = signalCtx g /\
    maxShutdownTime g' = maxShutdownTime g /\
    maxShutdownProcess g' = maxShutdownProcess g /\
    cancelOnError g' = cancelOnError g.
Proof.
  simpl. eexists. split; [reflexivity|].
  split; [rewrite length_app; simpl; lia|].
  split; [intros k Hk; now rewrite nth_error_app1|].
  split; [rewrite nth_error_app2, Nat.sub_diag; [reflexivity | lia]|].
  repeat split.
Qed.

Lemma registration_appends_one_hook_witness :
  nth_error
    (shutdowns
       (snd (fst (RegisterShutdownProcessWithTag
                    (Some Demo.succeed) "db"%string Demo.lenient Demo.rand))))
    0 =
  nth_error (shutdowns Demo.lenient) 0.
Proof.
  destruct (registration_appends_one_hook
              Demo.lenient Demo.rand Demo.succeed "db"%string)
    as (s & _ & _ & Hold & _).
  apply (Hold 0). vm_compute. lia.
Defined.

(** ** Runs of [shutdown] *)

Lemma shutdown_run_app (g : Graceful) (tr1 tr2 : list sevent) :
  forall st,
    shutdown_run g st (tr1 ++ tr2) =
    match shutdown_run g st tr1 with
    | Some st' => shutdown_run g st' tr2
    | None => None
    end.
Proof.
  induction tr1 as [|ev tr1 IH]; intros st; simpl; [reflexivity|].
  destruct (shutdown_step g st ev); [apply IH | reflexivity].
Qed.

(** A property kept by every step holds all along a run. *)
Lemma shutdown_run_invariant (g : Graceful) (P : sstate -> Prop) :
  (forall st ev st', P st -> shutdown_step g st ev = Some st' -> P st') ->
  forall tr st st', P st -> shutdown_run g st tr = Some st' -> P st'.
Proof.
  intros Hstep tr. induction tr as [|ev tr IH]; intros st st' HP Hrun.
  - simpl in Hrun. now inversion Hrun; subst.
  - simpl in Hrun. destruct (shutdown_step g st ev) as [st1|] eqn:E;
      [|discriminate].
    eapply IH; [eapply Hstep; eassumption | exact Hrun].
Qed.

(** Case analysis of one step: every branch that yields a state, with the
    tests that led to it. *)
Ltac step_cases H :=
  unfold shutdown_step in H;
  repeat match type of H with
         | context [match ?x with _ => _ end] => destruct x eqn:?
         end;
  try discriminate H;
  inversion H; subst; clear H; simpl in *.

Lemma length_update {A : Type} (i : nat) (v : A) (l : list (nat * A)) :
  List.length (update i v l) = List.length l.
Proof.
  induction l as [|[j a] l IH]; simpl; [reflexivity|].
  destruct (Nat.eqb i j); simpl; congruence.
Qed.

Lemma length_remove_key_le {A : Type} (i : nat) (l : list (nat * A)) :
  List.length (remove_key i l) <= List.length l.
Proof.
  induction l as [|[j a] l IH]; simpl; [lia|].
  destruct (Nat.eqb i j); simpl; lia.
Qed.

Lemma length_remove_key {A : Type} (i : nat) (l : list (nat * A)) (a : A) :
  lookup i l = Some a -> S (List.length (remove_key i l)) = List.length l.
Proof.
  induction l as [|[j b] l IH]; simpl; [discriminate|].
  destruct (Nat.eqb i j); simpl; [reflexivity|].
  intros H. now rewrite IH.
Qed.

(** The units never outnumber a non-negative limit. *)
Lemma units_within_limit (g : Graceful) (tr : list sevent) (st : sstate) :
  (0 <= maxShutdownProcess g)%Z ->
  shutdown_run g shutdown_start tr = Some st ->
  (Z.of_nat (List.length (units st)) <= maxShutdownProcess g)%Z.
Proof.
  intros Hcap Hrun.
  apply (shutdown_run_invariant g
           (fun s => (Z.of_nat (List.length (units s))
                      <= maxShutdownProcess g)%Z))
    with (tr := tr) (st := shutdown_start); [| simpl; lia | exact Hrun].
  clear tr st Hrun. intros st ev st' IH Hstep.
  destruct ev; step_cases Hstep;
    rewrite ?length_app, ?length_update; simpl;
    try (pose proof (length_remove_key_le i (units st))); try lia.
  unfold errgroup.hasSlot in *.
  match goal with
  | Hs : (_ || _)%bool = true |- _ =>
      apply orb_true_iff in Hs; destruct Hs as [Hs|Hs];
      apply Z.ltb_lt in Hs; lia
  end.
Qed.

(** C9. In every state a run of [shutdown] can reach, for an orchestrator
    built through the public surface, the units holding a slot are at most
    [maxShutdownProcess]; while they are that many, the loop cannot admit
    the next hook, and as soon as they are fewer and a hook is left, it
    can. *)
Theorem at_most_cap_units_at_once
  (ctx : Parent) (signals : list Signal) (cs : list call) (r : uuid.Rand)
  (tr : list sevent) (st : sstate) :
  let g := fst (do_calls cs (NewWithContext ctx signals, r)) in
  shutdown_run g shutdown_start tr = Some st ->
  (Z.of_nat (List.length (units st)) <= maxShutdownProcess g)%Z /\
  (Z.of_nat (List.length (units st)) = maxShutdownProcess g ->
   shutdown_step g st Admit = None) /\
  ((Z.of_nat (List.length (units st)) < maxShutdownProcess g)%Z ->
   next st < List.length (shutdowns g) ->
   exists st', shutdown_step g st Admit = Some st' /\
               List.length (units st') = S (List.length (units st)) /\
               next st' = S (next st)).
Proof.
  intros g Hrun.
  assert (Hc : configured g)
    by (apply do_calls_configured, New_configured).
  destruct Hc as [Hcap _].
  split; [apply units_within_limit with (tr := tr); [lia | exact Hrun]|].
  split.
  - intros Hfull. unfold shutdown_step.
    destruct (nth_error (shutdowns g) (next st)); [|reflexivity].
    unfold errgroup.hasSlot.
    destruct (Z.ltb_spec (maxShutdownProcess g) 0); [lia|].
    destruct (Z.ltb_spec (Z.of_nat (List.length (units st)))
                         (maxShutdownProcess g)); [lia | reflexivity].
  - intros Hfree Hleft. unfold shutdown_step.
    destruct (nth_error (shutdowns g) (next st)) eqn:E.
    + unfold errgroup.hasSlot.
      destruct (Z.ltb_spec (Z.of_nat (List.length (units st)))
                           (maxShutdownProcess g)); [|lia].
      rewrite orb_true_r. eexists. split; [reflexivity|]. simpl.
      rewrite length_app. simpl. split; [lia | reflexivity].
    + apply nth_error_None in E. lia.
Qed.

Lemma at_most_cap_units_at_once_witness :
  exists st,
    shutdown_run Demo.narrow shutdown_start [Admit] = Some st /\
    shutdown_step Demo.narrow st Admit = None.
Proof.
  eexists. split; [reflexivity|].
  apply (at_most_cap_units_at_once
           Background [] Demo.narrow_calls Demo.rand [Admit]);
    reflexivity.
Defined.

(** The slots bound the units, not the functions: a function whose unit was
    abandoned keeps running beside the next one admitted.  One slot, the
    deadline fires on hook 0, hook 1 is admitted. *)
Lemma functions_can_outnumber_slots :
  exists st,
    shutdown_run Demo.narrow shutdown_start
      [Admit; Elapse (10 * Second)%Z; Deadline; SelectDone 0; Admit] = Some st /\
    maxShutdownProcess Demo.narrow = 1%Z /\
    units st = [(1, Running)] /\
    leaked st = [(0, Running)].
Proof. eexists. repeat split; vm_compute; reflexivity. Qed.

(** Every hook admitted so far is waiting, was logged, or was left behind;
    every unit that is not waiting has returned. *)
Lemma shutdown_bookkeeping (g : Graceful) (tr : list sevent) (st : sstate) :
  shutdown_run g shutdown_start tr = Some st ->
  List.length (logs st) + List.length (units st) + List.length (leaked st)
  = next st /\
  List.length (returned st) + List.length (units st) = next st.
Proof.
  intros Hrun.
  apply (shutdown_run_invariant g
           (fun s =>
              List.length (logs s) + List.length (units s)
              + List.length (leaked s) = next s /\
              List.length (returned s) + List.length (units s) = next s))
    with (tr := tr) (st := shutdown_start); [| split; reflexivity | exact Hrun].
  clear tr st Hrun. intros st ev st' [IH1 IH2] Hstep.
  destruct ev; step_cases Hstep;
    rewrite ?length_app, ?length_update; simpl;
    try match goal with
        | Hl : lookup ?i (units st) = Some _ |- _ =>
            pose proof (length_remove_key i (units st) _ Hl)
        end;
    lia.
Qed.

(** Without the policy, and as long as no unit is abandoned, the group of
    the shutdown run keeps no error and nothing more is left behind. *)
Lemma lenient_run_keeps_nil (g : Graceful) :
  cancelOnError g = false ->
  forall tr st st',
    no_abandon tr ->
    errgroup.first (sgroup st) = None ->
    shutdown_run g st tr = Some st' ->
    errgroup.first (sgroup st') = None /\
    List.length (leaked st') = List.length (leaked st).
Proof.
  intros Hpol tr. induction tr as [|ev tr IH]; intros st st' Hna Hnil Hrun.
  - simpl in Hrun. inversion Hrun; subst. now split.
  - simpl in Hrun. destruct (shutdown_step g st ev) as [st1|] eqn:E;
      [|discriminate].
    assert (Hna' : no_abandon tr)
      by (intros i Hi; apply (Hna i); now right).
    assert (H1 : errgroup.first (sgroup st1) = None /\
                 List.length (leaked st1) = List.length (leaked st)).
    { destruct ev; try (exfalso; apply (Hna i); now left);
        step_cases E; try congruence;
        unfold errgroup.finish; rewrite ?Hnil, ?length_update; simpl; auto. }
    destruct H1 as [H1 H2].
    destruct (IH st1 st' Hna' H1 Hrun) as [H3 H4]. split; congruence.
Qed.

(** With a free slot to start from, the hooks can be run one after the
    other to the end of the registry. *)
Lemma one_by_one_runs (g : Graceful) :
  configured g ->
  forall count from st,
    from + count = List.length (shutdowns g) ->
    next st = from ->
    units st = [] ->
    exists st',
      shutdown_run g st (one_by_one from count) = Some st' /\
      next st' = from + count /\
      units st' = [] /\
      (cancelOnError g = false -> sgroup st' = sgroup st).
Proof.
  intros Hc count. induction count as [|count IH]; intros from st Hlen Hn Hu.
  - exists st. simpl. repeat split; auto. lia.
  - destruct (nth_error (shutdowns g) from) as [s|] eqn:Es;
      [|apply nth_error_None in Es; lia].
    unfold one_by_one. simpl seq. simpl flat_map.
    fold (one_by_one (S from) count).
    cbn [shutdown_run app].
    unfold shutdown_step at 1. rewrite Hn, Es, Hu. simpl List.length.
    rewrite (hasSlot_empty g Hc). simpl app.
    unfold shutdown_step at 1. cbn [units leaked lookup].
    rewrite Es, Nat.eqb_refl. cbn [update]. rewrite Nat.eqb_refl.
    unfold shutdown_step at 1. cbn [units lookup].
    rewrite Es, Nat.eqb_refl.
    match goal with
    | |- context [shutdown_run g ?s1 (one_by_one (S from) count)] =>
        destruct (IH (S from) s1) as (st' & Hrun & Hn' & Hu' & Hg');
        [lia | reflexivity | simpl; now rewrite Nat.eqb_refl |]
    end.
    exists st'. split; [exact Hrun|]. split; [lia|]. split; [exact Hu'|].
    intros Hpol. rewrite (Hg' Hpol). simpl. now rewrite Hpol.
Qed.

Lemma one_by_one_no_abandon (from count : nat) :
  no_abandon (one_by_one from count).
Proof.
  intros i Hin. unfold one_by_one in Hin. apply in_flat_map in Hin.
  destruct Hin as (j & _ & Hj). simpl in Hj.
  destruct Hj as [Hj|[Hj|[Hj|[]]]]; discriminate.
Qed.

(** ** Runs of [Wait] *)

Lemma Wait_run_invariant (g : Graceful) (P : wstate -> Prop) :
  (forall w ev w', P w -> Wait_step g w ev = Some w' -> P w') ->
  forall tr w w', P w -> Wait_run g w tr = Some w' -> P w'.
Proof.
  intros Hstep tr. induction tr as [|ev tr IH]; intros w w' HP Hrun.
  - simpl in Hrun. now inversion Hrun; subst.
  - simpl in Hrun. destruct (Wait_step g w ev) as [w1|] eqn:E;
      [|discriminate].
    eapply IH; [eapply Hstep; eassumption | exact Hrun].
Qed.

(** Case analysis of one step of [Wait]; a step of the shutdown call inside
    it is kept as an equation. *)
Ltac wait_cases H :=
  unfold Wait_step in H;
  repeat match type of H with
         | context [match shutdown_step ?g ?s ?e with _ => _ end] =>
             destruct (shutdown_step g s e) eqn:?
         | context [match ?x with _ => _ end] => destruct x eqn:?
         end;
  try discriminate H;
  inversion H; subst; clear H; simpl in *.

Lemma In_set_nth_keeps {A : Type} (x v : A) (l : list A) :
  forall k, In x l -> nth_error l k <> Some x -> In x (set_nth k v l).
Proof.
  induction l as [|a l IH]; intros k Hin Hk; [destruct Hin|].
  destruct k as [|k]; simpl in *.
  - destruct Hin as [->|Hin]; [congruence | now right].
  - destruct Hin as [->|Hin]; [now left | right; now apply IH].
Qed.

Lemma In_set_nth_new {A : Type} (v : A) (l : list A) :
  forall k a, nth_error l k = Some a -> In v (set_nth k v l).
Proof.
  induction l as [|b l IH]; intros k a Hk; destruct k; simpl in *;
    try discriminate.
  - now left.
  - right. eapply IH; eassumption.
Qed.

(** A task that has failed stays failed. *)
Lemma failed_task_stays (g : Graceful) (w w' : wstate) (ev : wevent) :
  Wait_step g w ev = Some w' ->
  (exists e, In (Some (Some e)) (tasks w)) ->
  exists e, In (Some (Some e)) (tasks w').
Proof.
  intros Hstep [e He]. exists e.
  destruct ev; wait_cases Hstep; auto.
  apply In_set_nth_keeps; [exact He|].
  unfold error in *. congruence.
Qed.

Lemma shutdown_result_first (g : Graceful) (s : sstate) (r : error) :
  shutdown_result g s = Some r -> r = errgroup.first (sgroup s).
Proof.
  unfold shutdown_result. destruct (shutdown_over g s); [|discriminate].
  intros H. now inversion H.
Qed.

Lemma Wait_result_first (w : wstate) (r : error) :
  Wait_result w = Some r -> r = errgroup.first (wgroup w).
Proof.
  unfold Wait_result. destruct (Wait_over w); [|discriminate].
  intros H. now inversion H.
Qed.

(** Without the policy, and as long as no unit is abandoned, a run of
    [Wait] stays quiet until a task fails. *)
Lemma lenient_Wait_keeps_nil (g : Graceful) :
  cancelOnError g = false ->
  forall tr w w',
    no_abandon_in_Wait tr ->
    (exists e, In (Some (Some e)) (tasks w)) \/ quiet w ->
    Wait_run g w tr = Some w' ->
    (exists e, In (Some (Some e)) (tasks w')) \/ quiet w'.
Proof.
  intros Hpol tr. induction tr as [|ev tr IH]; intros w w' Hna Hw Hrun.
  - simpl in Hrun. now inversion Hrun; subst.
  - simpl in Hrun. destruct (Wait_step g w ev) as [w1|] eqn:E;
      [|discriminate].
    assert (Hna' : no_abandon_in_Wait tr)
      by (intros i Hi; apply (Hna i); now right).
    apply (IH w1 w' Hna'); [|exact Hrun].
    destruct Hw as [Hfailed|[Hq1 Hq2]];
      [left; eapply failed_task_stays; eassumption|].
    destruct ev as [sg|e|k| |ev'|].
    + wait_cases E; right; split; simpl; assumption.
    + wait_cases E; right; split; simpl; assumption.
    + wait_cases E.
      match goal with
      | |- context [Some (?t ?c)] => destruct (t c) as [e|] eqn:Er
      end.
      * left. exists e. eapply In_set_nth_new. eassumption.
      * right. split; simpl; assumption.
    + wait_cases E; right; split; simpl; auto.
    + assert (Hev : forall i, ev' <> SelectDone i)
        by (intros i ->; apply (Hna i); now left).
      wait_cases E. right. split; simpl; [assumption|].
      apply (lenient_run_keeps_nil g Hpol [ev'] s s0).
      * intros i [Hi|[]]. now apply (Hev i).
      * assumption.
      * simpl. match goal with H : shutdown_step _ _ _ = _ |- _ =>
                                 now rewrite H end.
    + wait_cases E.
      match goal with
      | H : shutdown_result _ _ = Some _ |- _ =>
          apply shutdown_result_first in H; rewrite Hq2 in H; subst
      end.
      right. split; simpl; auto.
Qed.

Lemma Wait_run_app (g : Graceful) (tr1 tr2 : list wevent) :
  forall w,
    Wait_run g w (tr1 ++ tr2) =
    match Wait_run g w tr1 with
    | Some w' => Wait_run g w' tr2
    | None => None
    end.
Proof.
  induction tr1 as [|ev tr1 IH]; intros w; simpl; [reflexivity|].
  destruct (Wait_step g w ev); [apply IH | reflexivity].
Qed.

Lemma set_nth_middle {A : Type} (v a : A) (l1 l2 : list A) :
  set_nth (List.length l1) v (l1 ++ a :: l2) = l1 ++ v :: l2.
Proof. induction l1 as [|b l1 IH]; simpl; [reflexivity | now rewrite IH]. Qed.

Lemma repeat_snoc {A : Type} (a : A) (k : nat) :
  repeat a k ++ [a] = repeat a (S k).
Proof. induction k as [|k IH]; simpl; [reflexivity | now rewrite IH]. Qed.

Lemma map_const_repeat {A B : Type} (b : B) (l : list A) :
  map (fun _ => b) l = repeat b (List.length l).
Proof. induction l as [|a l IH]; simpl; [reflexivity | now rewrite IH]. Qed.

Lemma all_returned (k : nat) :
  forallb hasReturned (repeat (Some None) k) = true.
Proof. induction k as [|k IH]; simpl; [reflexivity | exact IH]. Qed.

(** Tasks that return nil can return one after the other without a trace
    in the group. *)
Lemma tasks_return_in_order (g : Graceful) :
  forall count from w,
    from + count = List.length (group g) ->
    tasks w = repeat (Some None) from ++ repeat None count ->
    (forall f, In f (group g) -> f (errgroup.ctx (wgroup w)) = None) ->
    exists w',
      Wait_run g w (map TaskReturn (seq from count)) = Some w' /\
      tasks w' = repeat (Some None) (from + count) /\
      wgroup w' = wgroup w /\
      waiter w' = waiter w.
Proof.
  intros count. induction count as [|count IH]; intros from w Hlen Ht Hnil.
  - exists w. simpl in *. rewrite Nat.add_0_r, app_nil_r in *.
    repeat split; auto.
  - destruct (nth_error (group g) from) as [f|] eqn:Ef;
      [|apply nth_error_None in Ef; lia].
    assert (Hk : nth_error (tasks w) from = Some None).
    { rewrite Ht, nth_error_app2; rewrite repeat_length; [|lia].
      now rewrite Nat.sub_diag. }
    assert (Hr : f (errgroup.ctx (wgroup w)) = None)
      by (apply Hnil; eapply nth_error_In; eassumption).
    simpl seq. simpl map. cbn [Wait_run].
    unfold Wait_step at 1. rewrite Ef, Hk, Hr.
    match goal with
    | |- context [Wait_run g ?w1 (map TaskReturn (seq (S from) count))] =>
        destruct (IH (S from) w1) as (w' & Hrun & Ht' & Hg' & Hw')
    end.
    + lia.
    + simpl. rewrite Ht. simpl repeat.
      rewrite <- (repeat_length (Some (@None err)) from) at 1.
      rewrite set_nth_middle.
      change (Some None :: repeat None count)
        with ([Some (@None err)] ++ repeat None count).
      now rewrite app_assoc, repeat_snoc.
    + simpl. exact Hnil.
    + exists w'. split; [exact Hrun|].
      split; [rewrite Ht'; f_equal; lia|]. split; assumption.
Qed.

(** A run of [shutdown] is a run of the [Wait] it belongs to. *)
Lemma Wait_lifts_shutdown (g : Graceful) (G : errgroup.Group)
  (ts : list (option error)) :
  forall tr s s',
    shutdown_run g s tr = Some s' ->
    Wait_run g (mkW G ts (InShutdown s)) (map Shut tr)
    = Some (mkW G ts (InShutdown s')).
Proof.
  intros tr. induction tr as [|ev tr IH]; intros s s' Hrun.
  - simpl in *. now inversion Hrun.
  - cbn [shutdown_run] in Hrun.
    destruct (shutdown_step g s ev) as [s1|] eqn:E; [|discriminate].
    cbn [map Wait_run]. unfold Wait_step. cbn [waiter]. rewrite E.
    cbn [wgroup tasks]. now apply IH.
Qed.

Lemma no_failure_in_nil_returns (k : nat) (e : err) :
  ~ In (Some (Some e)) (repeat (Some None) k).
Proof. intros Hin. apply repeat_spec in Hin. discriminate. Qed.

Lemma quiet_run_no_abandon (sg : Signal) (g : Graceful) :
  no_abandon_in_Wait (quiet_run sg g).
Proof.
  intros i Hin. unfold quiet_run in Hin.
  destruct Hin as [Hin|[Hin|Hin]]; try discriminate.
  apply in_app_or in Hin. destruct Hin as [Hin|Hin].
  - destruct (Nat.ltb 0 (List.length (shutdowns g))); [|destruct Hin].
    apply in_app_or in Hin. destruct Hin as [Hin|[Hin|[]]]; [|discriminate].
    apply in_map_iff in Hin. destruct Hin as (ev & Hev & Hin).
    inversion Hev; subst. exact (one_by_one_no_abandon _ _ i Hin).
  - apply in_map_iff in Hin. destruct Hin as (k & Hk & _). discriminate.
Qed.

(** For a configured orchestrator without the policy whose tasks return
    nil, the quiet run is a run and [Wait] returns nil at its end. *)
Lemma quiet_run_returns_nil (g : Graceful) (sg : Signal) :
  configured g ->
  cancelOnError g = false ->
  In sg (notify (signalCtx g)) ->
  (forall f c, In f (group g) -> f c = None) ->
  exists w,
    Wait_run g (Wait_start g) (quiet_run sg g) = Some w /\
    no_task_failed w /\
    Wait_result w = Some None.
Proof.
  intros Hc Hpol Hsg Hnil.
  assert (Hlisten : existsb (Z.eqb sg) (notify (signalCtx g)) = true)
    by (apply existsb_exists; exists sg; split; [exact Hsg | apply Z.eqb_refl]).
  assert (Hmid : exists G,
             Wait_run g (Wait_start g)
               (SignalArrives sg :: Wake
                :: (if Nat.ltb 0 (List.length (shutdowns g))
                    then map Shut (one_by_one 0 (List.length (shutdowns g)))
                         ++ [ShutReturn]
                    else []))
             = Some (mkW G (tasks (Wait_start g)) (Returned None)) /\
             errgroup.first G = None).
  { cbn [Wait_run]. unfold Wait_step at 1. rewrite Hlisten.
    unfold Wait_step at 1. cbn [waiter Wait_start wgroup tasks].
    match goal with
    | |- context [done ?c] => change (done c) with true
    end.
    cbv iota.
    destruct (Nat.ltb 0 (List.length (shutdowns g))).
    - destruct (one_by_one_runs g Hc (List.length (shutdowns g)) 0
                  shutdown_start eq_refl eq_refl eq_refl)
        as (st & Hrun & Hn & Hu & Hg).
      eexists. split.
      + rewrite Wait_run_app.
        rewrite (Wait_lifts_shutdown g _ _ _ _ _ Hrun).
        cbn [Wait_run]. unfold Wait_step. cbn [waiter].
        unfold shutdown_result, shutdown_over.
        rewrite Hn, Hu, Nat.eqb_refl, (Hg Hpol). simpl. reflexivity.
      + reflexivity.
    - eexists. split; reflexivity. }
  destruct Hmid as (G & Hmid & HG).
  destruct (tasks_return_in_order g (List.length (group g)) 0
              (mkW G (tasks (Wait_start g)) (Returned None)))
    as (w & Hrun & Ht & Hg & Hw).
  - reflexivity.
  - simpl. apply map_const_repeat.
  - intros f Hf. apply Hnil. exact Hf.
  - exists w. split; [|split].
    + unfold quiet_run.
      change (SignalArrives sg :: Wake :: ?l ++ ?t)
        with ((SignalArrives sg :: Wake :: l) ++ t).
      now rewrite Wait_run_app, Hmid.
    + intros e. rewrite Ht. apply no_failure_in_nil_returns.
    + unfold Wait_result, Wait_over. rewrite Ht, Hw, Hg. simpl.
      now rewrite all_returned, HG.
Qed.

(** Without the policy the context of the shutdown group ends only by the
    deadline: until it fires no unit can be abandoned. *)
Lemma lenient_no_deadline_no_abandon (g : Graceful) :
  cancelOnError g = false ->
  forall tr st st',
    ctxErr (errgroup.ctx (sgroup st)) = None ->
    ~ In Deadline tr ->
    shutdown_run g st tr = Some st' ->
    no_abandon tr.
Proof.
  intros Hpol tr. induction tr as [|ev tr IH]; intros st st' Hlive Hnd Hrun.
  - intros i [].
  - simpl in Hrun. destruct (shutdown_step g st ev) as [st1|] eqn:E;
      [|discriminate].
    assert (Hlive1 : ctxErr (errgroup.ctx (sgroup st1)) = None /\
                     forall i, ev <> SelectDone i).
    { destruct ev; try (exfalso; apply Hnd; now left);
        step_cases E; try congruence; (split; [assumption | discriminate]). }
    destruct Hlive1 as [Hlive1 Hev].
    assert (Hnd' : ~ In Deadline tr) by (intros Hin; apply Hnd; now right).
    intros i [Hi|Hi]; [exact (Hev i Hi)|].
    exact (IH st1 st' Hlive1 Hnd' Hrun i Hi).
Qed.

(** Closes [no_abandon tr] and [no_abandon_in_Wait tr] on a literal trace. *)
Ltac literal_trace :=
  let i := fresh "i" in
  let H := fresh "H" in
  intros i H; simpl in H;
  repeat (destruct H as [H|H]; [discriminate H|]);
  exact H.


(** ** What holds all along a shutdown run *)

Lemma done_cancel (cause : error) (c : Context) : done (cancel cause c) = true.
Proof.
  unfold cancel. destruct (done c) eqn:E; [exact E | reflexivity].
Qed.

Lemma done_expire (c : Context) : done (expire c) = true.
Proof.
  unfold expire. destruct (done c) eqn:E; [exact E | reflexivity].
Qed.

Lemma expire_done (c : Context) : done c = true -> expire c = c.
Proof. unfold expire. now intros ->. Qed.

(** The group of the shutdown run holds an error only once its context is
    done. *)
Lemma error_means_done (g : Graceful) (tr : list sevent) (st : sstate) :
  shutdown_run g shutdown_start tr = Some st ->
  errgroup.first (sgroup st) <> None ->
  done (errgroup.ctx (sgroup st)) = true.
Proof.
  intros Hrun.
  apply (shutdown_run_invariant g
           (fun s => errgroup.first (sgroup s) <> None ->
                     done (errgroup.ctx (sgroup s)) = true))
    with (tr := tr) (st := shutdown_start);
    [| simpl; congruence | exact Hrun].
  clear tr st Hrun. intros st ev st' IH Hstep.
  destruct ev; step_cases Hstep; auto using done_expire;
    unfold errgroup.finish;
    repeat match goal with
           | |- context [match ?x with _ => _ end] => destruct x eqn:?
           end; simpl; intros; auto using done_cancel;
    try (apply IH; unfold error in *; congruence).
Qed.

(** Once the group holds an error and its context is done, no step changes
    either. *)
Lemma failure_sticks (g : Graceful) :
  forall tr st st',
    errgroup.first (sgroup st) <> None ->
    done (errgroup.ctx (sgroup st)) = true ->
    shutdown_run g st tr = Some st' ->
    sgroup st' = sgroup st.
Proof.
  intros tr. induction tr as [|ev tr IH]; intros st st' Hf Hd Hrun.
  - simpl in Hrun. now inversion Hrun.
  - simpl in Hrun. destruct (shutdown_step g st ev) as [st1|] eqn:E;
      [|discriminate].
    assert (H1 : sgroup st1 = sgroup st).
    { destruct ev; step_cases E; auto;
        try (rewrite expire_done by assumption; now destruct (sgroup st));
        unfold errgroup.finish;
        destruct (errgroup.first (sgroup st)); try congruence;
        repeat match goal with
               | |- context [match ?x with _ => _ end] => destruct x
               end; reflexivity. }
    rewrite <- H1. apply IH; [congruence | congruence | exact Hrun].
Qed.

Lemma finish_keeps_error (r : error) (G : errgroup.Group) :
  errgroup.first G <> None \/ r <> None ->
  errgroup.first (errgroup.finish r G) <> None.
Proof.
  unfold errgroup.finish.
  destruct r, (errgroup.first G) eqn:E; simpl; intros [H|H];
    unfold error in *; congruence.
Qed.

(** An error held by the group is never dropped. *)
Lemma first_error_kept (g : Graceful) (st st' : sstate) (ev : sevent) :
  shutdown_step g st ev = Some st' ->
  errgroup.first (sgroup st) <> None ->
  errgroup.first (sgroup st') <> None.
Proof.
  intros Hstep Hf.
  destruct ev; step_cases Hstep; auto; apply finish_keeps_error; now left.
Qed.

Lemma lookup_In {A : Type} (i : nat) (v : A) (l : list (nat * A)) :
  lookup i l = Some v -> In (i, v) l.
Proof.
  induction l as [|[j a] l IH]; simpl; [discriminate|].
  destruct (Nat.eqb_spec i j).
  - intros H. inversion H; subst. now left.
  - intros H. right. now apply IH.
Qed.

Lemma In_update {A : Type} (x : nat * A) (i : nat) (v : A)
  (l : list (nat * A)) :
  In x (update i v l) -> x = (i, v) \/ In x l.
Proof.
  induction l as [|[j a] l IH]; simpl; [tauto|].
  destruct (Nat.eqb_spec i j).
  - subst. intros [H|H]; [now left | right; now right].
  - intros [H|H]; [right; now left|].
    destruct (IH H); [now left | right; now right].
Qed.

Lemma In_remove_key {A : Type} (x : nat * A) (i : nat) (l : list (nat * A)) :
  In x (remove_key i l) -> In x l.
Proof.
  induction l as [|[j a] l IH]; simpl; [tauto|].
  destruct (Nat.eqb i j).
  - intros H. now right.
  - intros [H|H]; [now left | right; now apply IH].
Qed.

Lemma first_finish_nil (G : errgroup.Group) :
  errgroup.finish None G = G.
Proof. reflexivity. Qed.

Lemma finish_first_set (r : error) (G : errgroup.Group) (x : err) :
  errgroup.first G = Some x -> errgroup.finish r G = G.
Proof. unfold errgroup.finish. intros ->. now destruct r. Qed.

Lemma finish_first_unset (x : err) (G : errgroup.Group) :
  errgroup.first G = None ->
  errgroup.finish (Some x) G =
  errgroup.mkGroup (Some x) (cancel (Some x) (errgroup.ctx G)).
Proof. unfold errgroup.finish. now intros ->. Qed.

(** Returning [r] to the group keeps [error_origin], provided a non-nil [r]
    is the context's error or, under the policy, a hook's failure. *)
Lemma error_origin_finish (g : Graceful) (G : errgroup.Group) (r : error) :
  error_origin g G ->
  (forall x, r = Some x ->
             ctxErr (errgroup.ctx G) = Some x \/
             (cancelOnError g = true /\ hook_failure g x)) ->
  error_origin g (errgroup.finish r G).
Proof.
  intros Ho Hr. destruct r as [x|]; [|exact Ho].
  destruct (errgroup.first G) as [y|] eqn:Ef;
    [now rewrite (finish_first_set _ G y Ef)|].
  rewrite (finish_first_unset x G Ef).
  unfold error_origin in *. rewrite Ef in Ho. simpl.
  unfold cancel, done.
  destruct (ctxErr (errgroup.ctx G)) as [[| |m]|] eqn:Ec; simpl;
    try rewrite Ec.
  - destruct (Hr x eq_refl) as [Hx|[Hp Hx]].
    + inversion Hx; subst. right. now left.
    + right. right. split; [exact Hp|]. now exists x.
  - destruct Ho as [_ (y & Hy & _)]. discriminate.
  - exact Ho.
  - destruct (Hr x eq_refl) as [Hx|[Hp Hx]]; [discriminate|].
    split; [exact Hp|]. now exists x.
Qed.

Lemma shutdown_inv_step (g : Graceful) (st st' : sstate) (ev : sevent) :
  shutdown_inv g st -> shutdown_step g st ev = Some st' -> shutdown_inv g st'.
Proof.
  intros (Hu & Ho & Hr & Ht) Hstep.
  destruct ev; step_cases Hstep; unfold shutdown_inv; simpl.
  - repeat split; auto.
    intros i x Hin. apply in_app_or in Hin.
    destruct Hin as [Hin|[Hin|[]]]; [eauto | discriminate].
  - repeat split; auto.
    intros j x Hin. apply In_update in Hin.
    destruct Hin as [Hin|Hin]; [|eauto].
    inversion Hin; subst. unfold hook_failure. eauto.
  - repeat split; auto.
  - repeat split; auto using done_expire.
    unfold error_origin in *. simpl. unfold expire, done.
    destruct (ctxErr (errgroup.ctx (sgroup st))) eqn:Ec; simpl;
      [rewrite Ec; exact Ho | now left].
  - repeat split.
    + intros j x Hin. apply In_remove_key in Hin. eauto.
    + apply error_origin_finish; [exact Ho|].
      intros x Hx. inversion Hx; subst. now left.
    + intros j x Hin. apply finish_keeps_error.
      apply in_app_or in Hin. destruct Hin as [Hin|Hin]; [left; eauto|].
      right. discriminate.
    + intros Hf. specialize (Ht Hf). unfold errgroup.finish.
      destruct (errgroup.first (sgroup st)); simpl;
        [exact Ht | apply done_cancel].
  - repeat split.
    + intros j x Hin. apply In_remove_key in Hin. eauto.
    + apply error_origin_finish; [exact Ho|].
      intros x Hx. right. split; [assumption|]. subst.
      apply (Hu i). now apply lookup_In.
    + intros j x Hin. apply finish_keeps_error.
      apply in_app_or in Hin. destruct Hin as [Hin|[Hin|[]]]; [left; eauto|].
      inversion Hin; subst. right. discriminate.
    + intros Hf. specialize (Ht Hf). unfold errgroup.finish.
      repeat match goal with
             | |- context [match ?x with _ => _ end] => destruct x
             end; simpl; auto using done_cancel.
  - repeat split.
    + intros j x Hin. apply In_remove_key in Hin. eauto.
    + exact Ho.
    + intros j x Hin. rewrite first_finish_nil.
      apply in_app_or in Hin. destruct Hin as [Hin|[Hin|[]]]; [eauto|].
      discriminate.
    + exact Ht.
  - repeat split; auto.
Qed.

Lemma shutdown_inv_holds (g : Graceful) (tr : list sevent) (st : sstate) :
  shutdown_run g shutdown_start tr = Some st -> shutdown_inv g st.
Proof.
  apply (shutdown_run_invariant g (shutdown_inv g)).
  - intros s ev s'. apply shutdown_inv_step.
  - repeat split; simpl; try contradiction; discriminate.
Qed.

(** A context that is done shows the same forever. *)
Lemma ctx_sticks (g : Graceful) :
  forall tr st st',
    done (errgroup.ctx (sgroup st)) = true ->
    shutdown_run g st tr = Some st' ->
    errgroup.ctx (sgroup st') = errgroup.ctx (sgroup st).
Proof.
  intros tr. induction tr as [|ev tr IH]; intros st st' Hd Hrun.
  - simpl in Hrun. now inversion Hrun.
  - simpl in Hrun. destruct (shutdown_step g st ev) as [st1|] eqn:E;
      [|discriminate].
    assert (H1 : errgroup.ctx (sgroup st1) = errgroup.ctx (sgroup st)).
    { destruct ev; step_cases E; auto using expire_done;
        unfold errgroup.finish;
        repeat match goal with
               | |- context [match ?x with _ => _ end] => destruct x
               end; simpl; auto; unfold cancel; now rewrite Hd. }
    rewrite <- H1. apply IH; [congruence | exact Hrun].
Qed.

(** What a unit has returned stays on record. *)
Lemma returned_kept (g : Graceful) (x : nat * error) :
  forall tr st st',
    In x (returned st) -> shutdown_run g st tr = Some st' ->
    In x (returned st').
Proof.
  apply (shutdown_run_invariant g (fun s => In x (returned s))).
  intros st ev st' Hin Hstep.
  destruct ev; step_cases Hstep; auto; apply in_or_app; now left.
Qed.

(** ** [shutdown] can always return *)

Lemma next_in_registry (g : Graceful) (tr : list sevent) (st : sstate) :
  shutdown_run g shutdown_start tr = Some st ->
  next st <= List.length (shutdowns g).
Proof.
  apply (shutdown_run_invariant g
           (fun s => next s <= List.length (shutdowns g))); [|simpl; lia].
  intros s ev s' IH Hstep.
  destruct ev; step_cases Hstep; auto.
  match goal with
  | H : nth_error _ _ = Some _ |- _ =>
      assert (Hn : nth_error (shutdowns g) (next s) <> None)
        by (rewrite H; discriminate);
      apply nth_error_Some in Hn
  end.
  lia.
Qed.

Lemma done_finish (r : error) (G : errgroup.Group) :
  done (errgroup.ctx G) = true ->
  done (errgroup.ctx (errgroup.finish r G)) = true.
Proof.
  intros Hd. unfold errgroup.finish.
  destruct r, (errgroup.first G); simpl; auto using done_cancel.
Qed.

(** Once the context is done, the waiting units can all leave. *)
Lemma units_can_leave (g : Graceful) :
  forall n st,
    List.length (units st) = n ->
    done (errgroup.ctx (sgroup st)) = true ->
    exists tr st',
      shutdown_run g st tr = Some st' /\
      units st' = [] /\
      next st' = next st /\
      done (errgroup.ctx (sgroup st')) = true.
Proof.
  intros n. induction n as [|n IH]; intros st Hlen Hd.
  - exists [], st. simpl. repeat split; auto.
    now apply length_zero_iff_nil.
  - destruct (units st) as [|[i p] rest] eqn:Eu; [discriminate|].
    assert (Hc : exists ce, ctxErr (errgroup.ctx (sgroup st)) = Some ce).
    { unfold done in Hd.
      destruct (ctxErr (errgroup.ctx (sgroup st))) as [ce|];
        [now exists ce | discriminate]. }
    destruct Hc as [ce Hce].
    assert (Hstep : exists st1,
               shutdown_step g st (SelectDone i) = Some st1 /\
               units st1 = rest /\ next st1 = next st /\
               done (errgroup.ctx (sgroup st1)) = true).
    { unfold shutdown_step. rewrite Eu. simpl. rewrite Nat.eqb_refl, Hce.
      eexists. split; [reflexivity|]. simpl. rewrite Eu. simpl.
      rewrite Nat.eqb_refl. repeat split. now apply done_finish. }
    destruct Hstep as (st1 & Hstep & Hu1 & Hn1 & Hd1).
    destruct (IH st1) as (tr & st' & Hrun & Hu' & Hn' & Hd');
      [rewrite Hu1; simpl in Hlen; lia | exact Hd1 |].
    exists (SelectDone i :: tr), st'. cbn [shutdown_run]. rewrite Hstep.
    repeat split; auto. congruence.
Qed.

(** With the context done and no unit waiting, the rest of the registry
    can be gone through: each hook is admitted and its unit leaves. *)
Lemma rest_can_be_admitted (g : Graceful) :
  configured g ->
  forall m st,
    next st + m = List.length (shutdowns g) ->
    units st = [] ->
    done (errgroup.ctx (sgroup st)) = true ->
    exists tr st',
      shutdown_run g st tr = Some st' /\ shutdown_over g st' = true.
Proof.
  intros Hc m. induction m as [|m IH]; intros st Hlen Hu Hd.
  - exists [], st. split; [reflexivity|].
    unfold shutdown_over. rewrite Hu. simpl.
    rewrite andb_true_r. apply Nat.eqb_eq. lia.
  - destruct (nth_error (shutdowns g) (next st)) as [s|] eqn:Es;
      [|apply nth_error_None in Es; lia].
    assert (Hstep : exists st1,
               shutdown_step g st Admit = Some st1 /\
               List.length (units st1) = 1 /\ next st1 = S (next st) /\
               done (errgroup.ctx (sgroup st1)) = true).
    { unfold shutdown_step. rewrite Es, Hu. simpl List.length.
      rewrite (hasSlot_empty g Hc). eexists. split; [reflexivity|].
      simpl. repeat split. exact Hd. }
    destruct Hstep as (st1 & Hstep & Hu1 & Hn1 & Hd1).
    destruct (units_can_leave g 1 st1 Hu1 Hd1)
      as (tr1 & st2 & Hrun1 & Hu2 & Hn2 & Hd2).
    destruct (IH st2) as (tr2 & st' & Hrun2 & Hover);
      [lia | exact Hu2 | exact Hd2 |].
    exists (Admit :: tr1 ++ tr2), st'. split; [|exact Hover].
    cbn [shutdown_run]. rewrite Hstep. now rewrite shutdown_run_app, Hrun1.
Qed.

(** Whatever state a [shutdown] call of a configured orchestrator is in, it
    can get to its return: at the latest the deadline lets every unit
    leave. *)
Lemma shutdown_can_return (g : Graceful) :
  configured g ->
  forall tr st,
    shutdown_run g shutdown_start tr = Some st ->
    exists tr' st',
      shutdown_run g st tr' = Some st' /\ shutdown_over g st' = true.
Proof.
  intros Hc tr st Hrun.
  pose proof (next_in_registry g tr st Hrun) as Hnext.
  destruct (shutdown_inv_holds g tr st Hrun) as (_ & _ & _ & Ht).
  assert (Hfire : exists tr0 st0,
             shutdown_run g st tr0 = Some st0 /\
             next st0 = next st /\
             done (errgroup.ctx (sgroup st0)) = true).
  { destruct (done (errgroup.ctx (sgroup st))) eqn:Hd.
    - exists [], st. repeat split. exact Hd.
    - destruct (timerFired st) eqn:Ef; [specialize (Ht eq_refl); discriminate|].
      exists [Elapse (Z.max 0 (maxShutdownTime g - elapsed st)); Deadline].
      cbn [shutdown_run]. unfold shutdown_step.
      destruct (Z.ltb_spec (Z.max 0 (maxShutdownTime g - elapsed st)) 0);
        [lia|].
      cbn [timerFired elapsed]. rewrite Ef.
      destruct (Z.ltb_spec
                  (elapsed st + Z.max 0 (maxShutdownTime g - elapsed st))
                  (maxShutdownTime g)); [lia|].
      eexists. split; [reflexivity|]. simpl. split; [reflexivity|].
      apply done_expire. }
  destruct Hfire as (tr0 & st0 & Hrun0 & Hn0 & Hd0).
  destruct (units_can_leave g (List.length (units st0)) st0 eq_refl Hd0)
    as (tr1 & st1 & Hrun1 & Hu1 & Hn1 & Hd1).
  destruct (rest_can_be_admitted g Hc
              (List.length (shutdowns g) - next st1) st1)
    as (tr2 & st2 & Hrun2 & Hover); [lia | exact Hu1 | exact Hd1 |].
  exists (tr0 ++ tr1 ++ tr2), st2. split; [|exact Hover].
  now rewrite shutdown_run_app, Hrun0, shutdown_run_app, Hrun1.
Qed.

(** ** The error policy *)

(** A failed shutdown call stays failed, and its error reaches the task
    group when the call returns. *)
Lemma shutdown_failed_stays (g : Graceful) :
  forall tr w w',
    shutdown_failed w -> Wait_run g w tr = Some w' -> shutdown_failed w'.
Proof.
  apply Wait_run_invariant. intros w ev w' Hf Hstep.
  unfold shutdown_failed in *. unfold Wait_step in Hstep.
  destruct (waiter w) eqn:Ew; [contradiction| |];
    destruct ev; wait_cases Hstep; rewrite ?Ew; auto;
    try (apply finish_keeps_error; now left).
  - eapply first_error_kept; eassumption.
  - apply finish_keeps_error. right.
    match goal with
    | H : shutdown_result _ _ = Some _ |- _ =>
        apply shutdown_result_first in H; subst
    end.
    assumption.
Qed.

(** Under the policy, a unit that reads the first failure hands it to the
    group, which cancels its live context with it. *)
Lemma read_first_failure
  (g : Graceful) (i : nat) (s : shutdown) (e : err) (s1 : sstate) :
  cancelOnError g = true ->
  nth_error (shutdowns g) i = Some s ->
  lookup i (units s1) = Some (Sending (Some e)) ->
  errgroup.first (sgroup s1) = None ->
  ctxErr (errgroup.ctx (sgroup s1)) = None ->
  exists s2,
    shutdown_step g s1 (SelectErr i) = Some s2 /\
    returned s2 = returned s1 ++ [(i, Some e)] /\
    logs s2 = logs s1 ++ [LogError shutdownTag (tag s) e] /\
    sgroup s2 =
    errgroup.mkGroup (Some e) (mkContext (Some Canceled) (Some e)).
Proof.
  intros Hpol Hs Hunit Hnone Hlive.
  unfold shutdown_step. rewrite Hs, Hunit, Hpol.
  eexists. split; [reflexivity|]. simpl.
  unfold errgroup.finish. rewrite Hnone.
  unfold cancel, done. rewrite Hlive. simpl. repeat split.
Qed.


(** ** [Wait] without hooks *)

(** With an empty registry the run never enters [shutdown], and stays quiet
    until a task fails. *)
Lemma hookless_Wait (g : Graceful) :
  shutdowns g = [] ->
  forall tr w w',
    not_in_shutdown w /\
    ((exists e, In (Some (Some e)) (tasks w)) \/ quiet w) ->
    Wait_run g w tr = Some w' ->
    not_in_shutdown w' /\
    ((exists e, In (Some (Some e)) (tasks w')) \/ quiet w').
Proof.
  intros Hempty. apply Wait_run_invariant.
  intros w ev w' [Hout Hq] Hstep. split.
  - unfold not_in_shutdown in *.
    destruct ev; wait_cases Hstep; auto; try discriminate;
      try (exfalso; eapply Hout; (eassumption || reflexivity)).
    rewrite Hempty in *. discriminate.
  - destruct Hq as [Hfailed|[Hq1 Hq2]];
      [left; eapply failed_task_stays; eassumption|].
    unfold not_in_shutdown in Hout.
    destruct ev as [sg|e|k| |ev'|].
    + wait_cases Hstep; right; split; simpl; assumption.
    + wait_cases Hstep; right; split; simpl; assumption.
    + wait_cases Hstep.
      match goal with
      | |- context [Some (?t ?c)] => destruct (t c) as [e|] eqn:Er
      end.
      * left. exists e. eapply In_set_nth_new. eassumption.
      * right. split; simpl; assumption.
    + wait_cases Hstep; right; split; simpl; auto.
    + wait_cases Hstep; exfalso; eapply Hout; (eassumption || reflexivity).
    + wait_cases Hstep; exfalso; eapply Hout; (eassumption || reflexivity).
Qed.

(** C6. With an empty registry, whatever the configuration: no state of a
    run of [Wait] is inside [shutdown], and when [Wait] returns and no task
    has failed it returns nil.  Such a return happens: once a signal the
    orchestrator listens to arrives and the tasks, all returning nil, have
    returned, [Wait] returns nil. *)
Theorem hookless_Wait_returns_nil (g : Graceful) :
  shutdowns g = [] ->
  (forall tr w,
     Wait_run g (Wait_start g) tr = Some w ->
     not_in_shutdown w /\
     (forall r, Wait_result w = Some r -> no_task_failed w -> r = None)) /\
  (forall sg,
     In sg (notify (signalCtx g)) ->
     (forall f c, In f (group g) -> f c = None) ->
     exists w,
       Wait_run g (Wait_start g) (signal_then_return sg g) = Some w /\
       Wait_result w = Some None).
Proof.
  intros Hempty. split.
  - intros tr w Hrun.
    destruct (hookless_Wait g Hempty tr (Wait_start g) w) as [Hout Hq];
      [|exact Hrun|].
    { split; [intros s; discriminate|]. right. split; [reflexivity | exact I]. }
    split; [exact Hout|].
    intros r Hr Htasks. apply Wait_result_first in Hr. subst r.
    destruct Hq as [[e He]|[Hq _]]; [exfalso; exact (Htasks e He) | exact Hq].
  - intros sg Hsg Hnil.
    assert (Hlisten : existsb (Z.eqb sg) (notify (signalCtx g)) = true)
      by (apply existsb_exists; exists sg; split; [exact Hsg | apply Z.eqb_refl]).
    unfold signal_then_return. cbn [Wait_run].
    unfold Wait_step at 1. rewrite Hlisten.
    unfold Wait_step at 1. rewrite Hempty. simpl.
    match goal with
    | |- context [Wait_run g ?w0 (map TaskReturn _)] =>
        destruct (tasks_return_in_order g (List.length (group g)) 0 w0)
          as (w & Hrun & Ht & Hg & Hw)
    end.
    + reflexivity.
    + simpl. apply map_const_repeat.
    + intros f Hf. apply Hnil. exact Hf.
    + exists w. split; [exact Hrun|].
      unfold Wait_result, Wait_over. rewrite Ht, Hw, Hg. simpl.
      now rewrite all_returned.
Qed.

Lemma hookless_Wait_returns_nil_witness :
  exists w,
    Wait_run Demo.bare (Wait_start Demo.bare)
      [SignalArrives syscall.SIGHUP; Wake; TaskReturn 0] = Some w /\
    Wait_result w = Some None.
Proof.
  apply (hookless_Wait_returns_nil Demo.bare eq_refl).
  - simpl. tauto.
  - intros f c [<-|[]]. reflexivity.
Defined.

(** ** The deadline *)

(** C3, as the code has it.  The timer cannot fire before
    [maxShutdownTime] has passed; when it fires on a live context, the
    context of the shutdown group shows the deadline error and the units
    stay as they were.  From then on a unit that is still waiting cannot
    read a result while its function has not returned; leaving through
    [ctx.Done()] it returns the deadline error, and the goroutine of its
    function is left behind in the state it was in.  After that [shutdown]
    returns the deadline error when [cancelOnError] is off; when it is on,
    it returns the deadline error or a failure that a hook's function
    returned, whichever unit returned first. *)
Theorem deadline_abandons_waiting_unit (g : Graceful) (i : nat) (p : pstat) :
  (forall tr0 s0,
     shutdown_run g shutdown_start tr0 = Some s0 ->
     ctxErr (errgroup.ctx (sgroup s0)) = None ->
     ((elapsed s0 < maxShutdownTime g)%Z ->
      shutdown_step g s0 Deadline = None) /\
     ((maxShutdownTime g <= elapsed s0)%Z ->
      exists s1,
        shutdown_step g s0 Deadline = Some s1 /\
        ctxErr (errgroup.ctx (sgroup s1)) = Some DeadlineExceeded /\
        units s1 = units s0 /\
        leaked s1 = leaked s0)) /\
  (forall tr1 s1,
     shutdown_run g shutdown_start tr1 = Some s1 ->
     lookup i (units s1) = Some p ->
     ctxErr (errgroup.ctx (sgroup s1)) = Some DeadlineExceeded ->
     (p = Running -> shutdown_step g s1 (SelectErr i) = None) /\
     exists s2,
       shutdown_step g s1 (SelectDone i) = Some s2 /\
       returned s2 = returned s1 ++ [(i, Some DeadlineExceeded)] /\
       leaked s2 = leaked s1 ++ [(i, p)] /\
       logs s2 = logs s1 /\
       (forall tr2 st r,
          shutdown_run g s2 tr2 = Some st ->
          shutdown_result g st = Some r ->
          (cancelOnError g = false -> r = Some DeadlineExceeded) /\
          (r = Some DeadlineExceeded \/
           (cancelOnError g = true /\
            exists x, r = Some x /\ hook_failure g x))) /\
       (configured g ->
        exists tr2 st r,
          shutdown_run g s2 tr2 = Some st /\
          shutdown_result g st = Some r)).
Proof.
  split.
  - intros tr0 s0 Hrun Hlive.
    destruct (shutdown_inv_holds g tr0 s0 Hrun) as (_ & _ & _ & Ht).
    unfold shutdown_step.
    destruct (timerFired s0) eqn:Ef.
    { specialize (Ht eq_refl). unfold done in Ht. rewrite Hlive in Ht.
      discriminate. }
    simpl orb. split; intros Htime.
    + destruct (Z.ltb_spec (elapsed s0) (maxShutdownTime g));
        [reflexivity | lia].
    + destruct (Z.ltb_spec (elapsed s0) (maxShutdownTime g)); [lia|].
      eexists. split; [reflexivity|]. simpl.
      unfold expire, done. rewrite Hlive. simpl. repeat split.
  - intros tr1 s1 Hrun Hunit Hdead. split.
    + intros ->. unfold shutdown_step. rewrite Hunit.
      now destruct (nth_error (shutdowns g) i).
    + unfold shutdown_step at 1. rewrite Hunit, Hdead.
      eexists. split; [reflexivity|]. simpl.
      repeat (split; [reflexivity|]).
      match goal with
      | |- (forall tr2 st r, shutdown_run g ?s2 tr2 = _ -> _) /\ _ =>
          assert (Hrun12 : shutdown_run g shutdown_start
                             (tr1 ++ [SelectDone i]) = Some s2)
      end.
      { rewrite shutdown_run_app, Hrun. simpl.
        unfold shutdown_step. now rewrite Hunit, Hdead. }
      split;
        [|intros Hc;
          destruct (shutdown_can_return g Hc _ _ Hrun12)
            as (tr2 & st & Hrun2 & Hover);
          exists tr2, st, (errgroup.first (sgroup st));
          split; [exact Hrun2|];
          unfold shutdown_result; now rewrite Hover].
      intros tr2 st r Hrun2 Hr.
      assert (Hfull : shutdown_run g shutdown_start
                        ((tr1 ++ [SelectDone i]) ++ tr2) = Some st)
        by (rewrite shutdown_run_app, Hrun12; exact Hrun2).
      destruct (shutdown_inv_holds g _ st Hfull) as (_ & Ho & Hret & _).
      assert (Hctx : ctxErr (errgroup.ctx (sgroup st)) = Some DeadlineExceeded).
      { erewrite (ctx_sticks g tr2 _ st); [| |exact Hrun2]; simpl.
        - unfold errgroup.finish.
          destruct (errgroup.first (sgroup s1)); simpl; [exact Hdead|].
          unfold cancel, done. now rewrite Hdead.
        - unfold errgroup.finish.
          destruct (errgroup.first (sgroup s1)); simpl;
            [unfold done; now rewrite Hdead | apply done_cancel]. }
      assert (Hset : errgroup.first (sgroup st) <> None).
      { apply (Hret i DeadlineExceeded).
        eapply returned_kept; [|exact Hrun2]. simpl.
        apply in_or_app. right. now left. }
      apply shutdown_result_first in Hr. subst r.
      unfold error_origin in Ho. rewrite Hctx in Ho.
      destruct Ho as [Ho|[Ho|(Hp & x & Hx & Hh)]].
      * contradiction.
      * split; [intros _; exact Ho | now left].
      * split; [intros Hoff; congruence|].
        right. split; [exact Hp|]. now exists x.
Qed.

Lemma deadline_abandons_waiting_unit_witness :
  exists s1 s2 st,
    shutdown_run Demo.lenient shutdown_start
      [Admit; Admit; Elapse (10 * Second)%Z; Deadline]
    = Some s1 /\
    shutdown_step Demo.lenient s1 (SelectErr 1) = None /\
    shutdown_step Demo.lenient s1 (SelectDone 1) = Some s2 /\
    shutdown_run Demo.lenient s2 [ProcReturn 0; SelectErr 0] = Some st /\
    shutdown_result Demo.lenient st = Some (Some DeadlineExceeded).
Proof.
  eassert (E1 : shutdown_run Demo.lenient shutdown_start
                  [Admit; Admit; Elapse (10 * Second)%Z; Deadline] = Some _)
    by (vm_compute; reflexivity).
  destruct (proj2 (deadline_abandons_waiting_unit Demo.lenient 1 Running)
              _ _ E1 eq_refl eq_refl)
    as [Hwaits (s2 & Hstep & _ & _ & _ & Hfinal & _)].
  pose proof Hstep as Hs2. vm_compute in Hs2. injection Hs2 as Hs2.
  subst s2.
  match type of Hstep with
  | _ = Some ?s2 =>
      eassert (E2 : shutdown_run Demo.lenient s2
                      [ProcReturn 0; SelectErr 0] = Some _)
        by (vm_compute; reflexivity)
  end.
  do 3 eexists.
  split; [exact E1|]. split; [exact (Hwaits eq_refl)|].
  split; [exact Hstep|]. split; [exact E2|].
  match goal with
  | |- ?res = _ => destruct res as [r|] eqn:Er
  end; [|vm_compute in Er; discriminate Er].
  f_equal. exact (proj1 (Hfinal _ _ _ E2 Er) eq_refl).
Defined.

(** C3 does not hold as stated: under [cancelOnError] the deadline error of
    an abandoned unit is not always what [shutdown] returns.  After ten
    seconds the function of hook 0 returns its failure, hook 1 is still
    running, and the timer fires.  Unit 0, which has a result to read,
    returns first; unit 1 leaves through [ctx.Done()] with the deadline
    error, which [errOnce] drops; [shutdown] returns the failure of hook 0.
    The same schedule without the policy returns the deadline error. *)
Lemma deadline_error_can_lose_the_race :
  exists s0 s1 st,
    shutdown_run Demo.strict shutdown_start
      [Admit; Admit; Elapse (10 * Second)%Z; ProcReturn 0]
    = Some s0 /\
    lookup 1 (units s0) = Some Running /\
    ctxErr (errgroup.ctx (sgroup s0)) = None /\
    shutdown_step Demo.strict s0 Deadline = Some s1 /\
    shutdown_run Demo.strict s1 [SelectErr 0; SelectDone 1] = Some st /\
    In (1, Some DeadlineExceeded) (returned st) /\
    lookup 1 (leaked st) = Some Running /\
    shutdown_result Demo.strict st = Some (Some (errorString "boom")) /\
    shutdown_result Demo.strict st <> Some (Some DeadlineExceeded) /\
    exists st',
      shutdown_run Demo.lenient shutdown_start
        [Admit; Admit; Elapse (10 * Second)%Z; ProcReturn 0; Deadline;
         SelectErr 0; SelectDone 1]
      = Some st' /\
      shutdown_result Demo.lenient st' = Some (Some DeadlineExceeded).
Proof.
  do 3 eexists.
  split; [vm_compute; reflexivity|].
  split; [reflexivity|].
  split; [reflexivity|].
  split; [vm_compute; reflexivity|].
  split; [vm_compute; reflexivity|].
  split; [simpl; right; left; reflexivity|].
  split; [reflexivity|].
  split; [reflexivity|].
  split; [discriminate|].
  eexists. split; [vm_compute; reflexivity | reflexivity].
Qed.

(** * Further properties of the package *)

(** ** What a sequence of calls builds *)

Lemma do_calls_cons (c : call) (cs : list call) (w : Graceful * uuid.Rand) :
  do_calls (c :: cs) w = do_calls cs (do_call c w).
Proof. reflexivity. Qed.

(** Two sources that agree give the same orchestrator and agree
    afterwards. *)
Lemma do_call_same_source (c : call) (g : Graceful) (r1 r2 : uuid.Rand) :
  (forall n, r1 n = r2 n) ->
  fst (do_call c (g, r1)) = fst (do_call c (g, r2)) /\
  (forall n, snd (do_call c (g, r1)) n = snd (do_call c (g, r2)) n).
Proof.
  intros Hr.
  destruct c as [v|d|m|[p|]|[p|]|[p|]|[p|] t]; simpl; auto;
    rewrite (Hr 0); auto.
Qed.

Lemma hook_registrations_cons (c : call) (cs : list call) :
  hook_registrations (c :: cs)
  = hook_registrations [c] ++ hook_registrations cs.
Proof. destruct c as [v|d|m|[p|]|[p|]|[p|]|[p|] t]; reflexivity. Qed.

Lemma task_registrations_cons (c : call) (cs : list call) :
  task_registrations (c :: cs)
  = task_registrations [c] ++ task_registrations cs.
Proof. destruct c as [v|d|m|[p|]|[p|]|[p|]|[p|] t]; reflexivity. Qed.

Lemma build_hooks_app (r : uuid.Rand) (a b : list (string * Process)) :
  forall k,
    build_hooks r k (a ++ b)
    = build_hooks r k a ++ build_hooks r (k + List.length a) b.
Proof.
  induction a as [|[t p] a IH]; intros k; simpl.
  - now rewrite Nat.add_0_r.
  - rewrite IH. do 3 f_equal. lia.
Qed.

Lemma build_hooks_same_source (r1 r : uuid.Rand)
  (regs : list (string * Process)) :
  forall j k,
    (forall n, r1 (j + n) = r (k + n)) ->
    build_hooks r1 j regs = build_hooks r k regs.
Proof.
  induction regs as [|[t p] regs IH]; intros j k Hr; simpl; [reflexivity|].
  unfold after_draws. rewrite (Hr 0). f_equal.
  apply IH. intros n. specialize (Hr (S n)).
  rewrite !Nat.add_succ_r in Hr. exact Hr.
Qed.

(** What one call adds. *)
Lemma do_call_content (c : call) (g : Graceful) (r : uuid.Rand) :
  shutdowns (fst (do_call c (g, r)))
  = shutdowns g ++ build_hooks r 0 (hook_registrations [c]) /\
  group (fst (do_call c (g, r))) = group g ++ task_registrations [c] /\
  signalCtx (fst (do_call c (g, r))) = signalCtx g /\
  (forall n, snd (do_call c (g, r)) n
             = r (List.length (hook_registrations [c]) + n)).
Proof.
  destruct c as [v|d|m|[p|]|[p|]|[p|]|[p|] t]; simpl;
    rewrite ?app_nil_r; repeat split.
Qed.

(** The registry, the task group and the source after a sequence of calls:
    every non-nil registration has added its entry, in order. *)
Lemma do_calls_content (cs : list call) :
  forall (g : Graceful) (r1 r : uuid.Rand) (k : nat),
    (forall n, r1 n = r (k + n)) ->
    shutdowns (fst (do_calls cs (g, r1)))
    = shutdowns g ++ build_hooks r k (hook_registrations cs) /\
    group (fst (do_calls cs (g, r1))) = group g ++ task_registrations cs /\
    signalCtx (fst (do_calls cs (g, r1))) = signalCtx g /\
    (forall n, snd (do_calls cs (g, r1)) n
               = r (k + List.length (hook_registrations cs) + n)).
Proof.
  induction cs as [|c cs IH]; intros g r1 r k Hr.
  - simpl. rewrite !app_nil_r. repeat split; auto.
    intros n. rewrite Hr. f_equal. lia.
  - rewrite do_calls_cons.
    pose proof (do_call_content c g r1) as C.
    remember (do_call c (g, r1)) as w1 eqn:E. destruct w1 as [g1 r2].
    cbn [fst snd] in C. destruct C as (C1 & C2 & C3 & C4).
    destruct (IH g1 r2 r (k + List.length (hook_registrations [c])))
      as (H1 & H2 & H3 & H4).
    { intros n. rewrite C4, Hr. f_equal. lia. }
    rewrite H1, H2, H3, C1, C2, C3.
    rewrite (hook_registrations_cons c cs), (task_registrations_cons c cs).
    rewrite build_hooks_app, length_app.
    rewrite (build_hooks_same_source r1 r _ 0 k) by (intros n; apply Hr).
    split; [now rewrite app_assoc|].
    split; [now rewrite app_assoc|].
    split; [reflexivity|].
    intros n. rewrite H4. f_equal. lia.
Qed.

Lemma nth_error_build_hooks (r : uuid.Rand) (regs : list (string * Process)) :
  forall j k t p,
    nth_error regs k = Some (t, p) ->
    nth_error (build_hooks r j regs) k
    = Some (mkShutdown (r (j + k))
              (if String.eqb t EmptyString
               then uuid.String (r (j + k)) else t) p).
Proof.
  induction regs as [|[t0 p0] regs IH]; intros j k t p Hk;
    destruct k as [|k]; simpl in *; try discriminate.
  - inversion Hk; subst. unfold after_draws. now rewrite !Nat.add_0_r.
  - rewrite (IH (S j) k t p Hk). do 3 f_equal; try lia.
    replace (S j + k) with (j + S k) by lia. reflexivity.
Qed.

Lemma ids_of_build_hooks (r : uuid.Rand) (regs : list (string * Process)) :
  forall j, map id (build_hooks r j regs) = map r (seq j (List.length regs)).
Proof.
  induction regs as [|[t p] regs IH]; intros j; simpl; [reflexivity|].
  unfold after_draws. rewrite Nat.add_0_r. f_equal. apply IH.
Qed.

Lemma length_build_hooks (r : uuid.Rand) (regs : list (string * Process)) :
  forall j, List.length (build_hooks r j regs) = List.length regs.
Proof.
  induction regs as [|[t p] regs IH]; intros j; simpl; [reflexivity|].
  now rewrite IH.
Qed.

(** X1. Whatever is called on it, an orchestrator made by [NewWithContext]
    keeps a cap and a time limit of at least one, so [SetLimit] always
    leaves room for a first hook and the deadline is never already past,
    and it keeps the signal context it was made with, whose signal list is
    never empty. *)
Theorem built_orchestrator_stays_well_formed
  (ctx : Parent) (signals : list Signal) (cs : list call) (r : uuid.Rand) :
  let g := fst (do_calls cs (NewWithContext ctx signals, r)) in
  (1 <= maxShutdownProcess g)%Z /\
  (1 <= maxShutdownTime g)%Z /\
  errgroup.hasSlot (maxShutdownProcess g) 0 = true /\
  signalCtx g = signalCtx (NewWithContext ctx signals) /\
  parent (signalCtx g) = ctx /\
  notify (signalCtx g) <> [].
Proof.
  intros g.
  assert (Hc : configured g)
    by (apply do_calls_configured, New_configured).
  destruct (do_calls_content cs (NewWithContext ctx signals) r r 0
              (fun n => eq_refl)) as (_ & _ & Hs & _).
  fold g in Hs.
  split; [apply Hc|]. split; [apply Hc|].
  split; [now apply hasSlot_empty|].
  split; [exact Hs|]. rewrite Hs. split; [reflexivity|].
  simpl. destruct signals; simpl; discriminate.
Qed.

(** X3. The registry of an orchestrator built from [NewWithContext] lists
    the non-nil hook registrations in the order of the calls, and nothing
    else: the [k]-th of them is the [k]-th entry, with the [k]-th
    identifier of the source, the registered function, and the tag of the
    call or, for the empty tag, the identifier's string form.  Likewise the
    task group lists the non-nil task registrations. *)
Theorem registry_lists_registrations_in_order
  (ctx : Parent) (signals : list Signal) (cs : list call) (r : uuid.Rand) :
  let g := fst (do_calls cs (NewWithContext ctx signals, r)) in
  List.length (shutdowns g) = List.length (hook_registrations cs) /\
  group g = task_registrations cs /\
  (forall k t p,
     nth_error (hook_registrations cs) k = Some (t, p) ->
     exists s,
       nth_error (shutdowns g) k = Some s /\
       id s = r k /\
       process s = p /\
       tag s = (if String.eqb t EmptyString then uuid.String (r k) else t)).
Proof.
  intros g.
  destruct (do_calls_content cs (NewWithContext ctx signals) r r 0
              (fun n => eq_refl)) as (Hh & Ht & _ & _).
  fold g in Hh, Ht. simpl in Hh, Ht.
  split; [rewrite Hh; apply length_build_hooks|].
  split; [exact Ht|].
  intros k t p Hk. rewrite Hh.
  rewrite (nth_error_build_hooks r _ 0 k t p Hk). simpl.
  eexists. split; [reflexivity|]. simpl. repeat split.
Qed.

Lemma registry_lists_registrations_in_order_witness :
  exists s,
    nth_error (shutdowns Demo.lenient) 1 = Some s /\
    id s = Demo.rand 1 /\
    tag s = "00000000-0000-0000-0000-000000000001"%string.
Proof.
  destruct (registry_lists_registrations_in_order
              Background [] Demo.calls Demo.rand) as (_ & _ & Hk).
  destruct (Hk 1 EmptyString Demo.succeed eq_refl)
    as (s & Hs & Hid & _ & Htag).
  exists s. repeat split; assumption.
Defined.

(** X4. The identifiers of the hooks of an orchestrator are pairwise
    distinct as long as the source has not repeated itself over the hooks
    registered. *)
Theorem hook_ids_are_distinct
  (ctx : Parent) (signals : list Signal) (cs : list call) (r : uuid.Rand) :
  let g := fst (do_calls cs (NewWithContext ctx signals, r)) in
  (forall i j,
     i < List.length (shutdowns g) -> j < List.length (shutdowns g) ->
     r i = r j -> i = j) ->
  NoDup (map id (shutdowns g)).
Proof.
  intros g Hinj.
  destruct (do_calls_content cs (NewWithContext ctx signals) r r 0
              (fun n => eq_refl)) as (Hh & _).
  fold g in Hh. simpl in Hh.
  assert (Hlen : List.length (shutdowns g)
                 = List.length (hook_registrations cs))
    by (rewrite Hh; apply length_build_hooks).
  rewrite Hh, ids_of_build_hooks.
  apply NoDup_map_NoDup_ForallPairs; [|apply seq_NoDup].
  intros i j Hi Hj Heq. apply in_seq in Hi, Hj.
  apply Hinj; [lia | lia | exact Heq].
Qed.

Lemma hook_ids_are_distinct_witness :
  NoDup (map id (shutdowns Demo.lenient)).
Proof.
  apply (hook_ids_are_distinct Background [] Demo.calls Demo.rand).
  intros i j Hi Hj.
  change (List.length
            (shutdowns (fst (do_calls Demo.calls
                               (NewWithContext Background [], Demo.rand)))))
    with 2 in Hi, Hj.
  destruct i as [|[|i]], j as [|[|j]]; try lia; try reflexivity;
    vm_compute; discriminate.
Defined.

Lemma do_call_settings (c : call) (g1 g2 : Graceful) (r1 r2 : uuid.Rand) :
  settings g1 = settings g2 ->
  settings (fst (do_call c (g1, r1)))
  = (if is_setter c then settings (fst (do_call c (g2, r2)))
     else settings g2).
Proof.
  unfold settings. intros H. inversion H as [[Ht Hp Hc]].
  destruct c as [v|d|m|[p|]|[p|]|[p|]|[p|] t]; simpl; congruence.
Qed.

Lemma do_calls_settings (cs : list call) :
  forall (g1 g2 : Graceful) (r1 r2 : uuid.Rand),
    settings g1 = settings g2 ->
    settings (fst (do_calls cs (g1, r1)))
    = settings (fst (do_calls (filter is_setter cs) (g2, r2))).
Proof.
  induction cs as [|c cs IH]; intros g1 g2 r1 r2 H; [exact H|].
  rewrite do_calls_cons. simpl filter.
  pose proof (do_call_settings c g1 g2 r1 r2 H) as Hc.
  destruct (do_call c (g1, r1)) as [g1' r1'] eqn:E1.
  destruct (is_setter c).
  - rewrite do_calls_cons.
    destruct (do_call c (g2, r2)) as [g2' r2'] eqn:E2.
    apply IH. exact Hc.
  - apply IH. exact Hc.
Qed.

Lemma hook_registrations_skip_setters (cs : list call) :
  hook_registrations (filter (fun c => negb (is_setter c)) cs)
  = hook_registrations cs.
Proof.
  induction cs as [|c cs IH]; [reflexivity|].
  destruct c as [v|d|m|[p|]|[p|]|[p|]|[p|] t]; simpl; now rewrite ?IH.
Qed.

Lemma task_registrations_skip_setters (cs : list call) :
  task_registrations (filter (fun c => negb (is_setter c)) cs)
  = task_registrations cs.
Proof.
  induction cs as [|c cs IH]; [reflexivity|].
  destruct c as [v|d|m|[p|]|[p|]|[p|]|[p|] t]; simpl; now rewrite ?IH.
Qed.

Lemma hook_registrations_of_setters (cs : list call) :
  hook_registrations (filter is_setter cs) = [] /\
  task_registrations (filter is_setter cs) = [].
Proof.
  induction cs as [|c cs IH]; [split; reflexivity|].
  destruct c as [v|d|m|[p|]|[p|]|[p|]|[p|] t]; simpl; exact IH.
Qed.

(** X2. Setters and registrations do not interfere.  The settings after a
    sequence of calls are those its setter calls alone produce, and the
    registry, the task group and the identifiers left in the source are
    those its registrations alone produce; the setters alone leave the
    registry and the task group as they were. *)
Theorem setters_and_registrations_are_independent
  (cs : list call) (g : Graceful) (r : uuid.Rand) :
  let all := do_calls cs (g, r) in
  let set := do_calls (filter is_setter cs) (g, r) in
  let reg := do_calls (filter (fun c => negb (is_setter c)) cs) (g, r) in
  maxShutdownTime (fst all) = maxShutdownTime (fst set) /\
  maxShutdownProcess (fst all) = maxShutdownProcess (fst set) /\
  cancelOnError (fst all) = cancelOnError (fst set) /\
  shutdowns (fst all) = shutdowns (fst reg) /\
  group (fst all) = group (fst reg) /\
  (forall n, snd all n = snd reg n) /\
  shutdowns (fst set) = shutdowns g /\
  group (fst set) = group g.
Proof.
  intros all set reg.
  pose proof (do_calls_settings cs g g r r eq_refl) as Hs.
  fold all set in Hs. unfold settings in Hs. inversion Hs as [[Ht Hp Hc]].
  destruct (do_calls_content cs g r r 0 (fun n => eq_refl))
    as (A1 & A2 & _ & A4).
  destruct (do_calls_content (filter (fun c => negb (is_setter c)) cs)
              g r r 0 (fun n => eq_refl)) as (R1 & R2 & _ & R4).
  destruct (do_calls_content (filter is_setter cs) g r r 0
              (fun n => eq_refl)) as (S1 & S2 & _).
  fold all in A1, A2, A4. fold reg in R1, R2, R4. fold set in S1, S2.
  rewrite hook_registrations_skip_setters in R1, R4.
  rewrite task_registrations_skip_setters in R2.
  destruct (hook_registrations_of_setters cs) as [E1 E2].
  rewrite E1 in S1. rewrite E2 in S2. simpl in S1, S2.
  rewrite app_nil_r in S1, S2.
  repeat split; congruence.
Qed.

(** ** What [shutdown] returns, and when *)

Lemma ctxErr_finish_deadline (r : error) (G : errgroup.Group) :
  ctxErr (errgroup.ctx (errgroup.finish r G)) = Some DeadlineExceeded ->
  ctxErr (errgroup.ctx G) = Some DeadlineExceeded.
Proof.
  unfold errgroup.finish.
  destruct r, (errgroup.first G); simpl; auto.
  unfold cancel. destruct (done (errgroup.ctx G)); simpl; auto.
  discriminate.
Qed.

(** The timer fires only after the time limit, the context shows the
    deadline error only once the timer has fired, and a hook is left behind
    only once the context is done. *)
Lemma shutdown_timing (g : Graceful) (tr : list sevent) (st : sstate) :
  shutdown_run g shutdown_start tr = Some st ->
  (timerFired st = true -> (maxShutdownTime g <= elapsed st)%Z) /\
  (ctxErr (errgroup.ctx (sgroup st)) = Some DeadlineExceeded ->
   timerFired st = true) /\
  (leaked st <> [] -> done (errgroup.ctx (sgroup st)) = true).
Proof.
  apply (shutdown_run_invariant g
           (fun s =>
              (timerFired s = true -> (maxShutdownTime g <= elapsed s)%Z) /\
              (ctxErr (errgroup.ctx (sgroup s)) = Some DeadlineExceeded ->
               timerFired s = true) /\
              (leaked s <> [] -> done (errgroup.ctx (sgroup s)) = true))).
  - intros s ev s' (H1 & H2 & H3) Hstep.
    destruct ev; step_cases Hstep; (repeat split; auto);
      try (intros Hc; apply ctxErr_finish_deadline in Hc; auto; fail);
      try (intros; apply done_finish; auto; fail);
      try (intros; apply done_expire; fail).
    + intros _. apply H3. intros Hn.
      match goal with
      | Hl : lookup _ (leaked s) = Some _ |- _ =>
          rewrite Hn in Hl; discriminate Hl
      end.
    + intros _.
      match goal with
      | Hb : (_ || _)%bool = false |- _ =>
          apply orb_false_iff in Hb; destruct Hb as [_ Hb];
          apply Z.ltb_ge in Hb; exact Hb
      end.
    + intros Hc. apply ctxErr_finish_deadline in Hc. apply H2.
      match goal with
      | He : ctxErr _ = Some _ |- _ => now rewrite <- He
      end.
    + intros _. apply done_finish. unfold done.
      match goal with
      | Hc : ctxErr _ = Some _ |- _ => now rewrite Hc
      end.
    + intros Hf. specialize (H1 Hf).
      match goal with
      | Hb : (_ <? 0)%Z = false |- _ => apply Z.ltb_ge in Hb
      end.
      lia.
  - simpl. repeat split; try discriminate. intros H. now contradiction H.
Qed.

(** X5. [shutdown] returns nil, the deadline error, or, with
    [cancelOnError], a failure that the function of a registered hook
    returned: the cancellation error that the abandoned units return after
    a failure is never the result.  Without the policy the only possible
    error is the deadline error. *)
Theorem shutdown_returns_nil_deadline_or_hook_failure
  (g : Graceful) (tr : list sevent) (st : sstate) (r : error) :
  shutdown_run g shutdown_start tr = Some st ->
  shutdown_result g st = Some r ->
  (r = None \/ r = Some DeadlineExceeded \/
   (cancelOnError g = true /\ exists x, r = Some x /\ hook_failure g x)) /\
  (cancelOnError g = false -> r = None \/ r = Some DeadlineExceeded) /\
  (r = Some Canceled -> cancelOnError g = true /\ hook_failure g Canceled).
Proof.
  intros Hrun Hr. apply shutdown_result_first in Hr. subst r.
  destruct (shutdown_inv_holds g tr st Hrun) as (_ & Ho & _ & _).
  assert (H : errgroup.first (sgroup st) = None \/
              errgroup.first (sgroup st) = Some DeadlineExceeded \/
              (cancelOnError g = true /\
               exists x, errgroup.first (sgroup st) = Some x /\
                         hook_failure g x)).
  { unfold error_origin in Ho.
    destruct (ctxErr (errgroup.ctx (sgroup st))) as [[| |m]|]; auto.
    contradiction. }
  split; [exact H|]. split.
  - intros Hoff. destruct H as [H|[H|[Hon _]]]; auto. congruence.
  - intros Hc. destruct H as [H|[H|(Hon & x & Hx & Hf)]];
      unfold error in *; try congruence.
    split; [exact Hon|]. congruence.
Qed.

Lemma shutdown_returns_nil_deadline_or_hook_failure_witness :
  exists st r,
    shutdown_run Demo.strict shutdown_start
      [Admit; Admit; ProcReturn 0; SelectErr 0; SelectDone 1] = Some st /\
    shutdown_result Demo.strict st = Some r /\
    (r = None \/ r = Some DeadlineExceeded \/
     (cancelOnError Demo.strict = true /\
      exists x, r = Some x /\ hook_failure Demo.strict x)).
Proof.
  eassert (E : shutdown_run Demo.strict shutdown_start
                 [Admit; Admit; ProcReturn 0; SelectErr 0; SelectDone 1]
               = Some _) by (vm_compute; reflexivity).
  match type of E with
  | _ = Some ?st =>
      eassert (Er : shutdown_result Demo.strict st = Some _)
        by (vm_compute; reflexivity)
  end.
  do 2 eexists. split; [exact E|]. split; [exact Er|].
  exact (proj1 (shutdown_returns_nil_deadline_or_hook_failure
                  Demo.strict _ _ _ E Er)).
Defined.

(** X6. Nothing is cut short before the time limit: the context of the
    shutdown group shows the deadline error only when [maxShutdownTime]
    has passed since the call began, and without [cancelOnError] no hook
    is left behind and no error is returned before that. *)
Theorem nothing_times_out_before_the_limit
  (g : Graceful) (tr : list sevent) (st : sstate) :
  shutdown_run g shutdown_start tr = Some st ->
  (ctxErr (errgroup.ctx (sgroup st)) = Some DeadlineExceeded ->
   (maxShutdownTime g <= elapsed st)%Z) /\
  (cancelOnError g = false ->
   (elapsed st < maxShutdownTime g)%Z ->
   leaked st = [] /\
   errgroup.first (sgroup st) = None /\
   forall r, shutdown_result g st = Some r -> r = None).
Proof.
  intros Hrun.
  destruct (shutdown_timing g tr st Hrun) as (Ht & Hd & Hl).
  destruct (shutdown_inv_holds g tr st Hrun) as (_ & Ho & _ & _).
  split; [intros Hc; apply Ht, Hd, Hc|].
  intros Hoff Hearly.
  assert (Hlive : ctxErr (errgroup.ctx (sgroup st)) = None).
  { unfold error_origin in Ho.
    destruct (ctxErr (errgroup.ctx (sgroup st))) as [[| |m]|] eqn:Ec;
      [|destruct Ho; congruence|contradiction|reflexivity].
    specialize (Ht (Hd eq_refl)). lia. }
  assert (Hnil : errgroup.first (sgroup st) = None)
    by (unfold error_origin in Ho; now rewrite Hlive in Ho).
  split; [|split; [exact Hnil|]].
  - destruct (leaked st) eqn:El; [reflexivity|].
    assert (Hdone : done (errgroup.ctx (sgroup st)) = true)
      by (apply Hl; discriminate).
    unfold done in Hdone. rewrite Hlive in Hdone. discriminate.
  - intros r Hr. apply shutdown_result_first in Hr. congruence.
Qed.

Lemma nothing_times_out_before_the_limit_witness :
  exists st,
    shutdown_run Demo.lenient shutdown_start
      [Admit; Elapse (3 * Second)%Z; Admit; ProcReturn 1; SelectErr 1]
    = Some st /\
    leaked st = [].
Proof.
  eassert (E : shutdown_run Demo.lenient shutdown_start
                 [Admit; Elapse (3 * Second)%Z; Admit; ProcReturn 1;
                  SelectErr 1] = Some _) by (vm_compute; reflexivity).
  eexists. split; [exact E|].
  apply (proj2 (nothing_times_out_before_the_limit Demo.lenient _ _ E));
    reflexivity.
Defined.

(** ** Every hook, once *)









(** X9. [shutdown] never gets stuck: whatever has happened so far in a call
    on an orchestrator built through the public surface, the call can go on
    to its return; at the latest the deadline lets every unit leave. *)
Theorem shutdown_never_gets_stuck
  (ctx : Parent) (signals : list Signal) (cs : list call) (r : uuid.Rand)
  (tr : list sevent) (st : sstate) :
  let g := fst (do_calls cs (NewWithContext ctx signals, r)) in
  shutdown_run g shutdown_start tr = Some st ->
  exists tr' st' res,
    shutdown_run g st tr' = Some st' /\
    shutdown_result g st' = Some res.
Proof.
  intros g Hrun.
  assert (Hc : configured g)
    by (apply do_calls_configured, New_configured).
  destruct (shutdown_can_return g Hc tr st Hrun) as (tr' & st' & Hrun' & Ho).
  exists tr', st', (errgroup.first (sgroup st')).
  split; [exact Hrun'|]. unfold shutdown_result. now rewrite Ho.
Qed.

Lemma shutdown_never_gets_stuck_witness :
  exists st tr' st' res,
    shutdown_run Demo.narrow shutdown_start [Admit] = Some st /\
    shutdown_run Demo.narrow st tr' = Some st' /\
    shutdown_result Demo.narrow st' = Some res.
Proof.
  eassert (E : shutdown_run Demo.narrow shutdown_start [Admit] = Some _)
    by (vm_compute; reflexivity).
  destruct (shutdown_never_gets_stuck
              Background [] Demo.narrow_calls Demo.rand _ _ E)
    as (tr' & st' & res & Hrun & Hres).
  eexists. exists tr', st', res. repeat split; eassumption.
Defined.

(** ** What [Wait] returns, and when *)

(** The first error of the task group is kept. *)
Lemma Wait_first_error_kept (g : Graceful) (x : err) :
  forall tr w w',
    errgroup.first (wgroup w) = Some x ->
    Wait_run g w tr = Some w' ->
    errgroup.first (wgroup w') = Some x.
Proof.
  apply (Wait_run_invariant g
           (fun w => errgroup.first (wgroup w) = Some x)).
  intros w ev w' Hf Hstep.
  destruct ev; wait_cases Hstep; auto;
    rewrite (finish_first_set _ _ x Hf); exact Hf.
Qed.

Lemma Wait_origin_finish (g : Graceful) (G : errgroup.Group) (r : error) :
  (forall x, errgroup.first G = Some x -> Wait_error_origin g x) ->
  (forall x, r = Some x -> Wait_error_origin g x) ->
  forall x, errgroup.first (errgroup.finish r G) = Some x ->
            Wait_error_origin g x.
Proof.
  intros HG Hr x. unfold errgroup.finish.
  destruct r as [y|]; destruct (errgroup.first G) as [z|] eqn:E; simpl;
    intros Hx; rewrite ?E in Hx; inversion Hx; subst; auto.
Qed.

Lemma Wait_inv_step (g : Graceful) (w w' : wstate) (ev : wevent) :
  Wait_inv g w -> Wait_step g w ev = Some w' -> Wait_inv g w'.
Proof.
  intros (Ho & Hs & Hd) Hstep. unfold Wait_inv.
  destruct ev as [sg|e|k| |ev'|].
  - wait_cases Hstep. repeat split; auto. intros _. apply done_cancel.
  - wait_cases Hstep; repeat split; auto.
  - wait_cases Hstep. repeat split; auto.
    + apply Wait_origin_finish; [exact Ho|].
      intros x Hx. left. unfold task_failure. eauto.
    + intros Hb. now apply done_finish, Hd.
  - wait_cases Hstep; repeat split; auto; try discriminate.
    intros s Hsw. inversion Hsw; subst. now exists [].
  - wait_cases Hstep. repeat split; auto.
    + intros s1 Hsw. inversion Hsw; subst.
      destruct (Hs s eq_refl) as [tr Htr].
      exists (tr ++ [ev']). rewrite shutdown_run_app, Htr. simpl.
      match goal with H : shutdown_step _ _ _ = _ |- _ => now rewrite H end.
    + intros _. apply Hd. discriminate.
  - wait_cases Hstep. repeat split; auto; try discriminate.
    + apply Wait_origin_finish; [exact Ho|].
      intros x Hx. subst.
      destruct (Hs s eq_refl) as [tr Htr].
      match goal with
      | Hres : shutdown_result g s = Some _ |- _ =>
          apply shutdown_result_first in Hres
      end.
      destruct (shutdown_inv_holds g tr s Htr) as (_ & Hor & _ & _).
      unfold error_origin in Hor. unfold Wait_error_origin.
      destruct (ctxErr (errgroup.ctx (sgroup s))) as [[| |m]|];
        unfold error in *.
      * destruct Hor as [Hor|[Hor|(Hp & y & Hy & Hf)]]; try congruence.
        -- right. left. congruence.
        -- right. right. split; [exact Hp|]. congruence.
      * destruct Hor as (Hp & y & Hy & Hf).
        right. right. split; [exact Hp|]. congruence.
      * contradiction.
      * congruence.
    + intros _. apply done_finish, Hd. discriminate.
Qed.

Lemma Wait_inv_holds (g : Graceful) (tr : list wevent) (w : wstate) :
  Wait_run g (Wait_start g) tr = Some w -> Wait_inv g w.
Proof.
  apply (Wait_run_invariant g (Wait_inv g)).
  - intros w0 ev w1. apply Wait_inv_step.
  - repeat split; simpl; try discriminate. intros H. now contradiction H.
Qed.

(** X10. A failing task ends the wait.  When a registered task returns a
    failure while the task group holds no error, the group keeps that
    failure and cancels its context with it, so the goroutine of [Wait]
    gets through without any signal; whatever happens afterwards, the
    failure stays the group's error and is what [Wait] returns. *)
Theorem first_task_failure_is_what_Wait_returns
  (g : Graceful) (w1 : wstate) (k : nat) (f : Task) (x : err) :
  nth_error (group g) k = Some f ->
  nth_error (tasks w1) k = Some None ->
  f (errgroup.ctx (wgroup w1)) = Some x ->
  errgroup.first (wgroup w1) = None ->
  exists w2,
    Wait_step g w1 (TaskReturn k) = Some w2 /\
    errgroup.first (wgroup w2) = Some x /\
    done (errgroup.ctx (wgroup w2)) = true /\
    (waiter w1 = Blocked -> Wait_step g w2 Wake <> None) /\
    forall tr w3,
      Wait_run g w2 tr = Some w3 ->
      errgroup.first (wgroup w3) = Some x /\
      (forall r, Wait_result w3 = Some r -> r = Some x).
Proof.
  intros Hf Ht Hx Hnone.
  unfold Wait_step at 1. unfold error in *. rewrite Hf, Ht, Hx.
  eexists. split; [reflexivity|]. cbn [wgroup waiter].
  rewrite (finish_first_unset x _ Hnone). cbn [errgroup.first errgroup.ctx].
  split; [reflexivity|]. split; [apply done_cancel|]. split.
  - intros Hb. unfold Wait_step. cbn [waiter wgroup errgroup.ctx].
    rewrite Hb, done_cancel.
    destruct (Nat.ltb 0 (List.length (shutdowns g))); discriminate.
  - intros tr w3 Hrun.
    assert (H3 : errgroup.first (wgroup w3) = Some x)
      by (eapply Wait_first_error_kept; [|exact Hrun]; reflexivity).
    split; [exact H3|].
    intros r Hr. apply Wait_result_first in Hr. congruence.
Qed.

Lemma first_task_failure_is_what_Wait_returns_witness :
  exists w2,
    Wait_step Demo.failing (Wait_start Demo.failing) (TaskReturn 0) = Some w2 /\
    errgroup.first (wgroup w2) = Some (errorString "listen") /\
    Wait_step Demo.failing w2 Wake <> None.
Proof.
  destruct (first_task_failure_is_what_Wait_returns
              Demo.failing (Wait_start Demo.failing) 0
              (fun _ => Some (errorString "listen")) (errorString "listen")
              eq_refl eq_refl eq_refl eq_refl)
    as (w2 & Hstep & Hfirst & _ & Hwake & _).
  exists w2. split; [exact Hstep|]. split; [exact Hfirst|].
  apply Hwake. reflexivity.
Defined.

(** X11. [Wait] returns nil or a failure of the program's own: an error
    returned by a registered task, the deadline error of the shutdown, or,
    with [cancelOnError], an error returned by a hook.  The cancellation
    that a signal causes is never what [Wait] returns, unless a task or
    hook returns it itself. *)
Theorem Wait_returns_nil_or_a_failure_of_its_own
  (g : Graceful) (tr : list wevent) (w : wstate) (x : err) :
  Wait_run g (Wait_start g) tr = Some w ->
  Wait_result w = Some (Some x) ->
  (task_failure g x \/ x = DeadlineExceeded \/
   (cancelOnError g = true /\ hook_failure g x)) /\
  (x = Canceled ->
   task_failure g Canceled \/
   (cancelOnError g = true /\ hook_failure g Canceled)).
Proof.
  intros Hrun Hr. apply Wait_result_first in Hr.
  destruct (Wait_inv_holds g tr w Hrun) as (Ho & _ & _).
  assert (H : Wait_error_origin g x) by (apply Ho; now rewrite <- Hr).
  split; [exact H|].
  intros ->. destruct H as [H|[H|H]]; [now left | discriminate | now right].
Qed.

Lemma Wait_returns_nil_or_a_failure_of_its_own_witness :
  exists w,
    Wait_run Demo.strict (Wait_start Demo.strict)
      [SignalArrives syscall.SIGTERM; Wake; Shut Admit; Shut Admit;
       Shut (ProcReturn 0); Shut (SelectErr 0); Shut (SelectDone 1);
       ShutReturn; TaskReturn 0] = Some w /\
    (task_failure Demo.strict (errorString "boom") \/
     errorString "boom" = DeadlineExceeded \/
     (cancelOnError Demo.strict = true /\
      hook_failure Demo.strict (errorString "boom"))).
Proof.
  eassert (E : Wait_run Demo.strict (Wait_start Demo.strict)
                 [SignalArrives syscall.SIGTERM; Wake; Shut Admit; Shut Admit;
                  Shut (ProcReturn 0); Shut (SelectErr 0);
                  Shut (SelectDone 1); ShutReturn; TaskReturn 0] = Some _)
    by (vm_compute; reflexivity).
  eexists. split; [exact E|].
  apply (Wait_returns_nil_or_a_failure_of_its_own Demo.strict _ _ _ E).
  reflexivity.
Defined.

(** As long as no signal arrives, the parent context does not end and no
    task fails, the context of the task group stays live and the goroutine
    of [Wait] stays blocked. *)
Lemma Wait_stays_blocked (g : Graceful) :
  forall tr w w',
    (forall sg, ~ In (SignalArrives sg) tr) ->
    (forall e, ~ In (ParentDone e) tr) ->
    (exists e, In (Some (Some e)) (tasks w)) \/
    (done (errgroup.ctx (wgroup w)) = false /\ waiter w = Blocked) ->
    Wait_run g w tr = Some w' ->
    (exists e, In (Some (Some e)) (tasks w')) \/
    (done (errgroup.ctx (wgroup w')) = false /\ waiter w' = Blocked).
Proof.
  intros tr. induction tr as [|ev tr IH]; intros w w' Hns Hnp Hw Hrun.
  - simpl in Hrun. now inversion Hrun; subst.
  - simpl in Hrun. destruct (Wait_step g w ev) as [w1|] eqn:E;
      [|discriminate].
    apply (IH w1 w'); try exact Hrun.
    + intros sg Hin. apply (Hns sg). now right.
    + intros e Hin. apply (Hnp e). now right.
    + destruct Hw as [Hfailed|[Hlive Hb]];
        [left; eapply failed_task_stays; eassumption|].
      destruct ev as [sg|e|k| |ev'|].
      * exfalso. apply (Hns sg). now left.
      * exfalso. apply (Hnp e). now left.
      * wait_cases E.
        match goal with
        | |- context [Some (?t ?c)] => destruct (t c) as [e|] eqn:Er
        end.
        -- left. exists e. eapply In_set_nth_new. eassumption.
        -- right. split; assumption.
      * wait_cases E; congruence.
      * wait_cases E; congruence.
      * wait_cases E; congruence.
Qed.

(** X12. [Wait] does nothing until termination is asked for: in a run in
    which no signal has arrived, the parent context has not ended and no
    task has failed, the goroutine of [Wait] is still blocked, no hook has
    been started and [Wait] has not returned.  For an orchestrator made by
    [New], whose parent context never ends, a signal or a failing task is
    the only way out. *)
Theorem Wait_blocks_until_termination_is_asked_for
  (g : Graceful) (tr : list wevent) (w : wstate) :
  Wait_run g (Wait_start g) tr = Some w ->
  (forall sg, ~ In (SignalArrives sg) tr) ->
  no_task_failed w ->
  ((forall e, ~ In (ParentDone e) tr) ->
   waiter w = Blocked /\
   done (errgroup.ctx (wgroup w)) = false /\
   Wait_result w = None) /\
  (parent (signalCtx g) = Background ->
   waiter w = Blocked /\ Wait_result w = None).
Proof.
  intros Hrun Hns Hnf.
  assert (Hmain : (forall e, ~ In (ParentDone e) tr) ->
                  waiter w = Blocked /\
                  done (errgroup.ctx (wgroup w)) = false /\
                  Wait_result w = None).
  { intros Hnp.
    destruct (Wait_stays_blocked g tr (Wait_start g) w Hns Hnp) as
      [[e He]|[Hlive Hb]]; [right; split; reflexivity | exact Hrun | |].
    - exfalso. exact (Hnf e He).
    - split; [exact Hb|]. split; [exact Hlive|].
      unfold Wait_result, Wait_over. rewrite Hb.
      now rewrite andb_false_r. }
  split; [exact Hmain|].
  intros Hbg.
  assert (Hnp : forall e, ~ In (ParentDone e) tr).
  { clear Hmain Hns Hnf. revert Hrun. generalize (Wait_start g).
    induction tr as [|ev tr IH]; intros w0 Hrun e Hin; [destruct Hin|].
    simpl in Hrun. destruct (Wait_step g w0 ev) as [w1|] eqn:E;
      [|discriminate].
    destruct Hin as [Hin|Hin]; [|exact (IH w1 Hrun e Hin)].
    subst ev. unfold Wait_step in E. rewrite Hbg in E. discriminate. }
  destruct (Hmain Hnp) as (Hb & _ & Hr). now split.
Qed.

Lemma Wait_blocks_until_termination_is_asked_for_witness :
  exists w,
    Wait_run Demo.lenient (Wait_start Demo.lenient) [TaskReturn 0] = Some w /\
    waiter w = Blocked /\
    Wait_result w = None.
Proof.
  eassert (E : Wait_run Demo.lenient (Wait_start Demo.lenient)
                 [TaskReturn 0] = Some _) by (vm_compute; reflexivity).
  eexists. split; [exact E|].
  apply (Wait_blocks_until_termination_is_asked_for Demo.lenient _ _ E).
  - literal_trace.
  - literal_trace.
  - reflexivity.
Defined.

(** ** How long a [shutdown] call can go on *)

Lemma total_app (f : pstat -> nat) (a b : list (nat * pstat)) :
  total f (a ++ b) = total f a + total f b.
Proof. unfold total. now rewrite map_app, list_sum_app. Qed.

Lemma total_update (f : pstat -> nat) (i : nat) (v p : pstat)
  (l : list (nat * pstat)) :
  lookup i l = Some p ->
  total f (update i v l) + f p = total f l + f v.
Proof.
  unfold total. induction l as [|[j a] l IH]; simpl; [discriminate|].
  destruct (Nat.eqb i j); simpl.
  - intros H. inversion H; subst. lia.
  - intros H. specialize (IH H). lia.
Qed.

Lemma total_remove_key (f : pstat -> nat) (i : nat) (p : pstat)
  (l : list (nat * pstat)) :
  lookup i l = Some p ->
  total f (remove_key i l) + f p = total f l.
Proof.
  unfold total. induction l as [|[j a] l IH]; simpl; [discriminate|].
  destruct (Nat.eqb i j); simpl.
  - intros H. inversion H; subst. lia.
  - intros H. specialize (IH H). lia.
Qed.

Lemma total_single (f : pstat -> nat) (i : nat) (p : pstat) :
  total f [(i, p)] = f p.
Proof. unfold total. simpl. lia. Qed.

(** Every event but the passing of time uses up one unit of the work that
    is left. *)
Lemma work_left_step (g : Graceful) (st st' : sstate) (ev : sevent) :
  shutdown_step g st ev = Some st' ->
  work_left g st' + (if is_elapse ev then 0 else 1) = work_left g st.
Proof.
  intros Hstep. unfold work_left.
  destruct ev; step_cases Hstep; rewrite ?total_app, ?total_single; simpl;
    repeat match goal with
           | H : nth_error (shutdowns g) (next st) = Some _ |- _ =>
               assert (next st < List.length (shutdowns g))
                 by (apply nth_error_Some; rewrite H; discriminate);
               clear H
           | H : lookup ?i (units st) = Some ?p
             |- context [total ?f (update ?i ?v (units st))] =>
               pose proof (total_update f i v p (units st) H); clear H
           | H : lookup ?i (leaked st) = Some ?p
             |- context [total ?f (update ?i ?v (leaked st))] =>
               pose proof (total_update f i v p (leaked st) H); clear H
           | H : lookup ?i (units st) = Some ?p
             |- context [total ?f (remove_key ?i (units st))] =>
               pose proof (total_remove_key f i p (units st) H); clear H
           | H : (timerFired st || _)%bool = false |- _ =>
               apply orb_false_iff in H; destruct H as [H _]; rewrite H
           end;
    simpl in *; try destruct (timerFired st); try destruct p; simpl in *;
    lia.
Qed.

Lemma work_left_run (g : Graceful) :
  forall tr st st',
    shutdown_run g st tr = Some st' ->
    activity tr + work_left g st' = work_left g st.
Proof.
  intros tr. induction tr as [|ev tr IH]; intros st st' Hrun.
  - simpl in Hrun. now inversion Hrun.
  - simpl in Hrun. destruct (shutdown_step g st ev) as [st1|] eqn:E;
      [|discriminate].
    pose proof (work_left_step g st st1 ev E) as Hs.
    specialize (IH st1 st' Hrun).
    unfold activity in *. simpl. revert Hs.
    destruct (is_elapse ev); cbn [negb List.length]; intros Hs; lia.
Qed.

(** X13. A [shutdown] call over [n] hooks is over after at most [3n + 1]
    events, the passing of time apart: each hook is admitted once, its
    function returns at most once, its unit returns once, and the timer
    fires at most once.  What a run has done and what is left for it to do
    always add up to that number. *)
Theorem shutdown_activity_is_bounded
  (g : Graceful) (tr : list sevent) (st : sstate) :
  shutdown_run g shutdown_start tr = Some st ->
  activity tr + work_left g st = 3 * List.length (shutdowns g) + 1 /\
  activity tr <= 3 * List.length (shutdowns g) + 1.
Proof.
  intros Hrun. pose proof (work_left_run g tr shutdown_start st Hrun) as H.
  assert (H0 : work_left g shutdown_start = 3 * List.length (shutdowns g) + 1)
    by (unfold work_left, total, list_sum;
        cbn [shutdown_start next units leaked timerFired map fold_right];
        lia).
  lia.
Qed.

Lemma shutdown_activity_is_bounded_witness :
  activity [Admit; Elapse (10 * Second)%Z; Deadline; SelectDone 0; Admit;
            ProcReturn 0; ProcReturn 1; SelectDone 1] <= 7.
Proof.
  eassert (E : shutdown_run Demo.narrow shutdown_start
                 [Admit; Elapse (10 * Second)%Z; Deadline; SelectDone 0;
                  Admit; ProcReturn 0; ProcReturn 1; SelectDone 1] = Some _)
    by (vm_compute; reflexivity).
  exact (proj2 (shutdown_activity_is_bounded Demo.narrow _ _ E)).
Defined.

(** ** The revision with two slices: tags by position *)

Lemma indexed_do_calls_cons (c : Indexed.call) (cs : list Indexed.call)
  (g : Indexed.Graceful) :
  Indexed.do_calls (c :: cs) g = Indexed.do_calls cs (Indexed.do_call g c).
Proof. reflexivity. Qed.

(** The two slices grow together, by the registrations that pass a
    function. *)
Lemma indexed_slices (cs : list Indexed.call) :
  forall g,
    Indexed.shutdownTags (Indexed.do_calls cs g)
    = Indexed.shutdownTags g ++ map fst (Indexed.registrations cs) /\
    Indexed.shutdownProcess (Indexed.do_calls cs g)
    = Indexed.shutdownProcess g ++ map snd (Indexed.registrations cs).
Proof.
  induction cs as [|c cs IH]; intros g.
  - simpl. now rewrite !app_nil_r.
  - rewrite indexed_do_calls_cons.
    destruct (IH (Indexed.do_call g c)) as [Ht Hp]. rewrite Ht, Hp.
    destruct c as [v|d|m|[p|]|[p|]|[p|] t]; simpl;
      rewrite <- ?app_assoc; auto.
Qed.

Lemma indexed_do_calls_settings (cs : list Indexed.call) :
  forall g,
    (1 <= Indexed.maxShutdownProcess g)%Z ->
    (1 <= Indexed.maxShutdownTime g)%Z ->
    (1 <= Indexed.maxShutdownProcess (Indexed.do_calls cs g))%Z /\
    (1 <= Indexed.maxShutdownTime (Indexed.do_calls cs g))%Z.
Proof.
  induction cs as [|c cs IH]; intros g Hp Ht; [now split|].
  rewrite indexed_do_calls_cons. apply IH.
  - destruct c as [v|d|m|[p|]|[p|]|[p|] t]; simpl; auto.
    destruct (Z.ltb_spec m 1); unfold defaultMaxShutdownProcess; lia.
  - destruct c as [v|d|m|[p|]|[p|]|[p|] t]; simpl; auto.
    destruct (Z.ltb_spec d 1);
      unfold defaultMaxShutdownTime, Second; lia.
Qed.

Lemma positional_inj (i j : nat) :
  Indexed.positional i = Indexed.positional j -> i = j.
Proof.
  unfold Indexed.positional. simpl. intros H.
  injection H as H.
  apply (f_equal NilEmpty.uint_of_string) in H.
  rewrite !NilEmpty.usu in H. injection H as H.
  now apply Unsigned.to_uint_inj.
Qed.

Lemma createTag_some (g : Indexed.Graceful) (i : nat) :
  i < List.length (Indexed.shutdownTags g) <->
  exists t, Indexed.createTag g i = Some t.
Proof.
  unfold Indexed.createTag. split.
  - intros H. destruct (nth_error (Indexed.shutdownTags g) i) eqn:E.
    + eexists; reflexivity.
    + apply nth_error_None in E. lia.
  - intros [t H]. apply nth_error_Some.
    destruct (nth_error (Indexed.shutdownTags g) i); congruence.
Qed.

(** X14. In the revision that keeps tags and functions in two slices, an
    orchestrator built with [NewContext] and the exported methods has its
    two slices side by side: both list the registrations that passed a
    function, in order, so [createTag] finds a tag exactly for the indices
    of registered functions (the index of [g.shutdownTags[i]] is never out
    of range in the loop of [shutdown]); the hook registered k-th gets the
    tag it was given, or "process k" when the tag was empty or it was
    registered without one. *)
Theorem tags_and_functions_stay_side_by_side
  (ctx : Parent) (signals : list Signal) (cs : list Indexed.call) :
  let g := Indexed.do_calls cs (Indexed.NewContext ctx signals) in
  Indexed.shutdownTags g = map fst (Indexed.registrations cs) /\
  Indexed.shutdownProcess g = map snd (Indexed.registrations cs) /\
  (forall i, i < List.length (Indexed.shutdownProcess g) <->
             exists t, Indexed.createTag g i = Some t) /\
  (forall k t p,
     nth_error (Indexed.registrations cs) k = Some (t, p) ->
     nth_error (Indexed.shutdownProcess g) k = Some p /\
     Indexed.createTag g k
     = Some (if String.eqb t EmptyString
             then ("process " ++ NilEmpty.string_of_uint (Nat.to_uint k))%string
             else t)).
Proof.
  intros g.
  destruct (indexed_slices cs (Indexed.NewContext ctx signals)) as [Ht Hp].
  simpl in Ht, Hp. fold g in Ht, Hp.
  split; [exact Ht|]. split; [exact Hp|]. split.
  - intros i. rewrite <- createTag_some, Ht, Hp, !length_map. reflexivity.
  - intros k t p Hk. split.
    + rewrite Hp, nth_error_map, Hk. reflexivity.
    + unfold Indexed.createTag. rewrite Ht, nth_error_map, Hk. reflexivity.
Qed.

(** X15. The tags [createTag] makes up tell hooks apart: "process i" and
    "process j" are equal only for i = j, so two hooks registered without a
    tag never share one, and no tag that [createTag] returns is empty.  A
    tag that was passed in can still repeat a made-up one. *)
Theorem made_up_tags_tell_hooks_apart (g : Indexed.Graceful) (i j : nat)
  (Hi : nth_error (Indexed.shutdownTags g) i = Some EmptyString)
  (Hj : nth_error (Indexed.shutdownTags g) j = Some EmptyString)
  (Hij : i <> j) :
  Indexed.createTag g i = Some (Indexed.positional i) /\
  Indexed.createTag g j = Some (Indexed.positional j) /\
  Indexed.createTag g i <> Indexed.createTag g j /\
  (forall k t, Indexed.createTag g k = Some t -> t <> EmptyString) /\
  (exists cs k l,
     k <> l /\
     Indexed.createTag (Indexed.do_calls cs Indexed.New) k
     = Indexed.createTag (Indexed.do_calls cs Indexed.New) l /\
     Indexed.createTag (Indexed.do_calls cs Indexed.New) k <> None).
Proof.
  assert (Ei : Indexed.createTag g i = Some (Indexed.positional i))
    by (unfold Indexed.createTag; rewrite Hi; reflexivity).
  assert (Ej : Indexed.createTag g j = Some (Indexed.positional j))
    by (unfold Indexed.createTag; rewrite Hj; reflexivity).
  split; [exact Ei|]. split; [exact Ej|]. split.
  - rewrite Ei, Ej. intros H. apply Hij, positional_inj. congruence.
  - split.
    + intros k t H. unfold Indexed.createTag in H.
      destruct (nth_error (Indexed.shutdownTags g) k) as [t0|];
        [|discriminate].
      injection H as H. subst t.
      destruct (String.eqb_spec t0 EmptyString) as [E|E]; [|exact E].
      discriminate.
    + exists [ Indexed.CallRegisterShutdownProcessWithTag
                 (Some Demo.succeed) "process 1"%string;
               Indexed.CallRegisterShutdownProcess (Some Demo.succeed) ],
        0, 1.
      split; [discriminate|]. split; [reflexivity|discriminate].
Qed.

Lemma made_up_tags_tell_hooks_apart_witness :
  Indexed.createTag
    (Indexed.do_calls
       [ Indexed.CallRegisterShutdownProcess (Some Demo.succeed);
         Indexed.CallRegisterShutdownProcess (Some Demo.boom) ]
       Indexed.New) 0
  <> Indexed.createTag
       (Indexed.do_calls
          [ Indexed.CallRegisterShutdownProcess (Some Demo.succeed);
            Indexed.CallRegisterShutdownProcess (Some Demo.boom) ]
          Indexed.New) 1.
Proof.
  apply (made_up_tags_tell_hooks_apart
           (Indexed.do_calls
              [ Indexed.CallRegisterShutdownProcess (Some Demo.succeed);
                Indexed.CallRegisterShutdownProcess (Some Demo.boom) ]
              Indexed.New) 0 1);
    [reflexivity | reflexivity | discriminate].
Defined.

(** ** The revision with two slices: [shutdown] *)

Lemma indexed_run_app (g : Indexed.Graceful) (tr1 tr2 : list Indexed.sevent) :
  forall st,
    Indexed.shutdown_run g st (tr1 ++ tr2) =
    match Indexed.shutdown_run g st tr1 with
    | Some st' => Indexed.shutdown_run g st' tr2
    | None => None
    end.
Proof.
  induction tr1 as [|ev tr1 IH]; intros st; simpl; [reflexivity|].
  destruct (Indexed.shutdown_step g st ev); [apply IH | reflexivity].
Qed.

Lemma indexed_run_invariant (g : Indexed.Graceful)
  (P : Indexed.sstate -> Prop) :
  (forall st ev st',
     P st -> Indexed.shutdown_step g st ev = Some st' -> P st') ->
  forall tr st st',
    P st -> Indexed.shutdown_run g st tr = Some st' -> P st'.
Proof.
  intros Hstep tr. induction tr as [|ev tr IH]; intros st st' HP Hrun.
  - simpl in Hrun. now inversion Hrun; subst.
  - simpl in Hrun.
    destruct (Indexed.shutdown_step g st ev) as [st1|] eqn:E;
      [|discriminate].
    eapply IH; [eapply Hstep; eassumption | exact Hrun].
Qed.

Ltac indexed_cases H :=
  unfold Indexed.shutdown_step in H;
  repeat match type of H with
         | context [match ?x with _ => _ end] => destruct x eqn:?
         end;
  try discriminate H;
  inversion H; subst; clear H; cbn [Indexed.timerFired Indexed.elapsed
    Indexed.sgroup Indexed.next Indexed.units Indexed.returned
    Indexed.logs] in *.

Lemma remove_first_perm (i : nat) (l : list nat) :
  existsb (Nat.eqb i) l = true ->
  Permutation l (i :: Indexed.remove_first i l).
Proof.
  induction l as [|j l IH]; simpl; [discriminate|].
  destruct (Nat.eqb_spec i j) as [->|N]; simpl; intros H.
  - apply Permutation_refl.
  - rewrite perm_swap. apply perm_skip. now apply IH.
Qed.

Lemma remove_first_length (i : nat) (l : list nat) :
  existsb (Nat.eqb i) l = true ->
  S (List.length (Indexed.remove_first i l)) = List.length l.
Proof.
  intros H. apply remove_first_perm in H.
  apply Permutation_length in H. simpl in H. lia.
Qed.

Lemma indexed_inv_step (g : Indexed.Graceful) (st : Indexed.sstate)
  (ev : Indexed.sevent) (st' : Indexed.sstate) :
  Indexed.shutdown_inv g st ->
  Indexed.shutdown_step g st ev = Some st' ->
  Indexed.shutdown_inv g st'.
Proof.
  intros (Hn & Hperm & Hlog & Hfirst & Hctx) H.
  unfold Indexed.shutdown_inv. indexed_cases H.
  - (* Admit *)
    repeat split; auto.
    + assert (Indexed.next st < List.length (Indexed.shutdownProcess g))
        by (apply nth_error_Some; congruence). lia.
    + rewrite seq_S. simpl. rewrite <- Hperm, <- !app_assoc.
      apply Permutation_app_head, Permutation_app_comm.
  - (* UnitReturn, policy on *)
    repeat split; auto.
    + rewrite map_app. simpl. rewrite <- Hperm.
      rewrite (remove_first_perm i (Indexed.units st)) at 2 by assumption.
      rewrite app_assoc. rewrite Permutation_app_comm. reflexivity.
    + apply Forall2_app; [exact Hlog|]. constructor; [|constructor].
      exists s, p, (errgroup.ctx (Indexed.sgroup st)). simpl.
      rewrite Heqb0. auto.
    + unfold errgroup.finish.
      destruct (p (errgroup.ctx (Indexed.sgroup st))) as [x|] eqn:E;
        [|exact Hfirst].
      destruct (errgroup.first (Indexed.sgroup st)) eqn:F;
        [rewrite F; exact Hfirst|].
      right. split; [reflexivity|]. exists x. split; [reflexivity|].
      exists i, p, (errgroup.ctx (Indexed.sgroup st)). auto.
    + unfold errgroup.finish.
      destruct (p (errgroup.ctx (Indexed.sgroup st))) as [x|];
        [|exact Hctx].
      destruct (errgroup.first (Indexed.sgroup st)); [exact Hctx|].
      simpl. unfold cancel.
      destruct (done (errgroup.ctx (Indexed.sgroup st))); [exact Hctx|].
      simpl. discriminate.
  - (* UnitReturn, policy off *)
    repeat split; auto.
    + rewrite map_app. simpl. rewrite <- Hperm.
      rewrite (remove_first_perm i (Indexed.units st)) at 2 by assumption.
      rewrite app_assoc. rewrite Permutation_app_comm. reflexivity.
    + apply Forall2_app; [exact Hlog|]. constructor; [|constructor].
      exists s, p, (errgroup.ctx (Indexed.sgroup st)). simpl.
      rewrite Heqb0. auto.
  - (* Deadline *)
    repeat split; auto.
  - (* Elapse *)
    repeat split; auto.
Qed.

Lemma indexed_inv_holds (g : Indexed.Graceful) (tr : list Indexed.sevent)
  (st : Indexed.sstate) :
  Indexed.shutdown_run g Indexed.shutdown_start tr = Some st ->
  Indexed.shutdown_inv g st.
Proof.
  apply (indexed_run_invariant g (Indexed.shutdown_inv g)).
  - intros s ev s'. apply indexed_inv_step.
  - unfold Indexed.shutdown_inv. simpl.
    repeat split; auto; try lia; try discriminate.
Qed.

Lemma Forall2_In_left {A B : Type} (R : A -> B -> Prop) (l1 : list A)
  (l2 : list B) (a : A) :
  Forall2 R l1 l2 -> In a l1 -> exists b, In b l2 /\ R a b.
Proof.
  induction 1 as [|x y l1 l2 Hxy HF IH]; simpl; [contradiction|].
  intros [->|Hin].
  - exists y. auto.
  - destruct (IH Hin) as (b & Hb & HR). exists b. auto.
Qed.

Lemma NoDup_app_apart {A : Type} (a b : list A) (x : A) :
  NoDup (a ++ b) -> In x a -> ~ In x b.
Proof.
  induction a as [|y a IH]; simpl; intros ND Ha Hb; [contradiction|].
  inversion ND as [|? ? Hnot ND']; subst.
  destruct Ha as [->|Ha].
  - apply Hnot. apply in_or_app. now right.
  - now apply IH.
Qed.

Lemma existsb_eqb_In (i : nat) (l : list nat) :
  existsb (Nat.eqb i) l = true <-> In i l.
Proof.
  rewrite existsb_exists. split.
  - intros (x & Hx & E). apply Nat.eqb_eq in E. now subst.
  - intros H. exists i. split; [exact H | apply Nat.eqb_refl].
Qed.

Lemma indexed_units_limit (g : Indexed.Graceful) (tr : list Indexed.sevent)
  (st : Indexed.sstate) :
  (0 < Indexed.maxShutdownProcess g)%Z ->
  Indexed.shutdown_run g Indexed.shutdown_start tr = Some st ->
  (Z.of_nat (List.length (Indexed.units st))
   <= Indexed.maxShutdownProcess g)%Z.
Proof.
  intros Hcap.
  apply (indexed_run_invariant g
           (fun s => (Z.of_nat (List.length (Indexed.units s))
                      <= Indexed.maxShutdownProcess g)%Z)).
  - intros s ev s' HP H. indexed_cases H; auto.
    + rewrite length_app. simpl. unfold errgroup.hasSlot in Heqb.
      apply orb_true_iff in Heqb. destruct Heqb as [Hb|Hb].
      * apply Z.ltb_lt in Hb. lia.
      * apply Z.ltb_lt in Hb. lia.
    + pose proof (remove_first_length i (Indexed.units s) Heqb). lia.
    + pose proof (remove_first_length i (Indexed.units s) Heqb). lia.
  - simpl. lia.
Qed.

(** A unit that is inside its hook's function can return: the index it
    hands to [createTag] is in range. *)
Lemma indexed_unit_can_return (g : Indexed.Graceful) (st : Indexed.sstate)
  (i : nat) :
  List.length (Indexed.shutdownTags g)
  = List.length (Indexed.shutdownProcess g) ->
  Indexed.shutdown_inv g st ->
  In i (Indexed.units st) ->
  exists st',
    Indexed.shutdown_step g st (Indexed.UnitReturn i) = Some st' /\
    Indexed.units st' = Indexed.remove_first i (Indexed.units st) /\
    Indexed.next st' = Indexed.next st.
Proof.
  intros Hal (Hn & Hperm & _) Hin.
  assert (Hi : i < List.length (Indexed.shutdownProcess g)).
  { assert (In i (seq 0 (Indexed.next st))).
    { eapply Permutation_in; [exact Hperm|]. apply in_or_app. now left. }
    apply in_seq in H. lia. }
  destruct (proj1 (createTag_some g i)) as [t Ht]; [lia|].
  destruct (nth_error (Indexed.shutdownProcess g) i) as [p|] eqn:Ep;
    [|apply nth_error_None in Ep; lia].
  unfold Indexed.shutdown_step.
  rewrite (proj2 (existsb_eqb_In i (Indexed.units st)) Hin), Ht, Ep.
  eexists. split; [reflexivity|]. split; reflexivity.
Qed.

Lemma indexed_units_can_return (g : Indexed.Graceful) :
  List.length (Indexed.shutdownTags g)
  = List.length (Indexed.shutdownProcess g) ->
  forall k st,
    Indexed.shutdown_inv g st ->
    List.length (Indexed.units st) = k ->
    exists tr st',
      Indexed.shutdown_run g st tr = Some st' /\
      Indexed.shutdown_inv g st' /\
      Indexed.units st' = [] /\
      Indexed.next st' = Indexed.next st.
Proof.
  intros Hal k. induction k as [|k IH]; intros st Hinv Hlen.
  - exists [], st. simpl. split; [reflexivity|]. split; [exact Hinv|].
    split; [now apply length_zero_iff_nil | reflexivity].
  - destruct (Indexed.units st) as [|i rest] eqn:Eu; [discriminate|].
    destruct (indexed_unit_can_return g st i Hal Hinv) as (st1 & H1 & U1 & N1).
    { rewrite Eu. now left. }
    assert (Hinv1 : Indexed.shutdown_inv g st1)
      by (eapply indexed_inv_step; eassumption).
    destruct (IH st1 Hinv1) as (tr & st' & Hrun & Hinv' & U' & N').
    { rewrite U1, Eu. simpl. rewrite Nat.eqb_refl. simpl in Hlen. lia. }
    exists (Indexed.UnitReturn i :: tr), st'.
    cbn [Indexed.shutdown_run]. rewrite H1.
    split; [exact Hrun|]. split; [exact Hinv'|].
    split; [exact U' | congruence].
Qed.

Lemma indexed_rest_can_run (g : Indexed.Graceful) :
  List.length (Indexed.shutdownTags g)
  = List.length (Indexed.shutdownProcess g) ->
  errgroup.hasSlot (Indexed.maxShutdownProcess g) 0 = true ->
  forall m st,
    Indexed.shutdown_inv g st ->
    Indexed.units st = [] ->
    List.length (Indexed.shutdownProcess g) - Indexed.next st = m ->
    exists tr st',
      Indexed.shutdown_run g st tr = Some st' /\
      Indexed.shutdown_inv g st' /\
      Indexed.shutdown_over g st' = true.
Proof.
  intros Hal Hslot m. induction m as [|m IH]; intros st Hinv Hu Hm.
  - exists [], st. simpl. split; [reflexivity|]. split; [exact Hinv|].
    unfold Indexed.shutdown_over. rewrite Hu. simpl.
    destruct Hinv as (Hn & _). rewrite andb_true_r. apply Nat.eqb_eq. lia.
  - destruct (nth_error (Indexed.shutdownProcess g) (Indexed.next st))
      as [p|] eqn:Ep; [|apply nth_error_None in Ep; lia].
    assert (H1 : exists st1,
               Indexed.shutdown_step g st Indexed.Admit = Some st1 /\
               Indexed.units st1 = [Indexed.next st] /\
               Indexed.next st1 = S (Indexed.next st)).
    { unfold Indexed.shutdown_step. rewrite Ep, Hu. simpl List.length.
      rewrite Hslot. eexists. split; [reflexivity|]. split; reflexivity. }
    destruct H1 as (st1 & H1 & U1 & N1).
    assert (Hinv1 : Indexed.shutdown_inv g st1)
      by (eapply indexed_inv_step; eassumption).
    destruct (indexed_unit_can_return g st1 (Indexed.next st) Hal Hinv1)
      as (st2 & H2 & U2 & N2).
    { rewrite U1. now left. }
    assert (Hinv2 : Indexed.shutdown_inv g st2)
      by (eapply indexed_inv_step; eassumption).
    destruct (IH st2 Hinv2) as (tr & st' & Hrun & Hinv' & Hover).
    { rewrite U2, U1. simpl. now rewrite Nat.eqb_refl. }
    { rewrite N2, N1. lia. }
    exists (Indexed.Admit :: Indexed.UnitReturn (Indexed.next st) :: tr), st'.
    cbn [Indexed.shutdown_run]. rewrite H1, H2. auto.
Qed.

(** X16. In the revision with two slices [shutdown] returns only after the
    function of every registered hook has returned and its outcome has been
    logged, whether or not the deadline has passed: at the return every
    index has been handed back by exactly one goroutine, there are as many
    log lines as hooks, and each hook has its line, under the tag
    [createTag] gives it.  A goroutine that has not got its function back
    keeps [shutdown] from returning. *)
Theorem shutdown_returns_after_every_hook
  (g : Indexed.Graceful) (tr : list Indexed.sevent) (st : Indexed.sstate)
  (e : error)
  (Hrun : Indexed.shutdown_run g Indexed.shutdown_start tr = Some st)
  (Hres : Indexed.shutdown_result g st = Some e) :
  Indexed.units st = [] /\
  Permutation (map fst (Indexed.returned st))
              (seq 0 (List.length (Indexed.shutdownProcess g))) /\
  List.length (Indexed.logs st) = List.length (Indexed.shutdownProcess g) /\
  (forall i, i < List.length (Indexed.shutdownProcess g) ->
     exists tag0 p c,
       Indexed.createTag g i = Some tag0 /\
       nth_error (Indexed.shutdownProcess g) i = Some p /\
       In (Indexed.log_outcome tag0 (p c)) (Indexed.logs st)).
Proof.
  destruct (indexed_inv_holds g tr st Hrun) as (Hn & Hperm & Hlog & _).
  unfold Indexed.shutdown_result in Hres.
  destruct (Indexed.shutdown_over g st) eqn:Hover; [|discriminate].
  unfold Indexed.shutdown_over in Hover. apply andb_true_iff in Hover.
  destruct Hover as [Hnext Hunits].
  apply Nat.eqb_eq in Hnext. apply Nat.eqb_eq in Hunits.
  apply length_zero_iff_nil in Hunits.
  rewrite Hunits, Hnext in Hperm. simpl in Hperm.
  split; [exact Hunits|]. split; [exact Hperm|]. split.
  - rewrite <- (Forall2_length Hlog).
    apply Permutation_length in Hperm.
    now rewrite length_map, length_seq in Hperm.
  - intros i Hi.
    assert (Hin : In i (map fst (Indexed.returned st))).
    { eapply Permutation_in; [apply Permutation_sym; exact Hperm|].
      apply in_seq. lia. }
    apply in_map_iff in Hin. destruct Hin as ([j r] & Ej & Hin).
    simpl in Ej. subst j.
    destruct (Forall2_In_left _ _ _ _ Hlog Hin)
      as (l & Hl & tag0 & p & c & Ht & Hp & El & _).
    simpl in Ht, Hp. exists tag0, p, c. subst l. auto.
Qed.

Lemma shutdown_returns_after_every_hook_witness :
  exists st,
    Indexed.shutdown_run Demo.indexed Indexed.shutdown_start
      [ Indexed.Admit; Indexed.Elapse (10 * Second)%Z; Indexed.Deadline;
        Indexed.UnitReturn 0; Indexed.Admit; Indexed.UnitReturn 1 ]
    = Some st /\
    Indexed.timerFired st = true /\
    Indexed.shutdown_result Demo.indexed st = Some None /\
    List.length (Indexed.logs st) = 2.
Proof.
  eassert (E : Indexed.shutdown_run Demo.indexed Indexed.shutdown_start
                 [ Indexed.Admit; Indexed.Elapse (10 * Second)%Z;
                   Indexed.Deadline; Indexed.UnitReturn 0; Indexed.Admit;
                   Indexed.UnitReturn 1 ] = Some _)
    by (vm_compute; reflexivity).
  match type of E with
  | _ = Some ?x =>
      exists x; split; [exact E|]; split; [reflexivity|];
      split; [reflexivity|];
      exact (proj1 (proj2 (proj2
               (shutdown_returns_after_every_hook Demo.indexed _ x None E
                  eq_refl))))
  end.
Defined.

(** X17. In the revision with two slices the error of [shutdown] is nil or,
    under SetCancelOnError(true), an error that a hook's function returned.
    With the policy off it is nil, and so it is when no hook fails: the
    deadline only ends the context the hooks get (which shows
    DeadlineExceeded only once the timer has fired) and is never the error
    of [shutdown] unless a hook hands it back. *)
Theorem only_hooks_make_shutdown_fail
  (g : Indexed.Graceful) (tr : list Indexed.sevent) (st : Indexed.sstate)
  (Hrun : Indexed.shutdown_run g Indexed.shutdown_start tr = Some st) :
  (errgroup.first (Indexed.sgroup st) = None \/
   Indexed.cancelOnError g = true /\
   exists x, errgroup.first (Indexed.sgroup st) = Some x /\
             Indexed.hook_failure g x) /\
  (Indexed.cancelOnError g = false ->
   errgroup.first (Indexed.sgroup st) = None) /\
  ((forall j p c, nth_error (Indexed.shutdownProcess g) j = Some p ->
                  p c = None) ->
   errgroup.first (Indexed.sgroup st) = None) /\
  (ctxErr (errgroup.ctx (Indexed.sgroup st)) = Some DeadlineExceeded ->
   Indexed.timerFired st = true).
Proof.
  destruct (indexed_inv_holds g tr st Hrun)
    as (_ & _ & _ & Hfirst & Hctx).
  split; [exact Hfirst|]. split; [|split; [|exact Hctx]].
  - intros Hoff. destruct Hfirst as [H|[H _]]; [exact H|congruence].
  - intros Hnone. destruct Hfirst as [H|(_ & x & _ & j & p & c & Hp & Hx)];
      [exact H|].
    rewrite (Hnone j p c Hp) in Hx. discriminate.
Qed.

Lemma only_hooks_make_shutdown_fail_witness :
  exists st,
    Indexed.shutdown_run Demo.indexed_strict Indexed.shutdown_start
      [ Indexed.Admit; Indexed.Elapse (10 * Second)%Z; Indexed.Deadline;
        Indexed.UnitReturn 0; Indexed.Admit; Indexed.UnitReturn 1 ]
    = Some st /\
    Indexed.shutdown_result Demo.indexed_strict st
    = Some (Some (errorString "boom"%string)) /\
    Indexed.hook_failure Demo.indexed_strict (errorString "boom"%string).
Proof.
  eassert (E : Indexed.shutdown_run Demo.indexed_strict
                 Indexed.shutdown_start
                 [ Indexed.Admit; Indexed.Elapse (10 * Second)%Z;
                   Indexed.Deadline; Indexed.UnitReturn 0; Indexed.Admit;
                   Indexed.UnitReturn 1 ] = Some _)
    by (vm_compute; reflexivity).
  match type of E with
  | _ = Some ?x =>
      exists x; split; [exact E|]; split; [reflexivity|];
      destruct (proj1 (only_hooks_make_shutdown_fail
                         Demo.indexed_strict _ x E))
        as [H|(_ & y & Hy & Hf)];
      [discriminate H | injection Hy as <-; exact Hf]
  end.
Defined.

(** X18. In the revision with two slices a goroutine of the group stays
    with its hook's function until that returns, so with a positive
    SetMaxShutdownProcess no more hook functions are running at any moment
    than the limit allows, and the hooks start in the order of their
    registration. *)
Theorem running_hook_functions_stay_within_the_limit
  (g : Indexed.Graceful) (tr : list Indexed.sevent) (st : Indexed.sstate)
  (Hcap : (0 < Indexed.maxShutdownProcess g)%Z)
  (Hrun : Indexed.shutdown_run g Indexed.shutdown_start tr = Some st) :
  (Z.of_nat (List.length (Indexed.units st))
   <= Indexed.maxShutdownProcess g)%Z /\
  Permutation (Indexed.units st ++ map fst (Indexed.returned st))
              (seq 0 (Indexed.next st)) /\
  (forall i, In i (Indexed.units st) ->
             ~ In i (map fst (Indexed.returned st))) /\
  (forall st', Indexed.shutdown_step g st Indexed.Admit = Some st' ->
               (Z.of_nat (List.length (Indexed.units st))
                < Indexed.maxShutdownProcess g)%Z /\
               Indexed.units st' = Indexed.units st ++ [Indexed.next st]).
Proof.
  split; [now apply (indexed_units_limit g tr)|].
  destruct (indexed_inv_holds g tr st Hrun) as (_ & Hperm & _).
  split; [exact Hperm|]. split.
  - intros i Hu Hr.
    assert (ND : NoDup (Indexed.units st ++ map fst (Indexed.returned st))).
    { eapply Permutation_NoDup; [apply Permutation_sym; exact Hperm|].
      apply seq_NoDup. }
    exact (NoDup_app_apart _ _ i ND Hu Hr).
  - intros st' H. indexed_cases H. split; [|reflexivity].
    unfold errgroup.hasSlot in Heqb. apply orb_true_iff in Heqb.
    destruct Heqb as [Hb|Hb]; apply Z.ltb_lt in Hb; lia.
Qed.

Lemma running_hook_functions_stay_within_the_limit_witness :
  exists st,
    Indexed.shutdown_run Demo.indexed Indexed.shutdown_start
      [Indexed.Admit] = Some st /\
    Indexed.shutdown_step Demo.indexed st Indexed.Admit = None /\
    (Z.of_nat (List.length (Indexed.units st)) <= 1)%Z.
Proof.
  eassert (E : Indexed.shutdown_run Demo.indexed Indexed.shutdown_start
                 [Indexed.Admit] = Some _)
    by (vm_compute; reflexivity).
  match type of E with
  | _ = Some ?x =>
      exists x; split; [exact E|]; split; [reflexivity|];
      exact (proj1 (running_hook_functions_stay_within_the_limit
                      Demo.indexed [Indexed.Admit] x eq_refl E))
  end.
Defined.

(** X19. In the revision with two slices [shutdown] of an orchestrator
    built with [NewContext] and the exported methods never gets stuck and
    never indexes past the tags: from every state it can reach, each
    goroutine that is inside its hook's function can return, and some
    continuation brings [shutdown] to its return. *)
Theorem built_shutdown_can_always_return
  (ctx : Parent) (signals : list Signal) (cs : list Indexed.call)
  (tr : list Indexed.sevent) (st : Indexed.sstate)
  (Hrun : Indexed.shutdown_run
            (Indexed.do_calls cs (Indexed.NewContext ctx signals))
            Indexed.shutdown_start tr = Some st) :
  let g := Indexed.do_calls cs (Indexed.NewContext ctx signals) in
  (forall i, In i (Indexed.units st) ->
     exists st', Indexed.shutdown_step g st (Indexed.UnitReturn i)
                 = Some st') /\
  (exists tr' st' e,
     Indexed.shutdown_run g Indexed.shutdown_start (tr ++ tr') = Some st' /\
     Indexed.shutdown_result g st' = Some e).
Proof.
  intros g.
  assert (Hal : List.length (Indexed.shutdownTags g)
                = List.length (Indexed.shutdownProcess g)).
  { destruct (indexed_slices cs (Indexed.NewContext ctx signals))
      as [Ht Hp]. fold g in Ht, Hp. rewrite Ht, Hp. simpl.
    now rewrite !length_map. }
  assert (Hslot : errgroup.hasSlot (Indexed.maxShutdownProcess g) 0 = true).
  { destruct (indexed_do_calls_settings cs (Indexed.NewContext ctx signals))
      as [Hc _]; [simpl; unfold defaultMaxShutdownProcess; lia
                 |simpl; unfold defaultMaxShutdownTime, Second; lia|].
    fold g in Hc. unfold errgroup.hasSlot. apply orb_true_iff. right.
    apply Z.ltb_lt. simpl. lia. }
  pose proof (indexed_inv_holds g tr st Hrun) as Hinv.
  split.
  - intros i Hin.
    destruct (indexed_unit_can_return g st i Hal Hinv Hin) as (st' & H & _).
    exists st'. exact H.
  - destruct (indexed_units_can_return g Hal _ st Hinv eq_refl)
      as (tr1 & st1 & Hrun1 & Hinv1 & U1 & _).
    destruct (indexed_rest_can_run g Hal Hslot _ st1 Hinv1 U1 eq_refl)
      as (tr2 & st2 & Hrun2 & _ & Hover).
    exists (tr1 ++ tr2), st2, (errgroup.first (Indexed.sgroup st2)).
    split.
    + rewrite indexed_run_app. fold g in Hrun. rewrite Hrun.
      rewrite indexed_run_app, Hrun1. exact Hrun2.
    + unfold Indexed.shutdown_result. now rewrite Hover.
Qed.

Lemma built_shutdown_can_always_return_witness :
  exists st tr' st' e,
    Indexed.shutdown_run Demo.indexed Indexed.shutdown_start
      [Indexed.Admit] = Some st /\
    Indexed.shutdown_run Demo.indexed Indexed.shutdown_start
      ([Indexed.Admit] ++ tr') = Some st' /\
    Indexed.shutdown_result Demo.indexed st' = Some e.
Proof.
  eassert (E : Indexed.shutdown_run
                 (Indexed.do_calls Demo.indexed_calls
                    (Indexed.NewContext Background defaultSignals))
                 Indexed.shutdown_start [Indexed.Admit] = Some _)
    by (vm_compute; reflexivity).
  match type of E with
  | _ = Some ?x =>
      destruct (proj2 (built_shutdown_can_always_return
                         Background defaultSignals Demo.indexed_calls
                         [Indexed.Admit] x E))
        as (tr' & st' & e & Hrun & Hres);
      exists x, tr', st', e; split; [exact E|]; split; assumption
  end.
Defined.

(** * The error policy over whole runs *)

(** ** Without the policy *)

(** A unit that leaves through [ctx.Done()] leaves an error in the group,
    which stays. *)
Lemma abandon_leaves_error (g : Graceful) :
  forall tr st st' i,
    shutdown_run g st tr = Some st' ->
    In (SelectDone i) tr ->
    errgroup.first (sgroup st') <> None.
Proof.
  intros tr. induction tr as [|ev tr IH]; intros st st' i Hrun Hin;
    [destruct Hin|].
  cbn [shutdown_run] in Hrun.
  destruct (shutdown_step g st ev) as [st1|] eqn:E; [|discriminate].
  destruct Hin as [->|Hin]; [|exact (IH st1 st' i Hrun Hin)].
  assert (H1 : errgroup.first (sgroup st1) <> None).
  { step_cases E. apply finish_keeps_error. right. discriminate. }
  refine (shutdown_run_invariant g
            (fun s => errgroup.first (sgroup s) <> None) _ tr st1 st' H1 Hrun).
  intros s ev s' Hs Hstep. exact (first_error_kept g s s' ev Hstep Hs).
Qed.

(** Without the policy the only error the group can hold is the deadline
    error, and it holds it once a unit has been abandoned. *)
Lemma lenient_abandon_is_deadline (g : Graceful) :
  cancelOnError g = false ->
  forall tr st i,
    shutdown_run g shutdown_start tr = Some st ->
    In (SelectDone i) tr ->
    errgroup.first (sgroup st) = Some DeadlineExceeded.
Proof.
  intros Hpol tr st i Hrun Hin.
  pose proof (abandon_leaves_error g tr shutdown_start st i Hrun Hin) as Hne.
  destruct (shutdown_inv_holds g tr st Hrun) as (_ & Ho & _).
  unfold error_origin in Ho.
  destruct (ctxErr (errgroup.ctx (sgroup st))) as [[| |m]|].
  - destruct Ho as [H|[H|[H _]]]; [contradiction | exact H | congruence].
  - destruct Ho as [H _]. congruence.
  - contradiction.
  - contradiction.
Qed.

(** C1. Without [cancelOnError], and when no unit is abandoned (every unit
    takes what its hook's function returned, none leaves through
    [ctx.Done()]): the shutdown group keeps no error whatever the functions
    return, so [shutdown] returns nil, after one log line per hook; a unit
    that reads a failure logs it, returns nil and leaves the group as it
    was; [Wait] returns nil unless a registered task failed; such a run to
    the end exists for every configured orchestrator; no unit is abandoned
    in a run in which the deadline does not fire; and when a signal
    arrives and the tasks return nil there is a run of [Wait] to its end,
    which returns nil.  That the functions return before the deadline fires
    is not enough: once a unit has left through [ctx.Done()] the deadline
    error is the error of the group, and is what [shutdown] returns. *)
Theorem lenient_shutdown_succeeds (g : Graceful) :
  cancelOnError g = false ->
  (forall tr st,
     shutdown_run g shutdown_start tr = Some st ->
     no_abandon tr ->
     errgroup.first (sgroup st) = None /\
     (forall r, shutdown_result g st = Some r ->
                r = None /\
                List.length (logs st) = List.length (shutdowns g)) /\
     (forall i s e,
        nth_error (shutdowns g) i = Some s ->
        lookup i (units st) = Some (Sending e) ->
        exists st',
          shutdown_step g st (SelectErr i) = Some st' /\
          logs st' = logs st ++ [log_outcome s e] /\
          returned st' = returned st ++ [(i, None)] /\
          sgroup st' = sgroup st)) /\
  (forall tr w r,
     Wait_run g (Wait_start g) tr = Some w ->
     no_abandon_in_Wait tr ->
     no_task_failed w ->
     Wait_result w = Some r ->
     r = None) /\
  (configured g ->
   exists tr st,
     shutdown_run g shutdown_start tr = Some st /\
     no_abandon tr /\
     shutdown_result g st = Some None) /\
  (forall tr st,
     shutdown_run g shutdown_start tr = Some st ->
     ~ In Deadline tr ->
     no_abandon tr) /\
  (configured g ->
   forall sg,
     In sg (notify (signalCtx g)) ->
     (forall f c, In f (group g) -> f c = None) ->
     exists tr w,
       Wait_run g (Wait_start g) tr = Some w /\
       no_abandon_in_Wait tr /\
       no_task_failed w /\
       Wait_result w = Some None) /\
  (forall tr st i,
     shutdown_run g shutdown_start tr = Some st ->
     In (SelectDone i) tr ->
     errgroup.first (sgroup st) = Some DeadlineExceeded /\
     (forall r, shutdown_result g st = Some r ->
                r = Some DeadlineExceeded)).
Proof.
  intros Hpol. split; [|split; [|split; [|split; [|split]]]].
  - intros tr st Hrun Hna.
    destruct (lenient_run_keeps_nil g Hpol tr shutdown_start st Hna
                eq_refl Hrun) as [Hnil Hleak].
    split; [exact Hnil|]. split.
    + intros r Hr. split.
      * apply shutdown_result_first in Hr. congruence.
      * destruct (shutdown_bookkeeping g tr st Hrun) as [Hb _].
        unfold shutdown_result in Hr.
        destruct (shutdown_over g st) eqn:Ho; [|discriminate].
        unfold shutdown_over in Ho. apply andb_true_iff in Ho.
        destruct Ho as [Ho1 Ho2].
        apply Nat.eqb_eq in Ho1, Ho2. simpl in Hleak. lia.
    + intros i s e Hs Hu. unfold shutdown_step. rewrite Hs, Hu, Hpol.
      eexists. split; [reflexivity|]. simpl.
      repeat split.
  - intros tr w r Hrun Hna Htasks Hr.
    destruct (lenient_Wait_keeps_nil g Hpol tr (Wait_start g) w Hna)
      as [[e He]|[Hq _]]; [right; split; [reflexivity | exact I] | exact Hrun | |].
    + exfalso. exact (Htasks e He).
    + apply Wait_result_first in Hr. congruence.
  - intros Hc.
    destruct (one_by_one_runs g Hc (List.length (shutdowns g)) 0
                shutdown_start)
      as (st & Hrun & Hn & Hu & Hg); [reflexivity | reflexivity | reflexivity|].
    exists (one_by_one 0 (List.length (shutdowns g))), st.
    split; [exact Hrun|]. split; [apply one_by_one_no_abandon|].
    unfold shutdown_result, shutdown_over.
    rewrite Hn, Hu, Nat.eqb_refl. simpl. now rewrite (Hg Hpol).
  - intros tr st Hrun Hnd.
    exact (lenient_no_deadline_no_abandon g Hpol tr shutdown_start st
             eq_refl Hnd Hrun).
  - intros Hc sg Hsg Hnil.
    destruct (quiet_run_returns_nil g sg Hc Hpol Hsg Hnil)
      as (w & Hrun & Htasks & Hr).
    exists (quiet_run sg g), w.
    split; [exact Hrun|]. split; [apply quiet_run_no_abandon|].
    split; assumption.
  - intros tr st i Hrun Hin.
    pose proof (lenient_abandon_is_deadline g Hpol tr st i Hrun Hin) as Hd.
    split; [exact Hd|].
    intros r Hr. apply shutdown_result_first in Hr. congruence.
Qed.

Lemma lenient_shutdown_succeeds_witness :
  (exists st,
     shutdown_run Demo.lenient shutdown_start
       [Admit; Admit; ProcReturn 1; ProcReturn 0; SelectErr 0; SelectErr 1]
     = Some st /\
     errgroup.first (sgroup st) = None) /\
  (exists w,
     Wait_run Demo.lenient (Wait_start Demo.lenient)
       [SignalArrives syscall.SIGTERM; Wake; TaskReturn 0;
        Shut Admit; Shut Admit; Shut (ProcReturn 0); Shut (ProcReturn 1);
        Shut (SelectErr 1); Shut (SelectErr 0); ShutReturn]
     = Some w /\
     Wait_result w = Some None).
Proof.
  destruct (lenient_shutdown_succeeds Demo.lenient eq_refl)
    as (Hshutdown & HWait & _).
  split.
  - match goal with
    | |- exists st, ?run = _ /\ _ => destruct run as [st|] eqn:E
    end; [|vm_compute in E; discriminate E].
    exists st. split; [reflexivity|].
    destruct (Hshutdown _ st E) as [Hnil _]; [literal_trace | exact Hnil].
  - match goal with
    | |- exists w, ?run = _ /\ _ => destruct run as [w|] eqn:E
    end; [|vm_compute in E; discriminate E].
    exists w. split; [reflexivity|].
    assert (Hover : Wait_result w = Some (errgroup.first (wgroup w)))
      by (vm_compute in E; inversion E; reflexivity).
    rewrite Hover. f_equal.
    eapply HWait; [exact E | literal_trace | | exact Hover].
    vm_compute in E. inversion E. literal_trace.
Defined.

(** C1 does not hold as stated: that every function returns before the
    deadline fires does not make [shutdown] return nil.  Both hooks are
    admitted and both functions return at once; ten seconds later the timer
    fires while the unit of hook 0 has not yet taken what its function
    sent.  With both cases of its [select] ready the unit leaves through
    [ctx.Done()]: it returns the deadline error, which the group keeps, the
    failure of hook 0 is never logged, and [shutdown], and with it [Wait],
    returns the deadline error although no task failed. *)
Lemma returned_function_can_lose_to_the_deadline :
  exists st w,
    cancelOnError Demo.lenient = false /\
    functions_return_in_time Demo.lenient Demo.raced /\
    shutdown_run Demo.lenient shutdown_start Demo.raced = Some st /\
    In (0, Some DeadlineExceeded) (returned st) /\
    List.length (logs st) = 1 /\
    shutdown_result Demo.lenient st = Some (Some DeadlineExceeded) /\
    shutdown_result Demo.lenient st <> Some None /\
    Wait_run Demo.lenient (Wait_start Demo.lenient)
      (SignalArrives syscall.SIGTERM :: Wake :: TaskReturn 0
       :: map Shut Demo.raced ++ [ShutReturn]) = Some w /\
    no_task_failed w /\
    Wait_result w = Some (Some DeadlineExceeded).
Proof.
  do 2 eexists.
  split; [reflexivity|].
  split.
  { intros i Hi. simpl in Hi.
    destruct i as [|[|i]]; simpl; [tauto | tauto | lia]. }
  split; [vm_compute; reflexivity|].
  split; [simpl; left; reflexivity|].
  split; [reflexivity|].
  split; [reflexivity|].
  split; [discriminate|].
  split; [vm_compute; reflexivity|].
  split; [|reflexivity].
  intros e Hin. simpl in Hin. destruct Hin as [Hin|[]]. discriminate Hin.
Qed.

(** ** With the policy *)

Lemma length_set_nth {A : Type} (v : A) (l : list A) :
  forall k, List.length (set_nth k v l) = List.length l.
Proof.
  induction l as [|a l IH]; intros k; destruct k; simpl; auto.
Qed.

Lemma nth_error_set_nth_same {A : Type} (v : A) (l : list A) :
  forall k, k < List.length l -> nth_error (set_nth k v l) k = Some v.
Proof.
  induction l as [|a l IH]; intros k Hk; simpl in Hk; [lia|].
  destruct k as [|k]; simpl; [reflexivity|]. apply IH. lia.
Qed.

Lemma nth_error_set_nth_other {A : Type} (v : A) (l : list A) :
  forall k j, j <> k -> nth_error (set_nth k v l) j = nth_error l j.
Proof.
  induction l as [|a l IH]; intros k j Hjk; destruct k, j; simpl; auto.
  contradiction.
Qed.

(** There is one entry in [tasks] for each goroutine of the task group. *)
Lemma tasks_length (g : Graceful) (tr : list wevent) (w : wstate) :
  Wait_run g (Wait_start g) tr = Some w ->
  List.length (tasks w) = List.length (group g).
Proof.
  apply (Wait_run_invariant g
           (fun w0 => List.length (tasks w0) = List.length (group g))).
  - intros w0 ev w1 H Hstep.
    destruct ev; wait_cases Hstep; auto. now rewrite length_set_nth.
  - simpl. apply length_map.
Qed.

(** The tasks that have not returned can return, whatever they return. *)
Lemma tasks_can_return (g : Graceful) :
  forall count from w,
    from + count = List.length (group g) ->
    List.length (tasks w) = List.length (group g) ->
    (forall k, k < from -> exists r, nth_error (tasks w) k = Some (Some r)) ->
    exists tr w',
      Wait_run g w tr = Some w' /\
      forallb hasReturned (tasks w') = true /\
      waiter w' = waiter w.
Proof.
  intros count. induction count as [|count IH]; intros from w Hlen Ht Hdone.
  - exists [], w. split; [reflexivity|]. split; [|reflexivity].
    apply forallb_forall. intros x Hx.
    apply In_nth_error in Hx. destruct Hx as [k Hk].
    assert (Hlt : k < List.length (tasks w))
      by (apply nth_error_Some; congruence).
    destruct (Hdone k) as [r Hr]; [lia|].
    rewrite Hk in Hr. inversion Hr. reflexivity.
  - destruct (nth_error (tasks w) from) as [t|] eqn:Et;
      [|apply nth_error_None in Et; lia].
    destruct t as [r|].
    + apply (IH (S from) w); [lia | exact Ht |].
      intros k Hk. destruct (Nat.eq_dec k from) as [->|Hne].
      * exists r. exact Et.
      * apply Hdone. lia.
    + destruct (nth_error (group g) from) as [f|] eqn:Ef;
        [|apply nth_error_None in Ef; lia].
      assert (Hstep :
                Wait_step g w (TaskReturn from)
                = Some (mkW (errgroup.finish (f (errgroup.ctx (wgroup w)))
                                             (wgroup w))
                            (set_nth from
                                     (Some (f (errgroup.ctx (wgroup w))))
                                     (tasks w))
                            (waiter w)))
        by (unfold Wait_step; rewrite Ef, Et; reflexivity).
      match type of Hstep with
      | _ = Some ?w1 => destruct (IH (S from) w1) as (tr & w' & Hrun & Hall & Hw)
      end.
      * lia.
      * simpl. now rewrite length_set_nth.
      * intros k Hk. simpl. destruct (Nat.eq_dec k from) as [->|Hne].
        -- eexists. apply nth_error_set_nth_same. lia.
        -- rewrite nth_error_set_nth_other by exact Hne. apply Hdone. lia.
      * exists (TaskReturn from :: tr), w'.
        cbn [Wait_run]. rewrite Hstep. auto.
Qed.

(** Once inside [shutdown], a run of [Wait] of a configured orchestrator
    can go on to the return of [Wait]: the shutdown call can return, and
    then the tasks. *)
Lemma Wait_can_return_from_shutdown (g : Graceful) :
  configured g ->
  forall tr w s,
    Wait_run g (Wait_start g) tr = Some w ->
    waiter w = InShutdown s ->
    exists tr' w',
      Wait_run g w tr' = Some w' /\ Wait_over w' = true.
Proof.
  intros Hc tr w s Hrun Hw.
  pose proof (tasks_length g tr w Hrun) as Hlen.
  destruct (Wait_inv_holds g tr w Hrun) as (_ & Hreach & _).
  destruct (Hreach s Hw) as [str Hstr].
  destruct (shutdown_can_return g Hc str s Hstr) as (tr1 & s1 & Hrun1 & Hover).
  destruct w as [G ts ph]. simpl in Hw, Hlen. subst ph.
  pose proof (Wait_lifts_shutdown g G ts tr1 s s1 Hrun1) as Hlift.
  assert (Hret : Wait_step g (mkW G ts (InShutdown s1)) ShutReturn
                 = Some (mkW (errgroup.finish (errgroup.first (sgroup s1)) G)
                             ts (Returned (errgroup.first (sgroup s1)))))
    by (unfold Wait_step, shutdown_result; simpl; now rewrite Hover).
  match type of Hret with
  | _ = Some ?w1 =>
      destruct (tasks_can_return g (List.length (group g)) 0 w1)
        as (tr2 & w2 & Hrun2 & Hall & Hw2)
  end.
  - reflexivity.
  - exact Hlen.
  - intros k Hk. lia.
  - exists (map Shut tr1 ++ ShutReturn :: tr2), w2. split.
    + rewrite Wait_run_app, Hlift. cbn [Wait_run]. now rewrite Hret.
    + unfold Wait_over. rewrite Hall, Hw2. reflexivity.
Qed.

(** C2. With [cancelOnError], when the unit of a registered hook reads a
    failure of its function while the context of the shutdown group is
    still live (the deadline has not fired and no failure came earlier):
    the unit returns that failure, the group keeps it as its error and
    cancels its context with it as the cause, nothing later changes that,
    and [shutdown] returns it.  Whenever a unit reads a failure under the
    policy, the [Wait] that the shutdown call belongs to returns a non-nil
    error: whatever return there is gives one, and for a configured
    orchestrator the run goes on to such a return. *)
Theorem strict_failure_propagates
  (g : Graceful) (i : nat) (s : shutdown) (e : err) :
  cancelOnError g = true ->
  nth_error (shutdowns g) i = Some s ->
  (forall tr1 s1,
     shutdown_run g shutdown_start tr1 = Some s1 ->
     lookup i (units s1) = Some (Sending (Some e)) ->
     ctxErr (errgroup.ctx (sgroup s1)) = None ->
     exists s2,
       shutdown_step g s1 (SelectErr i) = Some s2 /\
       returned s2 = returned s1 ++ [(i, Some e)] /\
       logs s2 = logs s1 ++ [LogError shutdownTag (tag s) e] /\
       errgroup.first (sgroup s2) = Some e /\
       ctxErr (errgroup.ctx (sgroup s2)) = Some Canceled /\
       ctxCause (errgroup.ctx (sgroup s2)) = Some e /\
       (forall tr2 st,
          shutdown_run g s2 tr2 = Some st ->
          sgroup st = sgroup s2 /\
          (forall r, shutdown_result g st = Some r -> r = Some e)) /\
       (configured g ->
        exists tr2 st,
          shutdown_run g s2 tr2 = Some st /\
          shutdown_result g st = Some (Some e))) /\
  (forall tr1 w1 s1 tr2 w2 r,
     Wait_run g (Wait_start g) tr1 = Some w1 ->
     waiter w1 = InShutdown s1 ->
     lookup i (units s1) = Some (Sending (Some e)) ->
     Wait_run g w1 (Shut (SelectErr i) :: tr2) = Some w2 ->
     Wait_result w2 = Some r ->
     r <> None) /\
  (configured g ->
   forall tr1 w1 s1,
     Wait_run g (Wait_start g) tr1 = Some w1 ->
     waiter w1 = InShutdown s1 ->
     lookup i (units s1) = Some (Sending (Some e)) ->
     exists tr2 w2 r,
       Wait_run g w1 (Shut (SelectErr i) :: tr2) = Some w2 /\
       Wait_result w2 = Some r /\
       r <> None).
Proof.
  intros Hpol Hs. split; [|split].
  - intros tr1 s1 Hrun Hunit Hlive.
    assert (Hnone : errgroup.first (sgroup s1) = None).
    { destruct (errgroup.first (sgroup s1)) eqn:Ef; [|reflexivity].
      assert (Hd : done (errgroup.ctx (sgroup s1)) = true)
        by (apply (error_means_done g tr1 s1 Hrun); rewrite Ef; discriminate).
      unfold done in Hd. rewrite Hlive in Hd. discriminate. }
    destruct (read_first_failure g i s e s1 Hpol Hs Hunit Hnone Hlive)
      as (s2 & Hstep & Hret & Hlog & Hgroup).
    exists s2. rewrite Hgroup. simpl.
    repeat (split; [assumption || reflexivity|]).
    assert (Hlater : forall tr2 st,
               shutdown_run g s2 tr2 = Some st ->
               sgroup st = sgroup s2).
    { intros tr2 st Hrun2.
      apply (failure_sticks g tr2 s2 st); rewrite ?Hgroup; simpl;
        [discriminate | reflexivity | exact Hrun2]. }
    split.
    + intros tr2 st Hrun2. rewrite (Hlater tr2 st Hrun2), Hgroup.
      split; [reflexivity|].
      intros r Hr. apply shutdown_result_first in Hr.
      rewrite (Hlater tr2 st Hrun2), Hgroup in Hr. exact Hr.
    + intros Hc.
      assert (Hrun12 : shutdown_run g shutdown_start (tr1 ++ [SelectErr i])
                       = Some s2)
        by (rewrite shutdown_run_app, Hrun; cbn [shutdown_run];
            now rewrite Hstep).
      destruct (shutdown_can_return g Hc _ s2 Hrun12)
        as (tr2 & st & Hrun2 & Hover).
      exists tr2, st. split; [exact Hrun2|].
      unfold shutdown_result. rewrite Hover.
      now rewrite (Hlater tr2 st Hrun2), Hgroup.
  - intros tr1 w1 s1 tr2 w2 r _ Hw Hunit Hrun Hr.
    cbn [Wait_run] in Hrun.
    destruct (Wait_step g w1 (Shut (SelectErr i))) as [w'|] eqn:Ew;
      [|discriminate].
    assert (Hfailed : shutdown_failed w').
    { unfold Wait_step in Ew. rewrite Hw in Ew.
      unfold shutdown_step in Ew. rewrite Hs, Hunit, Hpol in Ew.
      inversion Ew; subst w'. unfold shutdown_failed. simpl.
      apply finish_keeps_error. right. discriminate. }
    apply (shutdown_failed_stays g tr2 w' w2 Hfailed) in Hrun.
    unfold shutdown_failed in Hrun.
    pose proof Hr as Hr'. apply Wait_result_first in Hr'. subst r.
    unfold Wait_result, Wait_over in Hr.
    destruct (waiter w2); try assumption;
      rewrite andb_false_r in Hr; discriminate.
  - intros Hc tr1 w1 s1 Hrun1 Hw Hunit.
    assert (Hstep : exists s2,
               shutdown_step g s1 (SelectErr i) = Some s2 /\
               errgroup.first (sgroup s2) <> None).
    { unfold shutdown_step. rewrite Hs, Hunit, Hpol.
      eexists. split; [reflexivity|]. simpl.
      apply finish_keeps_error. right. discriminate. }
    destruct Hstep as (s2 & Hstep & Hfirst).
    assert (Ew : Wait_step g w1 (Shut (SelectErr i))
                 = Some (mkW (wgroup w1) (tasks w1) (InShutdown s2)))
      by (unfold Wait_step; rewrite Hw, Hstep; reflexivity).
    assert (Hrun2 : Wait_run g (Wait_start g) (tr1 ++ [Shut (SelectErr i)])
                    = Some (mkW (wgroup w1) (tasks w1) (InShutdown s2)))
      by (rewrite Wait_run_app, Hrun1; cbn [Wait_run]; now rewrite Ew).
    destruct (Wait_can_return_from_shutdown g Hc _ _ s2 Hrun2 eq_refl)
      as (tr2 & w2 & Hrun3 & Hover).
    exists tr2, w2, (errgroup.first (wgroup w2)).
    split; [cbn [Wait_run]; rewrite Ew; exact Hrun3|].
    split; [unfold Wait_result; now rewrite Hover|].
    assert (Hfailed : shutdown_failed
                        (mkW (wgroup w1) (tasks w1) (InShutdown s2)))
      by exact Hfirst.
    apply (shutdown_failed_stays g tr2 _ w2 Hfailed) in Hrun3.
    unfold shutdown_failed in Hrun3. unfold Wait_over in Hover.
    destruct (waiter w2); try assumption;
      rewrite andb_false_r in Hover; discriminate.
Qed.

Lemma strict_failure_propagates_witness :
  (exists s1 s2,
     shutdown_run Demo.strict shutdown_start [Admit; Admit; ProcReturn 0]
     = Some s1 /\
     shutdown_step Demo.strict s1 (SelectErr 0) = Some s2 /\
     errgroup.first (sgroup s2) = Some (errorString "boom") /\
     ctxCause (errgroup.ctx (sgroup s2)) = Some (errorString "boom")) /\
  (exists w1 s1 w2 r,
     Wait_run Demo.strict (Wait_start Demo.strict)
       [SignalArrives syscall.SIGTERM; Wake; Shut Admit; Shut Admit;
        Shut (ProcReturn 0)] = Some w1 /\
     waiter w1 = InShutdown s1 /\
     Wait_run Demo.strict w1
       [Shut (SelectErr 0); Shut (SelectDone 1); ShutReturn; TaskReturn 0]
     = Some w2 /\
     Wait_result w2 = Some r /\
     r <> None) /\
  (exists w1 tr2 w2 r,
     Wait_run Demo.strict (Wait_start Demo.strict)
       [SignalArrives syscall.SIGTERM; Wake; Shut Admit; Shut Admit;
        Shut (ProcReturn 0)] = Some w1 /\
     Wait_run Demo.strict w1 (Shut (SelectErr 0) :: tr2) = Some w2 /\
     Wait_result w2 = Some r /\
     r <> None).
Proof.
  destruct (strict_failure_propagates
              Demo.strict 0
              (mkShutdown (Demo.rand 0) "A" Demo.boom) (errorString "boom")
              eq_refl eq_refl) as (Hshutdown & HWait & Hreturns).
  split; [|split].
  - eassert (E1 : shutdown_run Demo.strict shutdown_start
                    [Admit; Admit; ProcReturn 0] = Some _)
      by (vm_compute; reflexivity).
    destruct (Hshutdown _ _ E1 eq_refl eq_refl)
      as (s2 & Hstep & _ & _ & Hfirst & _ & Hcause & _).
    eexists; exists s2. repeat split; eassumption.
  - eassert (E1 : Wait_run Demo.strict (Wait_start Demo.strict)
                    [SignalArrives syscall.SIGTERM; Wake; Shut Admit;
                     Shut Admit; Shut (ProcReturn 0)] = Some _)
      by (vm_compute; reflexivity).
    match type of E1 with
    | _ = Some ?w1 =>
        eassert (E2 : Wait_run Demo.strict w1
                        [Shut (SelectErr 0); Shut (SelectDone 1); ShutReturn;
                         TaskReturn 0] = Some _)
          by (vm_compute; reflexivity)
    end.
    match type of E2 with
    | _ = Some ?w2 =>
        eassert (Er : Wait_result w2 = Some _) by (vm_compute; reflexivity)
    end.
    do 4 eexists.
    split; [exact E1|]. split; [reflexivity|]. split; [exact E2|].
    split; [exact Er|].
    exact (HWait _ _ _ _ _ _ E1 eq_refl eq_refl E2 Er).
  - eassert (E1 : Wait_run Demo.strict (Wait_start Demo.strict)
                    [SignalArrives syscall.SIGTERM; Wake; Shut Admit;
                     Shut Admit; Shut (ProcReturn 0)] = Some _)
      by (vm_compute; reflexivity).
    assert (Hc : configured Demo.strict)
      by (split; vm_compute; discriminate).
    destruct (Hreturns Hc _ _ _ E1 eq_refl eq_refl)
      as (tr2 & w2 & r & Hrun & Hr & Hnn).
    eexists; exists tr2, w2, r.
    split; [exact E1|]. split; [exact Hrun|]. split; assumption.
Defined.
